(** * Ino::Vector and Ino::Matrix (Matrix.h, Matrix.cpp): a shallow embedding

    The embedding follows the C++ text of [src/Matrix/src/Matrix.cpp]:

    - [double] is IEEE binary64, modelled by Rocq's primitive [float]
      (round to nearest even, one NaN); each arithmetic operator of the
      source is one IEEE operation (no fused multiply-add, no excess
      precision).
    - [int] values are modelled in [Z].  Signed overflow is undefined in
      C++; none of the [int] expressions of the modelled functions
      overflows on well-formed objects: the sizes of a vector are
      compared and subtracted only ([newSz - sz] with [newSz > sz >= 0]),
      and in [solveLDLT] every index expression lies between [0] and
      [i + cls <= rws * cls], the length of an allocated array.  Where
      [alloc] is called with two dimensions that do not come from one
      allocated matrix (by [Matrix(rows, cols)], [setRows],
      [setColumns], [resize] and [multiply]), the theorems assume that
      their product is at most [INT_MAX].
    - A heap array is a [buffer]: the address [operator new] returned
      and the list of its cells.  What [new double[n]] returns (address
      and indeterminate contents) is an explicit [allocation] argument
      of every function that allocates; theorems quantify over it.
      [delete[]] and the release of the scratch arrays are not modelled.
    - Member functions are computations over the object they mutate:
      a state-passing function that returns an [outcome] together with
      the state reached, so that the state at a [throw] is observable.
      A raw access outside the allocated storage (undefined behaviour
      in C++) is the outcome [Fault].
    - Distinct C++ objects are distinct values here: a call such as
      [A.solveLDLT(A)] or [A.transpose(A)], where an argument aliases
      the receiver, is outside the model.
    - The constructors [Vector(double *arr, int len)] and
      [Matrix(int rows, int columns, double *elems)], private and
      written for the classes
      [PVector] and [PMatrix] that are not part of these sources, are
      not modelled. *)

From Stdlib Require Import ZArith Floats Lia Bool.
From stdpp Require Import base tactics option list list_numbers.

Open Scope Z_scope.

(* ===================================================================== *)
(** ** Outcomes and computations *)
(* ===================================================================== *)

(** The two exception classes of Exceptions.h that Matrix.cpp throws. *)
Inductive exn : Set :=
  | IllegalArgumentException
  | IndexOutOfBoundsException.

(** How a call ends: it returns [a], it throws [e], or it leaves the
    defined behaviour of C++ by an access outside allocated storage. *)
Inductive outcome (A : Type) : Type :=
  | Ok (a : A)
  | Throw (e : exn)
  | Fault.

Arguments Ok {A} a.
Arguments Throw {A} e.
Arguments Fault {A}.

(** A computation over a mutable state [S] with result [A]. *)
Definition comp (S A : Type) : Type := S -> outcome A * S.

Definition ret {S A} (a : A) : comp S A := fun s => (Ok a, s).

Definition bind {S A B} (c : comp S A) (k : A -> comp S B) : comp S B :=
  fun s =>
    match c s with
    | (Ok a, s') => k a s'
    | (Throw e, s') => (Throw e, s')
    | (Fault, s') => (Fault, s')
    end.

Definition throw {S A} (e : exn) : comp S A := fun s => (Throw e, s).
Definition fault {S A} : comp S A := fun s => (Fault, s).
Definition get_state {S} : comp S S := fun s => (Ok s, s).

Notation "'let*' x ':=' c 'in' k" := (bind c (fun x => k))
  (at level 10, x name, c at level 100, k at level 200).
Notation "c ';;' k" := (bind c (fun _ => k))
  (at level 100, k at level 200, right associativity).

Definition modify {S} (f : S -> S) : comp S unit := fun s => (Ok tt, f s).

(** Run a computation on a component of the state (a member object or a
    reference argument) and write the component back. *)
Definition zoom {S T A} (get : S -> T) (set : T -> S -> S) (c : comp T A) : comp S A :=
  fun s => let '(o, t') := c (get s) in (o, set t' s).

(** Run a computation on a local object [t]; the result is the local's
    final value.  The enclosing state is not touched. *)
Definition local {S T A} (t : T) (c : comp T A) : comp S T :=
  fun s =>
    match c t with
    | (Ok _, t') => (Ok t', s)
    | (Throw e, _) => (Throw e, s)
    | (Fault, _) => (Fault, s)
    end.

(** Run a computation that only reads on a [const] object [t]. *)
Definition peek {S T A} (t : T) (c : comp T A) : comp S A :=
  fun s => (fst (c t), s).

(** A constructor: its body runs on the object under construction; when
    the body throws, no object comes into existence. *)
Definition construct {S A} (init : S) (body : comp S A) : outcome S :=
  match body init with
  | (Ok _, s) => Ok s
  | (Throw e, _) => Throw e
  | (Fault, _) => Fault
  end.

(** Use the outcome of a constructor call inside a computation. *)
Definition declare {S T} (o : outcome T) : comp S T := fun s => (o, s).

(** [for (int i = ...; ...; ...) body], the body run once for each index
    of [l] in order; [a] carries the local variables the body updates. *)
Fixpoint for_each {S A} (l : list Z) (body : Z -> A -> comp S A) (a : A) : comp S A :=
  match l with
  | [] => ret a
  | i :: l' => let* a' := body i a in for_each l' body a'
  end.

(** [for (int i = lo; i < hi; ++i)] *)
Definition for_up {S} (lo hi : Z) (body : Z -> comp S unit) : comp S unit :=
  for_each (seqZ lo (hi - lo)) (fun i _ => body i) tt.

(** The same loop, with a local accumulator updated by the body. *)
Definition for_up_acc {S A} (lo hi : Z) (body : Z -> A -> comp S A) (a : A) : comp S A :=
  for_each (seqZ lo (hi - lo)) body a.

(** [for (int i = hi; i >= lo; --i)] *)
Definition for_down {S} (hi lo : Z) (body : Z -> comp S unit) : comp S unit :=
  for_each (reverse (seqZ lo (hi - lo + 1))) (fun i _ => body i) tt.

(* ===================================================================== *)
(** ** Arrays of cells *)
(* ===================================================================== *)

#[global] Instance float_inhabited : Inhabited float := populate 0%float.

(** [0 <= i < length l], the indices of an allocated array. *)
Definition in_array {A} (l : list A) (i : Z) : bool :=
  (0 <=? i) && (i <? Z.of_nat (length l)).

(** The value of [l[i]] for an index inside the array. *)
Definition cell {A} `{Inhabited A} (l : list A) (i : Z) : A := l !!! Z.to_nat i.

(** Raw read [a[i]] and raw write [a[i] = v]: outside the array, [Fault]. *)
Definition arr_read {S A} `{Inhabited A} (l : list A) (i : Z) : comp S A :=
  if in_array l i then ret (cell l i) else fault.

Definition arr_write {A} (i : Z) (v : A) : comp (list A) unit :=
  fun l => if in_array l i then (Ok tt, <[Z.to_nat i := v]> l) else (Fault, l).

(** The array of [n] cells whose cell [i] holds [f i]. *)
Definition tab {A} (n : Z) (f : Z -> A) : list A := f <$> seqZ 0 n.

(** The address and the indeterminate initial contents that one
    evaluation of [new T[n]] returns. *)
Record allocation (A : Type) : Type := {
  new_addr : Z;
  new_cells : Z -> A
}.
Arguments new_addr {A} _.
Arguments new_cells {A} _ _.

Record buffer : Type := {
  addr : Z;
  cells : list float
}.

(** [new double[n]]; a negative [n] is outside the model. *)
Definition new_double {S} (a : allocation float) (n : Z) : comp S buffer :=
  if n <? 0 then fault
  else ret {| addr := new_addr a; cells := tab n (new_cells a) |}.

(** The cells of [l] with [n] cells from [off] on set to [+0.0], the
    all-zero bit pattern. *)
Definition zero_fill (off n : Z) (l : list float) : list float :=
  take (Z.to_nat off) l ++ replicate (Z.to_nat n) 0%float ++ drop (Z.to_nat (off + n)) l.

(** The cells of [dst] with the first [n] replaced by those of [src]. *)
Definition copy_prefix (src : list float) (n : Z) (dst : list float) : list float :=
  take (Z.to_nat n) src ++ drop (Z.to_nat n) dst.

(** [memset(p + off, 0, n * sizeof(double))] on the cells of [p]. *)
Definition memset0 (off n : Z) : comp (list float) unit :=
  fun l =>
    if (0 <=? off) && (0 <=? n) && (off + n <=? Z.of_nat (length l))
    then (Ok tt, zero_fill off n l)
    else (Fault, l).

(** [memmove(dst, src, n * sizeof(double))] between two distinct arrays. *)
Definition memmove (src : list float) (n : Z) : comp (list float) unit :=
  fun dst =>
    if (0 <=? n) && (n <=? Z.of_nat (length src)) && (n <=? Z.of_nat (length dst))
    then (Ok tt, copy_prefix src n dst)
    else (Fault, dst).

(* ===================================================================== *)
(** ** class Vector *)
(* ===================================================================== *)

(** [double *va; int sz; int cap;]  A null [va] is [None]. *)
Record Vector : Type := {
  va : option buffer;
  sz : Z;
  cap : Z
}.

Definition set_va (b : option buffer) (v : Vector) : Vector :=
  {| va := b; sz := sz v; cap := cap v |}.
Definition set_sz (n : Z) (v : Vector) : Vector :=
  {| va := va v; sz := n; cap := cap v |}.
Definition set_cap (n : Z) (v : Vector) : Vector :=
  {| va := va v; sz := sz v; cap := n |}.

(** Run a computation on the cells [va] points to. *)
Definition on_va {A} (c : comp (list float) A) : comp Vector A :=
  fun v =>
    match va v with
    | None => (Fault, v)
    | Some b =>
        let '(o, l) := c (cells b) in
        (o, set_va (Some {| addr := addr b; cells := l |}) v)
    end.

(** [va[i]] read and [va[i] = x], unchecked. *)
Definition va_read (i : Z) : comp Vector float :=
  on_va (let* l := get_state in arr_read l i).
Definition va_write (i : Z) (x : float) : comp Vector unit :=
  on_va (arr_write i x).

(** [void Vector::setSize(int newSz, bool preserve, bool zeroInit)] *)
Definition Vector_setSize (newSz : Z) (preserve zeroInit : bool)
    (a : allocation float) : comp Vector unit :=
  let* this := get_state in
  if newSz <? 0 then throw IllegalArgumentException
  else if (newSz >=? cap this ÷ 2) && (newSz <=? cap this) then
    (if zeroInit && (newSz >? sz this)
     then on_va (memset0 (sz this) (newSz - sz this)) else ret tt);;
    modify (set_sz newSz)
  else
    (match preserve, va this with
     | true, Some old =>
         let* newVa := new_double a newSz in
         let* moved :=
           local (cells newVa)
             (if newSz <=? sz this then memmove (cells old) newSz
              else
                memmove (cells old) (sz this);;
                if zeroInit then memset0 (sz this) (newSz - sz this) else ret tt) in
         modify (set_va (Some {| addr := addr newVa; cells := moved |}))
     | _, _ =>
         let* newVa := new_double a newSz in
         modify (set_va (Some newVa));;
         if zeroInit then on_va (memset0 0 newSz) else ret tt
     end);;
    modify (set_cap newSz);;
    modify (set_sz newSz).

(** [Vector::Vector(int vSize, bool zeroInit)] *)
Definition Vector_Vector (vSize : Z) (zeroInit : bool) (a : allocation float)
    : outcome Vector :=
  construct {| va := None; sz := vSize; cap := vSize |}
    (if vSize <? 0 then throw IllegalArgumentException
     else
       let* b := new_double a vSize in
       modify (set_va (Some b));;
       if zeroInit then on_va (memset0 0 vSize) else ret tt).

(** [Vector::Vector(const Vector& cp)] *)
Definition Vector_copy (cp : Vector) (a : allocation float) : outcome Vector :=
  construct {| va := None; sz := sz cp; cap := sz cp |}
    (let* b := new_double a (sz cp) in
     modify (set_va (Some b));;
     match va cp with
     | None => fault
     | Some src => on_va (memmove (cells src) (sz cp))
     end).

(** [Vector& Vector::operator=(const Vector& src)] *)
Definition Vector_assign (src : Vector) (a : allocation float) : comp Vector unit :=
  Vector_setSize (sz src) false false a;;
  let* this := get_state in
  match va src with
  | None => fault
  | Some b => on_va (memmove (cells b) (sz this))
  end.

(** [void Vector::clear()] *)
Definition Vector_clear : comp Vector unit :=
  let* this := get_state in
  on_va (memset0 0 (sz this)).

(** [double Vector::operator[](int idx) const], and the value read
    through the reference the non-const overload returns. *)
Definition Vector_index (idx : Z) : comp Vector float :=
  let* this := get_state in
  if (idx <? 0) || (idx >=? sz this) then throw IndexOutOfBoundsException
  else va_read idx.

(** [v[idx] = x] through [double& Vector::operator[](int idx)]. *)
Definition Vector_index_store (idx : Z) (x : float) : comp Vector unit :=
  let* this := get_state in
  if (idx <? 0) || (idx >=? sz this) then throw IndexOutOfBoundsException
  else va_write idx x.

(** The three element-wise binary operators share one shape:
    [if (sz != v.sz) throw ...; Vector result(sz,false);
     for (int i=0; i<sz; i++) result.va[i] = va[i] op v.va[i];] *)
Definition Vector_add (v : Vector) (a : allocation float) : comp Vector Vector :=
  let* this := get_state in
  if negb (sz this =? sz v) then throw IllegalArgumentException
  else
    let* result := declare (Vector_Vector (sz this) false a) in
    local result
      (for_up 0 (sz this) (fun i =>
         let* x := peek this (va_read i) in
         let* y := peek v (va_read i) in
         va_write i (x + y)%float)).

(** [Vector& Vector::operator+=(const Vector& v)] *)
Definition Vector_add_assign (v : Vector) : comp Vector unit :=
  let* this := get_state in
  if negb (sz this =? sz v) then throw IllegalArgumentException
  else
    for_up 0 (sz this) (fun i =>
      let* x := va_read i in
      let* y := peek v (va_read i) in
      va_write i (x + y)%float).

(** [Vector Vector::operator-(const Vector& v) const] *)
Definition Vector_sub (v : Vector) (a : allocation float) : comp Vector Vector :=
  let* this := get_state in
  if negb (sz this =? sz v) then throw IllegalArgumentException
  else
    let* result := declare (Vector_Vector (sz this) false a) in
    local result
      (for_up 0 (sz this) (fun i =>
         let* x := peek this (va_read i) in
         let* y := peek v (va_read i) in
         va_write i (x - y)%float)).

(** [Vector& Vector::operator-=(const Vector& v)] *)
Definition Vector_sub_assign (v : Vector) : comp Vector unit :=
  let* this := get_state in
  if negb (sz this =? sz v) then throw IllegalArgumentException
  else
    for_up 0 (sz this) (fun i =>
      let* x := va_read i in
      let* y := peek v (va_read i) in
      va_write i (x - y)%float).

(** [double Vector::operator*(const Vector& v) const] *)
Definition Vector_dot (v : Vector) : comp Vector float :=
  let* this := get_state in
  if negb (sz this =? sz v) then throw IllegalArgumentException
  else
    for_up_acc 0 (sz this) (fun i prod =>
      let* x := va_read i in
      let* y := peek v (va_read i) in
      ret (prod + x * y)%float) 0%float.

(** [Vector Vector::operator*(double fact) const] *)
Definition Vector_scale (fact : float) (a : allocation float) : comp Vector Vector :=
  let* this := get_state in
  let* result := declare (Vector_Vector (sz this) false a) in
  local result
    (for_up 0 (sz this) (fun i =>
       let* x := peek this (va_read i) in
       va_write i (x * fact)%float)).

(** [Vector& Vector::operator*=(double fact)] *)
Definition Vector_scale_assign (fact : float) : comp Vector unit :=
  let* this := get_state in
  for_up 0 (sz this) (fun i =>
    let* x := va_read i in
    va_write i (x * fact)%float).

(** [double Vector::len() const] *)
Definition Vector_len : comp Vector float :=
  let* this := get_state in
  let* len :=
    for_up_acc 0 (sz this) (fun i len =>
      let* val := va_read i in
      ret (len + val * val)%float) 0%float in
  ret (sqrt len).

(** [double Vector::len(int dims) const] *)
Definition Vector_len_dims (dims : Z) : comp Vector float :=
  let* this := get_state in
  if dims >? sz this then throw IllegalArgumentException
  else
    let* len :=
      for_up_acc 0 dims (fun i len =>
        let* val := va_read i in
        ret (len + val * val)%float) 0%float in
    ret (sqrt len).

(* ===================================================================== *)
(** ** class Matrix *)
(* ===================================================================== *)

(** [double **mat; double *matRows; int rws, cls;]

    Every constructor and [alloc] set [mat[i] = matRows + i*cls] and
    nothing else writes the row table, so the table is not stored: the
    element [mat[r][c]] is the cell [r*cls + c] of [matRows].  The model
    is stricter than C++ on one point: an access [mat[r][c]] with [c]
    outside [[0, cls)] is a [Fault] even where the flat buffer would
    still contain the addressed cell. *)
Record Matrix : Type := {
  rws : Z;
  cls : Z;
  matRows : buffer
}.

Definition set_matRows (b : buffer) (m : Matrix) : Matrix :=
  {| rws := rws m; cls := cls m; matRows := b |}.
Definition set_dims (rows cols : Z) (m : Matrix) : Matrix :=
  {| rws := rows; cls := cols; matRows := matRows m |}.

Definition on_matRows {A} (c : comp (list float) A) : comp Matrix A :=
  zoom (fun m => cells (matRows m))
       (fun l m => set_matRows {| addr := addr (matRows m); cells := l |} m) c.

(** Row [r] and physical column [c] exist. *)
Definition in_band (m : Matrix) (r c : Z) : bool :=
  (0 <=? r) && (r <? rws m) && (0 <=? c) && (c <? cls m).

(** [mat[r][c]] read, as in [operator()(r,c)] and [row(r)[c]]. *)
Definition Matrix_read (r c : Z) : comp Matrix float :=
  let* this := get_state in
  if in_band this r c then arr_read (cells (matRows this)) (r * cls this + c)
  else fault.

(** [mat[r][c] = x] *)
Definition Matrix_write (r c : Z) (x : float) : comp Matrix unit :=
  let* this := get_state in
  if in_band this r c then on_matRows (arr_write (r * cls this + c) x)
  else fault.

(** [void Matrix::alloc(int rows, int cols, bool setZero)]; a negative
    row count for [new double*[rws]] is outside the model. *)
Definition Matrix_alloc (rows cols : Z) (setZero : bool) (a : allocation float)
    : comp Matrix unit :=
  modify (set_dims rows cols);;
  if rows <? 0 then fault
  else
    let* b := new_double a (rows * cols) in
    modify (set_matRows b);;
    if setZero then on_matRows (memset0 0 (rows * cols)) else ret tt.

Definition null_buffer : buffer := {| addr := 0; cells := [] |}.

(** [Matrix::Matrix(int rows, int cols, bool zeroInit)] *)
Definition Matrix_Matrix (rows cols : Z) (zeroInit : bool) (a : allocation float)
    : outcome Matrix :=
  construct {| rws := rows; cls := cols; matRows := null_buffer |}
    (Matrix_alloc rows cols zeroInit a).

(** [Matrix::Matrix(const Matrix& cp)] *)
Definition Matrix_copy (cp : Matrix) (a : allocation float) : outcome Matrix :=
  construct {| rws := rws cp; cls := cls cp; matRows := null_buffer |}
    (if rws cp <? 0 then fault
     else
       let* b := new_double a (rws cp * cls cp) in
       modify (set_matRows b);;
       on_matRows (memmove (cells (matRows cp)) (rws cp * cls cp))).

(** [void Matrix::transpose(Matrix& transposedMat) const]; the state is
    [transposedMat]. *)
Definition Matrix_transpose (this : Matrix) (a : allocation float) : comp Matrix unit :=
  let* transposedMat := get_state in
  (if negb (rws transposedMat =? cls this) || negb (cls transposedMat =? rws this)
   then Matrix_alloc (cls this) (rws this) false a else ret tt);;
  for_up 0 (rws this) (fun i =>
    for_up 0 (cls this) (fun j =>
      let* x := peek this (Matrix_read i j) in
      Matrix_write j i x)).

(** [void Matrix::setRows(int rows, bool zeroInit)] *)
Definition Matrix_setRows (rows : Z) (zeroInit : bool) (a : allocation float)
    : comp Matrix unit :=
  let* this := get_state in
  if rows <? 1 then throw IllegalArgumentException
  else Matrix_alloc rows (cls this) zeroInit a.

(** [void Matrix::setColumns(int cols, bool zeroInit)] *)
Definition Matrix_setColumns (cols : Z) (zeroInit : bool) (a : allocation float)
    : comp Matrix unit :=
  let* this := get_state in
  if cols <? 1 then throw IllegalArgumentException
  else Matrix_alloc (rws this) cols zeroInit a.

(** [void Matrix::resize(int rows, int cols, bool zeroInit)] *)
Definition Matrix_resize (rows cols : Z) (zeroInit : bool) (a : allocation float)
    : comp Matrix unit :=
  if (rows <? 1) || (cols <? 1) then throw IllegalArgumentException
  else Matrix_alloc rows cols zeroInit a.

(** [Matrix& Matrix::operator=(const Matrix& src)] *)
Definition Matrix_assign (src : Matrix) (a : allocation float) : comp Matrix unit :=
  let* this := get_state in
  (if negb (rws this =? rws src) || negb (cls this =? cls src)
   then Matrix_alloc (rws src) (cls src) false a else ret tt);;
  let* this := get_state in
  on_matRows (memmove (cells (matRows src)) (rws this * cls this)).

(** [void Matrix::clear()] *)
Definition Matrix_clear : comp Matrix unit :=
  let* this := get_state in
  on_matRows (memset0 0 (rws this * cls this)).

(** [void Matrix::multiply(const Matrix& b, Matrix& result) const]; the
    state is [result]. *)
Definition Matrix_multiply (this b : Matrix) (a : allocation float) : comp Matrix unit :=
  if negb (rws b =? cls this) then throw IllegalArgumentException
  else
    let* result := get_state in
    (if negb (rws result =? rws this) || negb (cls result =? cls b)
     then Matrix_alloc (rws this) (cls b) false a else ret tt);;
    for_up 0 (rws this) (fun i =>
      for_up 0 (cls b) (fun j =>
        let* s :=
          for_up_acc 0 (cls this) (fun k s =>
            let* x := peek this (Matrix_read i k) in
            let* y := peek b (Matrix_read k j) in
            ret (s + x * y)%float) 0%float in
        Matrix_write i j s)).

(* ===================================================================== *)
(** ** Matrix::solveLDLT *)
(* ===================================================================== *)

(** The objects a call of [solveLDLT] works on: the receiver, the
    right-hand side [rhs] (a [Vector] or a [Matrix]) and the two scratch
    arrays [int *lwbIdx] and [double *r]. *)
Record solver (R : Type) : Type := {
  s_this : Matrix;
  s_rhs : R;
  s_lwbIdx : list Z;
  s_r : list float
}.
Arguments s_this {R} _.
Arguments s_rhs {R} _.
Arguments s_lwbIdx {R} _.
Arguments s_r {R} _.

Definition set_this {R} (m : Matrix) (s : solver R) : solver R :=
  {| s_this := m; s_rhs := s_rhs s; s_lwbIdx := s_lwbIdx s; s_r := s_r s |}.
Definition set_rhs {R} (x : R) (s : solver R) : solver R :=
  {| s_this := s_this s; s_rhs := x; s_lwbIdx := s_lwbIdx s; s_r := s_r s |}.
Definition set_lwbIdx {R} (l : list Z) (s : solver R) : solver R :=
  {| s_this := s_this s; s_rhs := s_rhs s; s_lwbIdx := l; s_r := s_r s |}.
Definition set_r {R} (l : list float) (s : solver R) : solver R :=
  {| s_this := s_this s; s_rhs := s_rhs s; s_lwbIdx := s_lwbIdx s; s_r := l |}.

(** [mat[j][c]] and [mat[j][c] = x] on the receiver. *)
Definition mat_get {R} (j c : Z) : comp (solver R) float :=
  zoom s_this set_this (Matrix_read j c).
Definition mat_put {R} (j c : Z) (x : float) : comp (solver R) unit :=
  zoom s_this set_this (Matrix_write j c x).

(** [lwbIdx[i]], [lwbIdx[i] = n], [r[i]], [r[i] = x]. *)
Definition lwb_get {R} (i : Z) : comp (solver R) Z :=
  let* s := get_state in arr_read (s_lwbIdx s) i.
Definition lwb_put {R} (i n : Z) : comp (solver R) unit :=
  zoom s_lwbIdx set_lwbIdx (arr_write i n).
Definition r_get {R} (i : Z) : comp (solver R) float :=
  let* s := get_state in arr_read (s_r s) i.
Definition r_put {R} (i : Z) (x : float) : comp (solver R) unit :=
  zoom s_r set_r (arr_write i x).

(** [rhs[i]] and [rhs[i] = x], through the checked [Vector::operator[]]. *)
Definition rhs_get (i : Z) : comp (solver Vector) float :=
  zoom s_rhs set_rhs (Vector_index i).
Definition rhs_put (i : Z) (x : float) : comp (solver Vector) unit :=
  zoom s_rhs set_rhs (Vector_index_store i x).

(** [rhs(i,k)] and [rhs(i,k) = x], through the unchecked
    [Matrix::operator()]. *)
Definition rhs_get2 (i k : Z) : comp (solver Matrix) float :=
  zoom s_rhs set_rhs (Matrix_read i k).
Definition rhs_put2 (i k : Z) (x : float) : comp (solver Matrix) unit :=
  zoom s_rhs set_rhs (Matrix_write i k x).

Definition MaxAllocSz : Z := 4000.

#[warnings="-inexact-float"]
Definition negligible : float := 1e-12%float.

(** The scratch arrays come from [new] above [MaxAllocSz] rows and from
    [_malloca] otherwise; either way [n] cells of indeterminate contents. *)
Definition new_array {A} (a : allocation A) (n : Z) : list A := tab n (new_cells a).
Definition malloca {A} (a : allocation A) (n : Z) : list A := tab n (new_cells a).

(** The loops of [void Matrix::solveLDLT(Vector& rhs)], lines 440-487. *)
Definition solveLDLT_Vector_loops (rws cls : Z) : comp (solver Vector) unit :=
  for_up 0 cls (fun i => lwb_put i 0);;
  for_up cls rws (fun i => lwb_put i (i - cls + 1));;
  for_up 0 rws (fun i =>
    let* dd := mat_get i 0 in
    let* lwb_i := lwb_get i in
    let* dd :=
      for_up_acc lwb_i i (fun j dd =>
        let* m := mat_get j (i - j) in
        let* d := mat_get j 0 in
        r_put j (d * m)%float;;
        let* r_j := r_get j in
        ret (dd - r_j * m)%float) dd in
    mat_put i 0 dd;;
    let upb := Z.min (i + cls) rws in
    for_up (i + 1) upb (fun j =>
      let* lwb_i := lwb_get i in
      let* lwb_j := lwb_get j in
      let st := Z.max lwb_i lwb_j in
      for_up st i (fun k =>
        let* m := mat_get i (j - i) in
        let* a := mat_get k (j - k) in
        let* r_k := r_get k in
        mat_put i (j - i) (m - a * r_k)%float);;
      let* m := mat_get i (j - i) in
      mat_put i (j - i) (m / dd)%float;;
      let* m := mat_get i (j - i) in
      if (abs m <? negligible)%float then
        let* lwb_j := lwb_get j in
        if lwb_j =? i then lwb_put j (lwb_j + 1) else ret tt
      else ret tt));;
  for_up 0 rws (fun i =>
    let* lwb_i := lwb_get i in
    for_up lwb_i i (fun j =>
      let* m := mat_get j (i - j) in
      let* x_j := rhs_get j in
      let* x_i := rhs_get i in
      rhs_put i (x_i - m * x_j)%float));;
  for_up 0 rws (fun i =>
    let* d := mat_get i 0 in
    let* x_i := rhs_get i in
    rhs_put i (x_i / d)%float);;
  for_down (rws - 1) 0 (fun i =>
    let upb := Z.min (i + cls) rws in
    for_up (i + 1) upb (fun j =>
      let* m := mat_get i (j - i) in
      let* x_j := rhs_get j in
      let* x_i := rhs_get i in
      rhs_put i (x_i - m * x_j)%float)).

(** [void Matrix::solveLDLT(Vector& rhs)]; the state is the pair of the
    receiver and [rhs]. *)
Definition Matrix_solveLDLT_Vector (la : allocation Z) (ra : allocation float)
    : comp (Matrix * Vector) unit :=
  fun '(this, rhs) =>
    if rws this <? cls this then (Throw IllegalArgumentException, (this, rhs))
    else if negb (sz rhs =? rws this) then (Throw IllegalArgumentException, (this, rhs))
    else
      let lwbIdx :=
        if rws this >? MaxAllocSz then new_array la (rws this) else malloca la (rws this) in
      let r :=
        if rws this >? MaxAllocSz then new_array ra (rws this) else malloca ra (rws this) in
      let '(o, s) :=
        solveLDLT_Vector_loops (rws this) (cls this)
          {| s_this := this; s_rhs := rhs; s_lwbIdx := lwbIdx; s_r := r |} in
      (o, (s_this s, s_rhs s)).

(** The loops of [void Matrix::solveLDLT(Matrix& rhs)], lines 538-593. *)
Definition solveLDLT_Matrix_loops (rws cls rhsColSz : Z) : comp (solver Matrix) unit :=
  for_up 0 cls (fun i => lwb_put i 0);;
  for_up cls rws (fun i => lwb_put i (i - cls + 1));;
  for_up 0 rws (fun i =>
    let* dd := mat_get i 0 in
    let* lwb_i := lwb_get i in
    let* dd :=
      for_up_acc lwb_i i (fun j dd =>
        let* m := mat_get j (i - j) in
        let* d := mat_get j 0 in
        r_put j (d * m)%float;;
        let* r_j := r_get j in
        ret (dd - r_j * m)%float) dd in
    mat_put i 0 dd;;
    let upb := Z.min (i + cls) rws in
    for_up (i + 1) upb (fun j =>
      let* lwb_i := lwb_get i in
      let* lwb_j := lwb_get j in
      let st := Z.max lwb_i lwb_j in
      for_up st i (fun k =>
        let* m := mat_get i (j - i) in
        let* a := mat_get k (j - k) in
        let* r_k := r_get k in
        mat_put i (j - i) (m - a * r_k)%float);;
      let* m := mat_get i (j - i) in
      mat_put i (j - i) (m / dd)%float;;
      let* m := mat_get i (j - i) in
      if (abs m <? negligible)%float then
        let* lwb_j := lwb_get j in
        if lwb_j =? i then lwb_put j (lwb_j + 1) else ret tt
      else ret tt));;
  for_up 0 rws (fun i =>
    let* lwb_i := lwb_get i in
    for_up lwb_i i (fun j =>
      let* m := mat_get j (i - j) in
      for_up 0 rhsColSz (fun k =>
        let* x_j := rhs_get2 j k in
        let* x_i := rhs_get2 i k in
        rhs_put2 i k (x_i - m * x_j)%float)));;
  for_up 0 rws (fun i =>
    let* d := mat_get i 0 in
    for_up 0 rhsColSz (fun j =>
      let* x_i := rhs_get2 i j in
      rhs_put2 i j (x_i / d)%float));;
  for_down (rws - 1) 0 (fun i =>
    let upb := Z.min (i + cls) rws in
    for_up (i + 1) upb (fun j =>
      let* m := mat_get i (j - i) in
      for_up 0 rhsColSz (fun k =>
        let* x_j := rhs_get2 j k in
        let* x_i := rhs_get2 i k in
        rhs_put2 i k (x_i - m * x_j)%float))).

(** [void Matrix::solveLDLT(Matrix& rhs)] *)
Definition Matrix_solveLDLT_Matrix (la : allocation Z) (ra : allocation float)
    : comp (Matrix * Matrix) unit :=
  fun '(this, rhs) =>
    if rws this <? cls this then (Throw IllegalArgumentException, (this, rhs))
    else if negb (rws rhs =? rws this) then (Throw IllegalArgumentException, (this, rhs))
    else
      let lwbIdx :=
        if rws this >? MaxAllocSz then new_array la (rws this) else malloca la (rws this) in
      let r :=
        if rws this >? MaxAllocSz then new_array ra (rws this) else malloca ra (rws this) in
      let '(o, s) :=
        solveLDLT_Matrix_loops (rws this) (cls this) (cls rhs)
          {| s_this := this; s_rhs := rhs; s_lwbIdx := lwbIdx; s_r := r |} in
      (o, (s_this s, s_rhs s)).

(* ===================================================================== *)
(** ** Specifications of computations *)
(* ===================================================================== *)

(** [wp c Q s]: run from [s], [c] returns normally (no exception, no
    fault) with a result and a final state that satisfy [Q]. *)
Definition wp {S A} (c : comp S A) (Q : A -> S -> Prop) (s : S) : Prop :=
  match c s with
  | (Ok a, s') => Q a s'
  | _ => False
  end.

(** [keeps P c]: whatever the outcome of [c] (normal return, exception
    or fault), the state it leaves satisfies [P] if the initial one did. *)
Definition keeps {S A} (P : S -> Prop) (c : comp S A) : Prop :=
  forall s, P s -> P (snd (c s)).

(** [c] never ends by throwing [e]. *)
Definition no_throw {S A} (e : exn) (c : comp S A) : Prop :=
  forall s, fst (c s) <> Throw e.

(* ===================================================================== *)
(** ** Well-formed vectors and matrices *)
(* ===================================================================== *)

(** The class invariant of a [Vector] built through the public
    interface: [va] points to [cap] cells and [0 <= sz <= cap]. *)
Definition Vector_wf (v : Vector) : Prop :=
  match va v with
  | Some b => 0 <= sz v <= cap v /\ Z.of_nat (length (cells b)) = cap v
  | None => False
  end.

(** The invariant of the data model, on the two counters alone. *)
Definition Vector_inv (v : Vector) : Prop := 0 <= sz v <= cap v.

(** Every constructor leaves [sz = cap], and [setSize] keeps the buffer
    only while [cap/2 <= newSz <= cap]: the size never falls below half
    the capacity. *)
Definition Vector_tight (v : Vector) : Prop :=
  0 <= sz v /\ cap v ÷ 2 <= sz v <= cap v.

(** The cells [va] points to, the entry [va[i]] and the address of the
    backing buffer. *)
Definition Vector_cells (v : Vector) : list float :=
  match va v with Some b => cells b | None => [] end.
Definition Vector_elt (v : Vector) (i : Z) : float := cell (Vector_cells v) i.
Definition Vector_addr (v : Vector) : option Z := addr <$> va v.

(** The vector [v] with the cells of its buffer replaced by [l]. *)
Definition Vector_with_cells (v : Vector) (l : list float) : Vector :=
  {| va := Some {| addr := default 0 (Vector_addr v); cells := l |};
     sz := sz v; cap := cap v |}.

(** The cells of the buffer [setSize] allocates outside the window. *)
Definition setSize_new_cells (old : list float) (s newSz : Z) (preserve zeroInit : bool)
    (a : allocation float) : list float :=
  let fresh := tab newSz (new_cells a) in
  if preserve then
    if newSz <=? s then copy_prefix old newSz fresh
    else if zeroInit then zero_fill s (newSz - s) (copy_prefix old s fresh)
         else copy_prefix old s fresh
  else if zeroInit then zero_fill 0 newSz fresh else fresh.

(** The class invariant of a [Matrix]: [matRows] points to [rws*cls]
    cells.  (No constructor checks the dimensions, so [rws] or [cls]
    may be 0.) *)
Definition Matrix_wf (m : Matrix) : Prop :=
  0 <= rws m /\ 0 <= cls m /\ Z.of_nat (length (cells (matRows m))) = rws m * cls m.

(** The entry [mat[r][c]]. *)
Definition Matrix_elt (m : Matrix) (r c : Z) : float :=
  cell (cells (matRows m)) (r * cls m + c).

(** The matrix after [mat[r][c] = x]. *)
Definition Matrix_upd (m : Matrix) (r c : Z) (x : float) : Matrix :=
  set_matRows {| addr := addr (matRows m);
                 cells := <[Z.to_nat (r * cls m + c) := x]> (cells (matRows m)) |} m.

(** The matrix of the given shape and address whose entry [(r,c)] is
    [f r c]. *)
Definition Matrix_tab (rows cols ad : Z) (f : Z -> Z -> float) : Matrix :=
  {| rws := rows; cls := cols;
     matRows := {| addr := ad;
                   cells := tab (rows * cols) (fun k => f (k / cols) (k mod cols)) |} |}.

(** The matrix [m] in a buffer at address [ad]. *)
Definition Matrix_at (ad : Z) (m : Matrix) : Matrix :=
  {| rws := rws m; cls := cls m;
     matRows := {| addr := ad; cells := cells (matRows m) |} |}.

(** The largest [int]; [alloc] computes [rws*cls] in [int]. *)
Definition INT_MAX : Z := 2147483647.

(** The matrix [alloc] leaves: [rows x cols] cells in a new buffer,
    zeroed or with the contents the allocation came with. *)
Definition Matrix_new (rows cols : Z) (setZero : bool) (a : allocation float) : Matrix :=
  {| rws := rows; cls := cols;
     matRows := {| addr := new_addr a;
                   cells := tab (rows * cols)
                                (fun k => if setZero then 0%float else new_cells a k) |} |}.

(** Column [k] of [m], as an array of [rws m] cells. *)
Definition Matrix_column (m : Matrix) (k : Z) : list float :=
  tab (rws m) (fun i => Matrix_elt m i k).

(** [m] has the shape and buffer address of [M0] and its entries are
    given by [f]. *)
Definition Matrix_is (m M0 : Matrix) (f : Z -> Z -> float) : Prop :=
  rws m = rws M0 /\ cls m = cls M0 /\ addr (matRows m) = addr (matRows M0) /\
  Matrix_wf m /\
  forall r c, 0 <= r < rws M0 -> 0 <= c < cls M0 -> Matrix_elt m r c = f r c.

(** [l] has [n] cells, given by [f]. *)
Definition Array_is {A} `{Inhabited A} (l : list A) (n : Z) (f : Z -> A) : Prop :=
  length l = Z.to_nat n /\ forall i, 0 <= i < n -> cell l i = f i.

(* ===================================================================== *)
(** ** The parts of [solveLDLT], by name *)
(* ===================================================================== *)

(** The following definitions name fragments of the two loop nests
    above, for any type of right-hand side; [solveLDLT_Vector_loops_eq]
    and [solveLDLT_Matrix_loops_eq] below check that both overloads are
    these fragments put together. *)

(** The body of the row loop (lines 446-474 and 542-567), its inner
    loop over [j] bounded by [upb]. *)
Definition factor_row_upto {R} (i upb : Z) : comp (solver R) unit :=
  let* dd := mat_get i 0 in
  let* lwb_i := lwb_get i in
  let* dd :=
    for_up_acc lwb_i i (fun j dd =>
      let* m := mat_get j (i - j) in
      let* d := mat_get j 0 in
      r_put j (d * m)%float;;
      let* r_j := r_get j in
      ret (dd - r_j * m)%float) dd in
  mat_put i 0 dd;;
  for_up (i + 1) upb (fun j =>
    let* lwb_i := lwb_get i in
    let* lwb_j := lwb_get j in
    let st := Z.max lwb_i lwb_j in
    for_up st i (fun k =>
      let* m := mat_get i (j - i) in
      let* a := mat_get k (j - k) in
      let* r_k := r_get k in
      mat_put i (j - i) (m - a * r_k)%float);;
    let* m := mat_get i (j - i) in
    mat_put i (j - i) (m / dd)%float;;
    let* m := mat_get i (j - i) in
    if (abs m <? negligible)%float then
      let* lwb_j := lwb_get j in
      if lwb_j =? i then lwb_put j (lwb_j + 1) else ret tt
    else ret tt).

Definition factor_row {R} (rws cls i : Z) : comp (solver R) unit :=
  factor_row_upto i (Z.min (i + cls) rws).

(** Lines 440-441 and 538-539. *)
Definition init_lwbIdx_then {R A} (rws cls : Z) (k : comp (solver R) A) : comp (solver R) A :=
  for_up 0 cls (fun i => lwb_put i 0);;
  for_up cls rws (fun i => lwb_put i (i - cls + 1));;
  k.

(** The factorization pass (lines 440-475 and 538-568), followed by [k]. *)
Definition factorize_then {R A} (rws cls : Z) (k : comp (solver R) A) : comp (solver R) A :=
  init_lwbIdx_then rws cls (for_up 0 rws (factor_row rws cls);; k).

(** Lines 477-487: forward substitution, scaling, back substitution. *)
Definition substitute_Vector (rws cls : Z) : comp (solver Vector) unit :=
  for_up 0 rws (fun i =>
    let* lwb_i := lwb_get i in
    for_up lwb_i i (fun j =>
      let* m := mat_get j (i - j) in
      let* x_j := rhs_get j in
      let* x_i := rhs_get i in
      rhs_put i (x_i - m * x_j)%float));;
  for_up 0 rws (fun i =>
    let* d := mat_get i 0 in
    let* x_i := rhs_get i in
    rhs_put i (x_i / d)%float);;
  for_down (rws - 1) 0 (fun i =>
    let upb := Z.min (i + cls) rws in
    for_up (i + 1) upb (fun j =>
      let* m := mat_get i (j - i) in
      let* x_j := rhs_get j in
      let* x_i := rhs_get i in
      rhs_put i (x_i - m * x_j)%float)).

(** Lines 572-593. *)
Definition substitute_Matrix (rws cls rhsColSz : Z) : comp (solver Matrix) unit :=
  for_up 0 rws (fun i =>
    let* lwb_i := lwb_get i in
    for_up lwb_i i (fun j =>
      let* m := mat_get j (i - j) in
      for_up 0 rhsColSz (fun k =>
        let* x_j := rhs_get2 j k in
        let* x_i := rhs_get2 i k in
        rhs_put2 i k (x_i - m * x_j)%float)));;
  for_up 0 rws (fun i =>
    let* d := mat_get i 0 in
    for_up 0 rhsColSz (fun j =>
      let* x_i := rhs_get2 i j in
      rhs_put2 i j (x_i / d)%float));;
  for_down (rws - 1) 0 (fun i =>
    let upb := Z.min (i + cls) rws in
    for_up (i + 1) upb (fun j =>
      let* m := mat_get i (j - i) in
      for_up 0 rhsColSz (fun k =>
        let* x_j := rhs_get2 j k in
        let* x_i := rhs_get2 i k in
        rhs_put2 i k (x_i - m * x_j)%float))).

(** The state in which the loops of [solveLDLT] start. *)
Definition solver_init {R} (this : Matrix) (rhs : R) (la : allocation Z)
    (ra : allocation float) : solver R :=
  {| s_this := this; s_rhs := rhs;
     s_lwbIdx := if rws this >? MaxAllocSz then new_array la (rws this)
                 else malloca la (rws this);
     s_r := if rws this >? MaxAllocSz then new_array ra (rws this)
            else malloca ra (rws this) |}.

(* ===================================================================== *)
(** ** The factorization as the specification words it *)
(* ===================================================================== *)

(** [lwb] is initialized to [0] for [i < cols] and to [i - cols + 1] for
    [i >= cols]. *)
Definition lwb_init (rows cols : Z) : list Z :=
  tab rows (fun i => if i <? cols then 0 else i - cols + 1).

(** [a - sum_{j=lo}^{hi-1} t j] in double arithmetic: the terms are
    subtracted from [a] one after the other, by increasing [j]. *)
Definition minus_sum (a : float) (t : Z -> float) (lo hi : Z) : float :=
  fold_left (fun acc j => (acc - t j)%float) (seqZ lo (hi - lo)) a.

Section RowSpec.
(** The storage [M] and the bounds [lwb] when row [i] is reached: rows
    above [i] hold [D] in physical column 0 and [L] in the others. *)
Variables (M : Matrix) (lwb : list Z) (i : Z).

(** [r_j = L[j][i-j] * D[j]] *)
Definition spec_r (j : Z) : float :=
  (Matrix_elt M j (i - j) * Matrix_elt M j 0)%float.

(** [d_i = A[i][i] - sum_{j=lwb[i]}^{i-1} L[j][i-j] * r_j] *)
Definition spec_d : float :=
  minus_sum (Matrix_elt M i 0)
            (fun j => (Matrix_elt M j (i - j) * spec_r j)%float)
            (cell lwb i) i.

(** [m = (A[i][j] - sum_{k=max(lwb[i],lwb[j])}^{i-1} L[k][j-k] * r_k) / d_i] *)
Definition spec_m (j : Z) : float :=
  (minus_sum (Matrix_elt M i (j - i))
             (fun k => (Matrix_elt M k (j - k) * spec_r k)%float)
             (Z.max (cell lwb i) (cell lwb j)) i
   / spec_d)%float.

(** [lwb[j]] advances to [i+1] exactly when [|m| < 1e-12] and
    [lwb[j] = i]. *)
Definition spec_lwb (j : Z) : Z :=
  if (abs (spec_m j) <? negligible)%float && (cell lwb j =? i)
  then i + 1 else cell lwb j.

(** Storage and bounds once row [i] has been processed for the columns
    [j] in [(i, upb)]: [d_i] at physical column 0 of row [i], the
    multiplier for [j] at physical column [j-i]. *)
Definition spec_row_upto (upb : Z) : Matrix * list Z :=
  (Matrix_tab (rws M) (cls M) (addr (matRows M))
     (fun r c =>
        if r =? i then
          if c =? 0 then spec_d
          else if i + c <? upb then spec_m (i + c)
          else Matrix_elt M r c
        else Matrix_elt M r c),
   tab (rws M) (fun j => if (i <? j) && (j <? upb) then spec_lwb j else cell lwb j)).
End RowSpec.

(** Row [i] processed for every [j] in [(i, min(i+cols, rows))]. *)
Definition spec_row (st : Matrix * list Z) (i : Z) : Matrix * list Z :=
  spec_row_upto (fst st) (snd st) i (Z.min (i + cls (fst st)) (rws (fst st))).

(** The rows [0 .. n-1] processed in order. *)
Definition spec_rows (A : Matrix) (n : Z) : Matrix * list Z :=
  fold_left spec_row (seqZ 0 n) (A, lwb_init (rws A) (cls A)).

Definition spec_factor (A : Matrix) : Matrix * list Z := spec_rows A (rws A).

(** The invariant of [lwbIdx]: [max(0, j-cols+1) <= lwb[j] <= j]. *)
Definition lwb_ok (rows cols : Z) (lwb : list Z) : Prop :=
  length lwb = Z.to_nat rows /\
  forall j, 0 <= j < rows -> Z.max 0 (j - cols + 1) <= cell lwb j <= j.

(* ===================================================================== *)
(** ** The substitution loops on one column *)
(* ===================================================================== *)

(** What lines 477-487 do to the right-hand side [x], read as a function
    of [x], of the factors [M] and of the bounds [lwb]:
    [x[i] -= M[j][i-j] * x[j]] for [j] in [[lwb[i], i)] and [i] upwards,
    [x[i] /= M[i][0]], and [x[i] -= M[i][j-i] * x[j]] for [j] in
    [(i, min(i+cols, rows))] and [i] downwards. *)
Definition forward_step (M : Matrix) (i : Z) (x : list float) (j : Z) : list float :=
  <[Z.to_nat i := (cell x i - Matrix_elt M j (i - j) * cell x j)%float]> x.

Definition forward_row (M : Matrix) (lwb : list Z) (x : list float) (i : Z) : list float :=
  fold_left (forward_step M i) (seqZ (cell lwb i) (i - cell lwb i)) x.

Definition forward (M : Matrix) (lwb : list Z) (x : list float) : list float :=
  fold_left (forward_row M lwb) (seqZ 0 (rws M)) x.

Definition scale_step (M : Matrix) (x : list float) (i : Z) : list float :=
  <[Z.to_nat i := (cell x i / Matrix_elt M i 0)%float]> x.

Definition scale (M : Matrix) (x : list float) : list float :=
  fold_left (scale_step M) (seqZ 0 (rws M)) x.

Definition backward_step (M : Matrix) (i : Z) (x : list float) (j : Z) : list float :=
  <[Z.to_nat i := (cell x i - Matrix_elt M i (j - i) * cell x j)%float]> x.

Definition backward_row (M : Matrix) (x : list float) (i : Z) : list float :=
  fold_left (backward_step M i)
            (seqZ (i + 1) (Z.min (i + cls M) (rws M) - (i + 1))) x.

Definition backward (M : Matrix) (x : list float) : list float :=
  fold_left (backward_row M) (reverse (seqZ 0 (rws M))) x.

Definition substitute (M : Matrix) (lwb : list Z) (x : list float) : list float :=
  backward M (scale M (forward M lwb x)).

(** In the matrix overload: the state [s'] differs from [s] in [rhs]
    only, [rhs] has the shape and buffer of [R0], and its column [k]
    holds [X k]. *)
Definition columns_are (s : solver Matrix) (R0 : Matrix) (X : Z -> list float)
    (s' : solver Matrix) : Prop :=
  s_this s' = s_this s /\ s_lwbIdx s' = s_lwbIdx s /\ s_r s' = s_r s /\
  Matrix_is (s_rhs s') R0 (fun i k => cell (X k) i).

(* ===================================================================== *)
(** ** Concrete vectors and matrices *)
(* ===================================================================== *)

(** A vector of four entries in a buffer of four cells, and what one
    allocation may return. *)
Definition vec4 : Vector :=
  {| va := Some {| addr := 16; cells := [1; 2; 3; 4]%float |}; sz := 4; cap := 4 |}.
Definition alloc7 : allocation float :=
  {| new_addr := 64; new_cells := fun _ => 7%float |}.

(** A 2 x 3 matrix and two matrices of other shapes. *)
Definition mat23 : Matrix :=
  {| rws := 2; cls := 3;
     matRows := {| addr := 32; cells := [1; 2; 3; 4; 5; 6]%float |} |}.
Definition mat11 : Matrix :=
  {| rws := 1; cls := 1; matRows := {| addr := 48; cells := [9]%float |} |}.

(** The tridiagonal system of bandwidth 2 with diagonal 4 and
    off-diagonal 1, a right-hand side for it (as a vector and as a
    matrix of two columns) and what the scratch allocation may return. *)
Definition tri3 : Matrix :=
  {| rws := 3; cls := 2;
     matRows := {| addr := 80; cells := [4; 1; 4; 1; 4; 0]%float |} |}.
Definition rhs3 : Vector :=
  {| va := Some {| addr := 96; cells := [1; 2; 3]%float |}; sz := 3; cap := 3 |}.
Definition rhs32 : Matrix :=
  {| rws := 3; cls := 2;
     matRows := {| addr := 112; cells := [1; 4; 2; 5; 3; 6]%float |} |}.
Definition alloc_int : allocation Z := {| new_addr := 128; new_cells := fun _ => 77 |}.

(** A diagonal system: bandwidth 1. *)
Definition diag3 : Matrix :=
  {| rws := 3; cls := 1; matRows := {| addr := 144; cells := [4; 2; 8]%float |} |}.

(** A matrix with fewer rows than columns. *)
Definition wide12 : Matrix :=
  {| rws := 1; cls := 2; matRows := {| addr := 160; cells := [4; 1]%float |} |}.

(* ===================================================================== *)
(** ** Sums of products *)
(* ===================================================================== *)

(** [prod = 0.0; for (i...) prod += x[i] * y[i]] over the first [n]
    cells, the products added in the order of [i]. *)
Definition dot_cells (x y : list float) (n : Z) : float :=
  fold_left (fun acc i => (acc + cell x i * cell y i)%float) (seqZ 0 n) 0%float.

(** [s = 0.0; for (k...) s += A[i][k] * B[k][j]] *)
Definition row_times_column (A B : Matrix) (i j : Z) : float :=
  fold_left (fun s k => (s + Matrix_elt A i k * Matrix_elt B k j)%float)
            (seqZ 0 (cls A)) 0%float.

(** Two more vectors and matrices. *)
Definition vec4b : Vector :=
  {| va := Some {| addr := 176; cells := [10; 20; 30; 40]%float |}; sz := 4; cap := 4 |}.
Definition vec35 : Vector :=
  {| va := Some {| addr := 192; cells := [1; 2; 3; 8; 9]%float |}; sz := 3; cap := 5 |}.
Definition mat32 : Matrix :=
  {| rws := 3; cls := 2;
     matRows := {| addr := 208; cells := [1; 0; 2; 1; 0; 3]%float |} |}.
Definition alloc8 : allocation float :=
  {| new_addr := 224; new_cells := fun _ => 8%float |}.
Definition alloc9 : allocation float :=
  {| new_addr := 240; new_cells := fun _ => 9%float |}.

(* ===================================================================== *)
(** * Proofs *)
(* ===================================================================== *)

(** ** Reasoning about computations *)

Section WpRules.
Context {St : Type}.

Lemma wp_run {A} (c : comp St A) Q s :
  wp c Q s <-> exists a s', c s = (Ok a, s') /\ Q a s'.
Proof.
  unfold wp. destruct (c s) as [[a|e|] s']; split; try (intros []; fail).
  - eauto.
  - intros (a' & s'' & Heq & HQ). congruence.
  - intros (? & ? & Heq & _). discriminate.
  - intros (? & ? & Heq & _). discriminate.
Qed.

Lemma wp_mono {A} (c : comp St A) (Q Q' : A -> St -> Prop) s :
  wp c Q s -> (forall a s', Q a s' -> Q' a s') -> wp c Q' s.
Proof. unfold wp. destruct (c s) as [[a|e|] s']; auto. Qed.

Lemma wp_ret {A} (a : A) Q (s : St) : wp (ret a) Q s <-> Q a s.
Proof. reflexivity. Qed.

Lemma wp_bind {A B} (c : comp St A) (k : A -> comp St B) Q s :
  wp (bind c k) Q s <-> wp c (fun a s' => wp (k a) Q s') s.
Proof. unfold wp, bind. destruct (c s) as [[a|e|] s']; reflexivity. Qed.

Lemma wp_get_state Q (s : St) : wp get_state Q s <-> Q s s.
Proof. reflexivity. Qed.

Lemma wp_modify (f : St -> St) Q s : wp (modify f) Q s <-> Q tt (f s).
Proof. reflexivity. Qed.

Lemma wp_throw {A} e (Q : A -> St -> Prop) s : wp (throw e) Q s <-> False.
Proof. reflexivity. Qed.

Lemma wp_fault {A} (Q : A -> St -> Prop) s : wp fault Q s <-> False.
Proof. reflexivity. Qed.

Lemma wp_zoom {T A} (get : St -> T) set (c : comp T A) Q s :
  wp (zoom get set c) Q s <-> wp c (fun a t' => Q a (set t' s)) (get s).
Proof. unfold wp, zoom. destruct (c (get s)) as [[a|e|] t']; reflexivity. Qed.

Lemma wp_local {T A} (t : T) (c : comp T A) Q (s : St) :
  wp (local t c) Q s <-> wp c (fun _ t' => Q t' s) t.
Proof. unfold wp, local. destruct (c t) as [[a|e|] t']; reflexivity. Qed.

Lemma wp_peek {T A} (t : T) (c : comp T A) Q (s : St) :
  wp (peek t c) Q s <-> wp c (fun a _ => Q a s) t.
Proof. unfold wp, peek. destruct (c t) as [[a|e|] t']; reflexivity. Qed.

Lemma wp_declare {T} (o : outcome T) Q (s : St) :
  wp (declare o) Q s <-> exists t, o = Ok t /\ Q t s.
Proof.
  unfold wp, declare. destruct o; split; try (intros []; fail); eauto.
  - intros (t & Heq & HQ). congruence.
  - intros (t & Heq & _). discriminate.
  - intros (t & Heq & _). discriminate.
Qed.

Lemma wp_arr_read {A} `{Inhabited A} (l : list A) i Q (s : St) :
  0 <= i < Z.of_nat (length l) -> Q (cell l i) s -> wp (arr_read l i) Q s.
Proof.
  intros Hi HQ. unfold arr_read, in_array.
  rewrite (proj2 (Z.leb_le _ _)), (proj2 (Z.ltb_lt _ _)) by lia. exact HQ.
Qed.

(** Loop rule: [I done a s] holds when the indices [done] have been
    processed. *)
Lemma wp_for_each {A} (I : list Z -> A -> St -> Prop) l (body : Z -> A -> comp St A)
    a s (Q : A -> St -> Prop) :
  I [] a s ->
  (forall done i rest a s,
      l = done ++ i :: rest -> I done a s ->
      wp (body i a) (fun a' s' => I (done ++ [i]) a' s') s) ->
  (forall a s, I l a s -> Q a s) ->
  wp (for_each l body a) Q s.
Proof.
  revert I a s. induction l as [|i l IH]; intros I a s H0 Hstep Hend; simpl.
  - apply wp_ret. auto.
  - apply wp_bind.
    eapply wp_mono; [apply (Hstep [] i l a s eq_refl H0)|].
    intros a' s' HI. simpl in HI.
    apply (IH (fun done => I (i :: done))); auto.
    intros done j rest a0 s0 -> HI0.
    apply (Hstep (i :: done) j rest a0 s0); auto.
Qed.

Lemma wp_for_up_acc {A} (I : Z -> A -> St -> Prop) lo hi
    (body : Z -> A -> comp St A) a s (Q : A -> St -> Prop) :
  lo <= hi ->
  I lo a s ->
  (forall i a s, lo <= i < hi -> I i a s ->
                 wp (body i a) (fun a' s' => I (i + 1) a' s') s) ->
  (forall a s, I hi a s -> Q a s) ->
  wp (for_up_acc lo hi body a) Q s.
Proof.
  intros Hle H0 Hstep Hend. unfold for_up_acc.
  apply (wp_for_each (fun done a s => I (lo + Z.of_nat (length done)) a s)).
  - simpl. replace (lo + Z.of_nat 0) with lo by lia. exact H0.
  - intros done i rest a0 s0 Heq HI.
    assert (Hi : seqZ lo (hi - lo) !! length done = Some i).
    { rewrite Heq. rewrite lookup_app_r by lia.
      replace (length done - length done)%nat with 0%nat by lia. reflexivity. }
    apply lookup_seqZ in Hi as [-> Hlt].
    eapply wp_mono; [apply Hstep; [lia | exact HI]|].
    intros a' s' HI'. rewrite length_app. simpl.
    replace (lo + Z.of_nat (length done + 1)) with (lo + Z.of_nat (length done) + 1) by lia.
    exact HI'.
  - intros a0 s0 HI. apply Hend. rewrite length_seqZ in HI.
    replace (lo + Z.of_nat (Z.to_nat (hi - lo))) with hi in HI by lia. exact HI.
Qed.

Lemma wp_for_up (I : Z -> St -> Prop) lo hi (body : Z -> comp St unit) s
    (Q : unit -> St -> Prop) :
  lo <= hi ->
  I lo s ->
  (forall i s, lo <= i < hi -> I i s -> wp (body i) (fun _ s' => I (i + 1) s') s) ->
  (forall s, I hi s -> Q tt s) ->
  wp (for_up lo hi body) Q s.
Proof.
  intros Hle H0 Hstep Hend.
  apply (wp_for_up_acc (fun i _ s => I i s) lo hi); auto.
  intros [] s0. auto.
Qed.

Lemma wp_for_up_empty lo hi (body : Z -> comp St unit) s (Q : unit -> St -> Prop) :
  hi <= lo -> Q tt s -> wp (for_up lo hi body) Q s.
Proof. intros Hle HQ. unfold for_up. rewrite seqZ_nil by lia. exact HQ. Qed.

(** The downward loop: [I i s] holds when [i] is the next index. *)
Lemma wp_for_down (I : Z -> St -> Prop) hi lo (body : Z -> comp St unit) s
    (Q : unit -> St -> Prop) :
  lo <= hi + 1 ->
  I hi s ->
  (forall i s, lo <= i <= hi -> I i s -> wp (body i) (fun _ s' => I (i - 1) s') s) ->
  (forall s, I (lo - 1) s -> Q tt s) ->
  wp (for_down hi lo body) Q s.
Proof.
  intros Hle H0 Hstep Hend. unfold for_down.
  apply (wp_for_each (fun done _ s => I (hi - Z.of_nat (length done)) s)).
  - simpl. replace (hi - Z.of_nat 0) with hi by lia. exact H0.
  - intros done i rest [] s0 Heq HI.
    assert (Hi : reverse (seqZ lo (hi - lo + 1)) !! length done = Some i).
    { rewrite Heq. rewrite lookup_app_r by lia.
      replace (length done - length done)%nat with 0%nat by lia. reflexivity. }
    pose proof (lookup_lt_Some _ _ _ Hi) as Hlen.
    rewrite length_reverse in Hlen.
    rewrite reverse_lookup in Hi by exact Hlen.
    rewrite length_seqZ in Hi, Hlen.
    apply lookup_seqZ in Hi as [-> Hlt].
    eapply wp_mono; [apply Hstep; [lia|]|].
    + replace (lo + Z.of_nat (Z.to_nat (hi - lo + 1) - S (length done)))
        with (hi - Z.of_nat (length done)) by lia. exact HI.
    + intros u s' HI'. simpl in HI'. rewrite length_app. simpl.
      replace (hi - Z.of_nat (length done + 1))
        with (lo + Z.of_nat (Z.to_nat (hi - lo + 1) - S (length done)) - 1) by lia.
      exact HI'.
  - intros [] s0 HI. apply Hend. rewrite length_reverse, length_seqZ in HI.
    replace (hi - Z.of_nat (Z.to_nat (hi - lo + 1))) with (lo - 1) in HI by lia. exact HI.
Qed.
End WpRules.

(* ===================================================================== *)
(** ** Facts about arrays *)
(* ===================================================================== *)

Section Arrays.
Context {A : Type} `{Inhabited A}.

Lemma length_tab (n : Z) (f : Z -> A) : length (tab n f) = Z.to_nat n.
Proof. unfold tab. rewrite length_fmap. apply length_seqZ. Qed.

Lemma cell_tab (n : Z) (f : Z -> A) i : 0 <= i < n -> cell (tab n f) i = f i.
Proof.
  intros Hi. unfold cell, tab. apply list_lookup_total_correct.
  rewrite list_lookup_fmap, lookup_seqZ_lt by lia. simpl. do 2 f_equal. lia.
Qed.

Lemma cell_lookup (l : list A) i :
  0 <= i < Z.of_nat (length l) -> l !! Z.to_nat i = Some (cell l i).
Proof. intros Hi. unfold cell. apply list_lookup_lookup_total_lt. lia. Qed.

(** Two arrays of [n] cells with the same cells are the same array. *)
Lemma cells_ext (l1 l2 : list A) :
  length l1 = length l2 ->
  (forall i, 0 <= i < Z.of_nat (length l1) -> cell l1 i = cell l2 i) ->
  l1 = l2.
Proof.
  intros Hlen Hc. apply list_eq. intros k.
  destruct (decide (k < length l1)%nat) as [Hk|Hk].
  - rewrite <- (Nat2Z.id k).
    rewrite !cell_lookup by lia. f_equal. apply Hc. lia.
  - rewrite !lookup_ge_None_2 by lia. reflexivity.
Qed.

Lemma tab_ext (l : list A) n f :
  length l = Z.to_nat n ->
  (forall i, 0 <= i < n -> cell l i = f i) ->
  l = tab n f.
Proof.
  intros Hlen Hc. apply cells_ext.
  - rewrite length_tab. exact Hlen.
  - intros i Hi. rewrite cell_tab by lia. apply Hc. lia.
Qed.

Lemma cell_insert_eq (l : list A) i x :
  0 <= i < Z.of_nat (length l) -> cell (<[Z.to_nat i := x]> l) i = x.
Proof. intros Hi. unfold cell. apply list_lookup_total_insert_eq. lia. Qed.

Lemma cell_insert_ne (l : list A) i j x :
  0 <= i -> 0 <= j -> i <> j -> cell (<[Z.to_nat i := x]> l) j = cell l j.
Proof. intros Hi Hj Hne. unfold cell. apply list_lookup_total_insert_ne. lia. Qed.

Lemma arr_write_run (l : list A) i x :
  0 <= i < Z.of_nat (length l) -> arr_write i x l = (Ok tt, <[Z.to_nat i := x]> l).
Proof.
  intros Hi. unfold arr_write, in_array.
  rewrite (proj2 (Z.leb_le _ _)), (proj2 (Z.ltb_lt _ _)) by lia. reflexivity.
Qed.

Lemma wp_arr_write (l : list A) i x Q :
  0 <= i < Z.of_nat (length l) -> Q tt (<[Z.to_nat i := x]> l) -> wp (arr_write i x) Q l.
Proof. intros Hi HQ. unfold wp. rewrite arr_write_run by exact Hi. exact HQ. Qed.
End Arrays.

Lemma length_zero_fill off n l :
  0 <= off -> 0 <= n -> off + n <= Z.of_nat (length l) ->
  length (zero_fill off n l) = length l.
Proof.
  intros. unfold zero_fill.
  rewrite !length_app, length_take, length_replicate, length_drop. lia.
Qed.

Lemma cell_zero_fill_in off n l i :
  0 <= off -> off + n <= Z.of_nat (length l) -> off <= i < off + n ->
  cell (zero_fill off n l) i = 0%float.
Proof.
  intros Hoff Hn Hi. unfold cell, zero_fill. apply list_lookup_total_correct.
  rewrite lookup_app_r by (rewrite length_take; lia).
  rewrite length_take. rewrite lookup_app_l by (rewrite length_replicate; lia).
  apply lookup_replicate_2. lia.
Qed.

Lemma cell_zero_fill_out off n l i :
  0 <= off -> 0 <= n -> off + n <= Z.of_nat (length l) ->
  0 <= i -> i < off \/ off + n <= i ->
  cell (zero_fill off n l) i = cell l i.
Proof.
  intros Hoff Hn Hlen Hi Hout. unfold cell, zero_fill.
  rewrite !list_lookup_total_alt. f_equal.
  destruct Hout as [Hlt|Hge].
  - rewrite lookup_app_l by (rewrite length_take; lia).
    apply lookup_take_lt. lia.
  - rewrite lookup_app_r by (rewrite length_take; lia).
    rewrite length_take.
    rewrite lookup_app_r by (rewrite length_replicate; lia).
    rewrite length_replicate, lookup_drop. f_equal. lia.
Qed.

Lemma length_copy_prefix src n dst :
  0 <= n -> n <= Z.of_nat (length src) -> n <= Z.of_nat (length dst) ->
  length (copy_prefix src n dst) = length dst.
Proof.
  intros. unfold copy_prefix. rewrite length_app, length_take, length_drop. lia.
Qed.

Lemma cell_copy_prefix_lt src n dst i :
  n <= Z.of_nat (length src) -> 0 <= i < n ->
  cell (copy_prefix src n dst) i = cell src i.
Proof.
  intros Hn Hi. unfold cell, copy_prefix. rewrite !list_lookup_total_alt. f_equal.
  rewrite lookup_app_l by (rewrite length_take; lia).
  apply lookup_take_lt. lia.
Qed.

Lemma cell_copy_prefix_ge src n dst i :
  0 <= n -> n <= Z.of_nat (length src) -> n <= i ->
  cell (copy_prefix src n dst) i = cell dst i.
Proof.
  intros Hn0 Hn Hi. unfold cell, copy_prefix. rewrite !list_lookup_total_alt. f_equal.
  rewrite lookup_app_r by (rewrite length_take; lia).
  rewrite length_take, lookup_drop. f_equal. lia.
Qed.

Lemma memset0_run off n l :
  0 <= off -> 0 <= n -> off + n <= Z.of_nat (length l) ->
  memset0 off n l = (Ok tt, zero_fill off n l).
Proof.
  intros. unfold memset0.
  rewrite !(proj2 (Z.leb_le _ _)) by lia. reflexivity.
Qed.

Lemma memmove_run src n dst :
  0 <= n -> n <= Z.of_nat (length src) -> n <= Z.of_nat (length dst) ->
  memmove src n dst = (Ok tt, copy_prefix src n dst).
Proof.
  intros. unfold memmove.
  rewrite !(proj2 (Z.leb_le _ _)) by lia. reflexivity.
Qed.

(* ===================================================================== *)
(** ** Vector::setSize *)
(* ===================================================================== *)

Ltac split_all := repeat match goal with |- _ /\ _ => split end.

Lemma Zltb_false a b : b <= a -> (a <? b) = false.
Proof. intros. apply Z.ltb_ge. lia. Qed.

Lemma Zgeb_true a b : b <= a -> (a >=? b) = true.
Proof. intros. rewrite Z.geb_leb. apply Z.leb_le. lia. Qed.

Lemma Zgtb_true a b : b < a -> (a >? b) = true.
Proof. intros. rewrite Z.gtb_ltb. apply Z.ltb_lt. lia. Qed.

Lemma Zgtb_false a b : a <= b -> (a >? b) = false.
Proof. intros. rewrite Z.gtb_ltb. apply Z.ltb_ge. lia. Qed.

Lemma Vector_setSize_negative v newSz preserve zeroInit a :
  newSz < 0 ->
  Vector_setSize newSz preserve zeroInit a v = (Throw IllegalArgumentException, v).
Proof.
  intros Hneg. unfold Vector_setSize, bind, get_state.
  rewrite (proj2 (Z.ltb_lt _ _)) by lia. reflexivity.
Qed.

(** Inside the window [[cap/2, cap]] the buffer stays and only [sz]
    changes. *)
Lemma Vector_setSize_window b s c newSz preserve zeroInit a :
  0 <= s <= c -> Z.of_nat (length (cells b)) = c ->
  c ÷ 2 <= newSz <= c ->
  Vector_setSize newSz preserve zeroInit a {| va := Some b; sz := s; cap := c |} =
  (Ok tt,
   {| va := Some {| addr := addr b;
                    cells := if zeroInit && (newSz >? s)
                             then zero_fill s (newSz - s) (cells b) else cells b |};
      sz := newSz; cap := c |}).
Proof.
  intros Hsz Hlen Hwin.
  assert (0 <= c ÷ 2) by (apply Z.quot_pos; lia).
  unfold Vector_setSize, bind, get_state. simpl.
  rewrite Zltb_false, Zgeb_true, (proj2 (Z.leb_le newSz c)) by lia. simpl.
  destruct (zeroInit && (newSz >? s)) eqn:Hz.
  - apply andb_true_iff in Hz as [_ Hgt]. rewrite Z.gtb_ltb in Hgt.
    apply Z.ltb_lt in Hgt.
    unfold on_va. simpl. rewrite memset0_run by lia. reflexivity.
  - simpl. destruct b; reflexivity.
Qed.

Lemma Vector_setSize_realloc b s c newSz preserve zeroInit a :
  0 <= s <= c -> Z.of_nat (length (cells b)) = c ->
  0 <= newSz -> ~ (c ÷ 2 <= newSz <= c) ->
  Vector_setSize newSz preserve zeroInit a {| va := Some b; sz := s; cap := c |} =
  (Ok tt,
   {| va := Some {| addr := new_addr a;
                    cells := setSize_new_cells (cells b) s newSz preserve zeroInit a |};
      sz := newSz; cap := newSz |}).
Proof.
  intros Hsz Hlen Hnew Hout.
  unfold Vector_setSize, bind, get_state. simpl.
  rewrite Zltb_false by lia.
  replace ((newSz >=? c ÷ 2) && (newSz <=? c)) with false.
  2:{ symmetry. apply andb_false_iff. rewrite Z.geb_leb, !Z.leb_gt. lia. }
  unfold new_double, setSize_new_cells. rewrite Zltb_false by lia.
  pose proof (length_tab newSz (new_cells a)) as Hfresh.
  destruct preserve; simpl.
  - unfold local. simpl. destruct (newSz <=? s) eqn:Hle.
    + apply Z.leb_le in Hle. rewrite memmove_run by lia. reflexivity.
    + apply Z.leb_gt in Hle. unfold bind. rewrite memmove_run by lia.
      destruct zeroInit; simpl; [|reflexivity].
      rewrite memset0_run; [reflexivity|lia|lia|].
      rewrite length_copy_prefix by lia. lia.
  - destruct zeroInit; simpl; [|reflexivity].
    unfold on_va. simpl. rewrite memset0_run by lia. reflexivity.
Qed.

(** C5.  After [setSize(newSz, true, true)] with [newSz >= 0] on a vector
    of size [s]: the size is [newSz]; when [newSz <= s] the entries
    [[0, newSz)] are unchanged; when [newSz > s] the entries [[0, s)] are
    unchanged and the entries [[s, newSz)] are zero. *)
Theorem Vector_setSize_preserve_zero (v : Vector) (newSz : Z) (a : allocation float) :
  Vector_wf v -> 0 <= newSz ->
  exists v',
    Vector_setSize newSz true true a v = (Ok tt, v') /\
    sz v' = newSz /\
    (newSz <= sz v -> forall i, 0 <= i < newSz -> Vector_elt v' i = Vector_elt v i) /\
    (newSz > sz v ->
       (forall i, 0 <= i < sz v -> Vector_elt v' i = Vector_elt v i) /\
       (forall i, sz v <= i < newSz -> Vector_elt v' i = 0%float)).
Proof.
  destruct v as [[b|] s c]; unfold Vector_wf; simpl; [|tauto].
  intros [Hsz Hlen] Hnew.
  assert (0 <= c ÷ 2) by (apply Z.quot_pos; lia).
  pose proof (length_tab newSz (new_cells a)) as Hfresh.
  destruct (decide (c ÷ 2 <= newSz <= c)) as [Hwin|Hout].
  - rewrite Vector_setSize_window by assumption. eexists. split; [reflexivity|].
    unfold Vector_elt, Vector_cells. simpl. split; [reflexivity|]. split.
    + intros Hle i Hi. rewrite Zgtb_false by lia. reflexivity.
    + intros Hgt. rewrite Zgtb_true by lia. split; intros i Hi.
      * apply cell_zero_fill_out; lia.
      * apply cell_zero_fill_in; lia.
  - rewrite Vector_setSize_realloc by assumption. eexists. split; [reflexivity|].
    unfold Vector_elt, Vector_cells, setSize_new_cells. simpl. split; [reflexivity|]. split.
    + intros Hle i Hi. rewrite (proj2 (Z.leb_le _ _)) by lia.
      apply cell_copy_prefix_lt; lia.
    + intros Hgt. rewrite (proj2 (Z.leb_gt _ _)) by lia. split; intros i Hi.
      * rewrite cell_zero_fill_out;
          [apply cell_copy_prefix_lt; lia|lia|lia| |lia|lia].
        rewrite length_copy_prefix; lia.
      * apply cell_zero_fill_in; [lia| |lia].
        rewrite length_copy_prefix; lia.
Qed.

Lemma Vector_setSize_preserve_zero_witness :
  exists v',
    Vector_setSize 6 true true alloc7 vec4 = (Ok tt, v') /\
    sz v' = 6 /\
    (6 <= sz vec4 -> forall i, 0 <= i < 6 -> Vector_elt v' i = Vector_elt vec4 i) /\
    (6 > sz vec4 ->
       (forall i, 0 <= i < sz vec4 -> Vector_elt v' i = Vector_elt vec4 i) /\
       (forall i, sz vec4 <= i < 6 -> Vector_elt v' i = 0%float)).
Proof.
  apply (Vector_setSize_preserve_zero vec4 6 alloc7).
  - unfold Vector_wf. simpl. lia.
  - lia.
Defined.

(** C6, as the code has it.  Inside the window [[cap/2, cap]] nothing
    is reallocated: capacity, buffer address and buffer length stay,
    the size becomes [newSz], the entries [[sz, newSz)] are zeroed when
    [zeroInit] is set and every other cell is unchanged.  Outside the
    window a non-negative [newSz] becomes the capacity, in a newly
    allocated buffer; a negative [newSz] raises invalid-argument and
    leaves the vector as it was. *)
Theorem Vector_setSize_hysteresis (v : Vector) (newSz : Z) (preserve zeroInit : bool)
    (a : allocation float) :
  Vector_wf v ->
  (cap v ÷ 2 <= newSz <= cap v ->
   exists v',
     Vector_setSize newSz preserve zeroInit a v = (Ok tt, v') /\
     cap v' = cap v /\ Vector_addr v' = Vector_addr v /\
     length (Vector_cells v') = length (Vector_cells v) /\
     sz v' = newSz /\
     (zeroInit = true -> forall i, sz v <= i < newSz -> Vector_elt v' i = 0%float) /\
     (forall i, 0 <= i < cap v -> ~ (zeroInit = true /\ sz v <= i < newSz) ->
                Vector_elt v' i = Vector_elt v i)) /\
  (0 <= newSz -> ~ (cap v ÷ 2 <= newSz <= cap v) ->
   exists v',
     Vector_setSize newSz preserve zeroInit a v = (Ok tt, v') /\
     cap v' = newSz /\ sz v' = newSz /\ Vector_addr v' = Some (new_addr a) /\
     Z.of_nat (length (Vector_cells v')) = newSz) /\
  (newSz < 0 ->
   Vector_setSize newSz preserve zeroInit a v = (Throw IllegalArgumentException, v)).
Proof.
  destruct v as [[b|] s c]; unfold Vector_wf; simpl; [|tauto].
  intros [Hsz Hlen].
  assert (0 <= c ÷ 2) by (apply Z.quot_pos; lia).
  split; [|split].
  - intros Hwin. rewrite Vector_setSize_window by assumption.
    eexists. split; [reflexivity|].
    unfold Vector_elt, Vector_cells, Vector_addr. simpl.
    split; [reflexivity|]. split; [reflexivity|]. split; [|split; [reflexivity|split]].
    + destruct (zeroInit && (newSz >? s)) eqn:Hz; [|reflexivity].
      apply andb_true_iff in Hz as [_ Hgt]. rewrite Z.gtb_ltb in Hgt.
      apply Z.ltb_lt in Hgt. apply length_zero_fill; lia.
    + intros -> i Hi. simpl. rewrite Zgtb_true by lia.
      apply cell_zero_fill_in; lia.
    + intros i Hi Hnz.
      destruct (zeroInit && (newSz >? s)) eqn:Hz; [|reflexivity].
      apply andb_true_iff in Hz as [-> Hgt]. rewrite Z.gtb_ltb in Hgt.
      apply Z.ltb_lt in Hgt. apply cell_zero_fill_out; lia.
  - intros Hnew Hout. rewrite Vector_setSize_realloc by assumption.
    eexists. split; [reflexivity|]. unfold Vector_addr, Vector_cells. simpl.
    split; [reflexivity|]. split; [reflexivity|]. split; [reflexivity|].
    pose proof (length_tab newSz (new_cells a)) as Hfresh.
    unfold setSize_new_cells.
    destruct preserve; [destruct (newSz <=? s) eqn:Hle|].
    + apply Z.leb_le in Hle. rewrite length_copy_prefix; lia.
    + apply Z.leb_gt in Hle.
      destruct zeroInit; [rewrite length_zero_fill|];
        rewrite ?length_copy_prefix; lia.
    + destruct zeroInit; [rewrite length_zero_fill|]; lia.
  - apply Vector_setSize_negative.
Qed.

Lemma Vector_setSize_hysteresis_witness :
  exists v',
    Vector_setSize 3 false true alloc7 vec4 = (Ok tt, v') /\
    cap v' = 4 /\ sz v' = 3 /\ Vector_addr v' = Some 16.
Proof.
  destruct (Vector_setSize_hysteresis vec4 3 false true alloc7) as [Hwin _].
  - unfold Vector_wf. simpl. lia.
  - destruct Hwin as (v' & Hrun & Hcap & Haddr & _ & Hsz & _).
    + simpl. change (4 ÷ 2) with 2. lia.
    + exists v'. auto.
Defined.

(** C6 as stated fails for a negative [newSz]: [-1] lies outside the
    window [[2, 4]] of [vec4], yet [setSize(-1)] throws and the capacity
    stays 4. *)
Lemma Vector_setSize_negative_keeps_capacity :
  Vector_wf vec4 /\
  ~ (cap vec4 ÷ 2 <= -1 <= cap vec4) /\
  Vector_setSize (-1) false true alloc7 vec4 = (Throw IllegalArgumentException, vec4) /\
  cap (snd (Vector_setSize (-1) false true alloc7 vec4)) <> -1.
Proof.
  split; [unfold Vector_wf; simpl; lia|].
  split; [simpl; change (4 ÷ 2) with 2; lia|].
  split; [reflexivity|].
  simpl. lia.
Qed.

(* ===================================================================== *)
(** ** The invariant [0 <= sz <= cap] *)
(* ===================================================================== *)

Section Keeps.
Context {St : Type} (P : St -> Prop).

Lemma keeps_ret {A} (a : A) : keeps P (ret a).
Proof. intros s Hs. exact Hs. Qed.

Lemma keeps_throw {A} e : keeps P (@throw St A e).
Proof. intros s Hs. exact Hs. Qed.

Lemma keeps_fault {A} : keeps P (@fault St A).
Proof. intros s Hs. exact Hs. Qed.

Lemma keeps_bind {A B} (c : comp St A) (k : A -> comp St B) :
  keeps P c -> (forall a, keeps P (k a)) -> keeps P (bind c k).
Proof.
  intros Hc Hk s Hs. unfold bind. specialize (Hc s Hs).
  destruct (c s) as [[a|e|] s']; simpl in *; auto. apply Hk. exact Hc.
Qed.

Lemma keeps_get_state {B} (k : St -> comp St B) :
  (forall s, keeps P (k s)) -> keeps P (bind get_state k).
Proof. intros Hk. apply keeps_bind; [intros s Hs; exact Hs | exact Hk]. Qed.

Lemma keeps_for_each {A} l (body : Z -> A -> comp St A) a :
  (forall i a, keeps P (body i a)) -> keeps P (for_each l body a).
Proof.
  intros Hb. revert a. induction l as [|i l IH]; intros a; simpl.
  - apply keeps_ret.
  - apply keeps_bind; auto.
Qed.

Lemma keeps_for_up lo hi (body : Z -> comp St unit) :
  (forall i, keeps P (body i)) -> keeps P (for_up lo hi body).
Proof. intros Hb. apply keeps_for_each. intros i _. apply Hb. Qed.

Lemma keeps_for_up_acc {A} lo hi (body : Z -> A -> comp St A) a :
  (forall i a, keeps P (body i a)) -> keeps P (for_up_acc lo hi body a).
Proof. apply keeps_for_each. Qed.

Lemma keeps_peek {T A} (t : T) (c : comp T A) : keeps P (@peek St T A t c).
Proof. intros s Hs. exact Hs. Qed.

Lemma keeps_local {T A} (t : T) (c : comp T A) : keeps P (@local St T A t c).
Proof. intros s Hs. unfold local. destruct (c t) as [[a|e|] t']; exact Hs. Qed.

Lemma keeps_declare {T} (o : outcome T) : keeps P (@declare St T o).
Proof. intros s Hs. exact Hs. Qed.
End Keeps.

Lemma keeps_modify {St} (P : St -> Prop) (f : St -> St) :
  (forall s, P s -> P (f s)) -> keeps P (modify f).
Proof. intros Hf s Hs. apply Hf. exact Hs. Qed.

(** A computation that keeps [P], followed by one that establishes [Q]
    from [P]. *)
Lemma keeps_then {St A B} (P Q : St -> Prop) (c : comp St A) (k : A -> comp St B) s :
  keeps P c -> (forall s, P s -> Q s) -> (forall a s, P s -> Q (snd (k a s))) ->
  P s -> Q (snd (bind c k s)).
Proof.
  intros Hc HPQ Hk Hs. unfold bind. specialize (Hc s Hs).
  destruct (c s) as [[a|e|] s']; simpl in *; auto.
Qed.

(** [on_va] changes [va] only. *)
Lemma keeps_on_va_frame {A} (P : Vector -> Prop) (c : comp (list float) A) :
  (forall u b, P u -> P (set_va b u)) -> keeps P (on_va c).
Proof.
  intros HP v Hv. unfold on_va. destruct (va v) as [b|]; [|exact Hv].
  destruct (c (cells b)) as [o l]. simpl. apply HP. exact Hv.
Qed.

Lemma keeps_on_va {A} (c : comp (list float) A) : keeps Vector_inv (on_va c).
Proof. apply keeps_on_va_frame. intros u b Hu. exact Hu. Qed.

Ltac keeps_step :=
  lazymatch goal with
  | |- keeps _ (bind get_state _) => apply keeps_get_state; intros ?
  | |- keeps _ (bind _ _) => apply keeps_bind; [|intros ?]
  | |- keeps _ (for_up _ _ _) => apply keeps_for_up; intros ?
  | |- keeps _ (for_up_acc _ _ _ _) => apply keeps_for_up_acc; intros ? ?
  | |- keeps _ (on_va _) => apply keeps_on_va
  | |- keeps _ (va_read _) => apply keeps_on_va
  | |- keeps _ (va_write _ _) => apply keeps_on_va
  | |- keeps _ (peek _ _) => apply keeps_peek
  | |- keeps _ (local _ _) => apply keeps_local
  | |- keeps _ (declare _) => apply keeps_declare
  | |- keeps _ (ret _) => apply keeps_ret
  | |- keeps _ (throw _) => apply keeps_throw
  | |- keeps _ fault => apply keeps_fault
  | |- keeps _ (modify (set_va _)) =>
      apply keeps_modify; let Hs := fresh in intros ? Hs; exact Hs
  | |- keeps _ (if ?b then _ else _) => destruct b
  | |- keeps _ (match ?o with Some _ => _ | None => _ end) => destruct o
  end.

Lemma keeps_setSize newSz preserve zeroInit a :
  keeps Vector_inv (Vector_setSize newSz preserve zeroInit a).
Proof.
  intros v Hv. unfold Vector_inv in Hv.
  pose (frame := fun u : Vector => sz u = sz v /\ cap u = cap v).
  assert (Hva : forall u b, frame u -> frame (set_va b u)) by (intros u b Hu; exact Hu).
  unfold Vector_setSize. unfold bind at 1, get_state.
  destruct (newSz <? 0) eqn:Hneg; [exact Hv|]. apply Z.ltb_ge in Hneg.
  destruct ((newSz >=? cap v ÷ 2) && (newSz <=? cap v)) eqn:Hwin.
  - apply andb_true_iff in Hwin as [_ Hle%Z.leb_le].
    apply (keeps_then frame Vector_inv).
    + destruct (zeroInit && (newSz >? sz v));
        [apply keeps_on_va_frame; exact Hva | apply keeps_ret].
    + intros s [Hs Hc]. unfold Vector_inv. lia.
    + intros _ s [Hs Hc]. unfold Vector_inv. simpl. lia.
    + split; reflexivity.
  - apply (keeps_then frame Vector_inv).
    + unfold new_double. rewrite Zltb_false by lia.
      destruct preserve, (va v) as [old|];
        repeat first
          [ apply keeps_bind; [|intros ?]
          | apply keeps_ret | apply keeps_local
          | apply keeps_on_va_frame; exact Hva
          | apply keeps_modify; intros ? ?; apply Hva; assumption
          | match goal with |- keeps _ (if ?b then _ else _) => destruct b end ].
    + intros s [Hs Hc]. unfold Vector_inv. lia.
    + intros _ s [Hs Hc]. unfold Vector_inv. simpl. lia.
    + split; reflexivity.
Qed.

Lemma Vector_Vector_inv n zeroInit a r :
  Vector_Vector n zeroInit a = Ok r -> Vector_inv r.
Proof.
  unfold Vector_Vector, construct.
  destruct (n <? 0) eqn:Hneg; [discriminate|]. apply Z.ltb_ge in Hneg.
  set (init := {| va := None; sz := n; cap := n |}).
  set (body := bind _ _).
  assert (Hk : keeps Vector_inv body).
  { subst body. unfold new_double. repeat keeps_step. }
  specialize (Hk init). destruct (body init) as [[[]|e|] s]; try discriminate.
  intros [= <-]. apply Hk. unfold Vector_inv, init. simpl. lia.
Qed.

Lemma Vector_copy_inv cp a r :
  Vector_inv cp -> Vector_copy cp a = Ok r -> Vector_inv r.
Proof.
  intros Hcp. unfold Vector_copy, construct.
  set (init := {| va := None; sz := sz cp; cap := sz cp |}).
  set (body := bind _ _).
  assert (Hk : keeps Vector_inv body).
  { subst body. unfold new_double. repeat keeps_step. }
  specialize (Hk init). destruct (body init) as [[[]|e|] s]; try discriminate.
  intros [= <-]. apply Hk. unfold Vector_inv in *. simpl. lia.
Qed.

(** The vector a binary operator returns: the local [result], built by
    [Vector(sz, false)] and filled by a loop of cell writes. *)
Lemma result_inv (this : Vector) a (loop : comp Vector unit) (s : Vector) r :
  keeps Vector_inv loop ->
  fst (bind (declare (Vector_Vector (sz this) false a))
            (fun result => local result loop) s) = Ok r ->
  Vector_inv r.
Proof.
  intros Hk. unfold bind, declare, local.
  destruct (Vector_Vector (sz this) false a) as [res|e|] eqn:Hres;
    simpl; try discriminate.
  apply Vector_Vector_inv in Hres. specialize (Hk res Hres).
  destruct (loop res) as [[[]|e|] t]; simpl in *; try discriminate.
  intros [= <-]. exact Hk.
Qed.

Lemma keeps_assign src a : keeps Vector_inv (Vector_assign src a).
Proof.
  unfold Vector_assign. apply keeps_bind; [apply keeps_setSize|intros _].
  repeat keeps_step.
Qed.

(** C8.  Each public operation of [Vector] leaves the receiver with
    [0 <= sz <= cap] whatever its outcome (normal return, exception or
    fault), and every vector it returns satisfies the invariant too. *)
Theorem Vector_operations_keep_invariant (v w : Vector) :
  Vector_inv v -> Vector_inv w ->
  (forall n z a r, Vector_Vector n z a = Ok r -> Vector_inv r) /\
  (forall a r, Vector_copy w a = Ok r -> Vector_inv r) /\
  (forall a, Vector_inv (snd (Vector_assign w a v))) /\
  (forall n p z a, Vector_inv (snd (Vector_setSize n p z a v))) /\
  Vector_inv (snd (Vector_clear v)) /\
  (forall i, Vector_inv (snd (Vector_index i v))) /\
  (forall i x, Vector_inv (snd (Vector_index_store i x v))) /\
  (forall a, Vector_inv (snd (Vector_add w a v)) /\
             forall r, fst (Vector_add w a v) = Ok r -> Vector_inv r) /\
  Vector_inv (snd (Vector_add_assign w v)) /\
  (forall a, Vector_inv (snd (Vector_sub w a v)) /\
             forall r, fst (Vector_sub w a v) = Ok r -> Vector_inv r) /\
  Vector_inv (snd (Vector_sub_assign w v)) /\
  Vector_inv (snd (Vector_dot w v)) /\
  (forall f a, Vector_inv (snd (Vector_scale f a v)) /\
               forall r, fst (Vector_scale f a v) = Ok r -> Vector_inv r) /\
  (forall f, Vector_inv (snd (Vector_scale_assign f v))) /\
  Vector_inv (snd (Vector_len v)) /\
  (forall dims, Vector_inv (snd (Vector_len_dims dims v))).
Proof.
  intros Hv Hw.
  assert (Hbin : forall (op : float -> float -> float) a,
    let c := (let* this := get_state in
              if negb (sz this =? sz w) then throw IllegalArgumentException
              else
                let* result := declare (Vector_Vector (sz this) false a) in
                local result
                  (for_up 0 (sz this) (fun i =>
                     let* x := peek this (va_read i) in
                     let* y := peek w (va_read i) in
                     va_write i (op x y)))) in
    Vector_inv (snd (c v)) /\ forall r, fst (c v) = Ok r -> Vector_inv r).
  { intros op a c. split.
    - cut (keeps Vector_inv c); [intros Hk; apply Hk; exact Hv|]. subst c. repeat keeps_step.
    - subst c. unfold bind at 1, get_state.
      destruct (negb (sz v =? sz w)); [discriminate|].
      intros r. apply result_inv. repeat keeps_step. }
  repeat match goal with |- _ /\ _ => split end.
  - apply Vector_Vector_inv.
  - intros a r. apply Vector_copy_inv. exact Hw.
  - intros a. apply keeps_assign. exact Hv.
  - intros n p z a. apply keeps_setSize. exact Hv.
  - cut (keeps Vector_inv Vector_clear); [intros Hk; apply Hk; exact Hv|].
    unfold Vector_clear. repeat keeps_step.
  - intros i. cut (keeps Vector_inv (Vector_index i)); [intros Hk; apply Hk; exact Hv|].
    unfold Vector_index. repeat keeps_step.
  - intros i x.
    cut (keeps Vector_inv (Vector_index_store i x)); [intros Hk; apply Hk; exact Hv|].
    unfold Vector_index_store. repeat keeps_step.
  - intros a. apply (Hbin PrimFloat.add a).
  - cut (keeps Vector_inv (Vector_add_assign w)); [intros Hk; apply Hk; exact Hv|].
    unfold Vector_add_assign. repeat keeps_step.
  - intros a. apply (Hbin PrimFloat.sub a).
  - cut (keeps Vector_inv (Vector_sub_assign w)); [intros Hk; apply Hk; exact Hv|].
    unfold Vector_sub_assign. repeat keeps_step.
  - cut (keeps Vector_inv (Vector_dot w)); [intros Hk; apply Hk; exact Hv|].
    unfold Vector_dot. repeat keeps_step.
  - intros f a. split.
    + cut (keeps Vector_inv (Vector_scale f a)); [intros Hk; apply Hk; exact Hv|].
      unfold Vector_scale. repeat keeps_step.
    + unfold Vector_scale. unfold bind at 1, get_state.
      intros r. apply result_inv. repeat keeps_step.
  - intros f.
    cut (keeps Vector_inv (Vector_scale_assign f)); [intros Hk; apply Hk; exact Hv|].
    unfold Vector_scale_assign. repeat keeps_step.
  - cut (keeps Vector_inv Vector_len); [intros Hk; apply Hk; exact Hv|].
    unfold Vector_len. repeat keeps_step.
  - intros dims.
    cut (keeps Vector_inv (Vector_len_dims dims)); [intros Hk; apply Hk; exact Hv|].
    unfold Vector_len_dims. repeat keeps_step.
Qed.

Lemma Vector_operations_keep_invariant_witness :
  Vector_inv (snd (Vector_setSize (-1) true true alloc7 vec4)) /\
  Vector_inv (snd (Vector_setSize 9 true true alloc7 vec4)).
Proof.
  assert (Hv : Vector_inv vec4) by (unfold Vector_inv; simpl; lia).
  destruct (Vector_operations_keep_invariant vec4 vec4 Hv Hv)
    as (_ & _ & _ & Hset & _).
  split; apply Hset.
Defined.

(* ===================================================================== *)
(** ** Vector::len(int) *)
(* ===================================================================== *)

Lemma va_read_run v b i :
  va v = Some b -> 0 <= i < Z.of_nat (length (cells b)) ->
  va_read i v = (Ok (cell (cells b) i), v).
Proof.
  intros Hva Hi. unfold va_read, on_va. rewrite Hva.
  unfold bind, get_state, arr_read, in_array.
  rewrite (proj2 (Z.leb_le _ _)), (proj2 (Z.ltb_lt _ _)) by lia. simpl.
  destruct v as [va0 s c], b as [ad l]. simpl in *. subst va0. reflexivity.
Qed.

Lemma wp_va_read v i Q :
  Vector_wf v -> 0 <= i < cap v -> Q (Vector_elt v i) v -> wp (va_read i) Q v.
Proof.
  unfold Vector_wf, Vector_elt, Vector_cells. intros Hwf Hi HQ.
  destruct (va v) as [b|] eqn:Hva; [|tauto].
  unfold wp. rewrite (va_read_run v b) by (auto; lia). exact HQ.
Qed.

(** C9.  [len(dims)] raises invalid-argument exactly when [dims > sz];
    for [dims <= sz] it returns normally, and for [dims <= 0] the result
    is [0]. *)
Theorem Vector_len_dims_raises (v : Vector) (dims : Z) :
  Vector_wf v ->
  (fst (Vector_len_dims dims v) = Throw IllegalArgumentException <-> dims > sz v) /\
  (dims <= sz v -> exists x, Vector_len_dims dims v = (Ok x, v)) /\
  (dims <= 0 -> Vector_len_dims dims v = (Ok 0%float, v)).
Proof.
  intros Hwf.
  assert (Hsz : 0 <= sz v <= cap v).
  { unfold Vector_wf in Hwf. destruct (va v); tauto. }
  assert (Hok : dims <= sz v -> exists x, Vector_len_dims dims v = (Ok x, v)).
  { intros Hle.
    cut (wp (Vector_len_dims dims) (fun _ s' => s' = v) v).
    { intros Hwp. apply wp_run in Hwp as (x & s' & Hrun & ->). eauto. }
    unfold Vector_len_dims. apply wp_bind, wp_get_state.
    rewrite Zgtb_false by lia. apply wp_bind.
    destruct (decide (0 <= dims)) as [Hpos|Hneg].
    - apply (wp_for_up_acc (fun _ _ s => s = v)); [lia|reflexivity| |].
      + intros i acc s Hi ->. apply wp_bind. apply wp_va_read; [exact Hwf|lia|].
        apply wp_ret. reflexivity.
      + intros acc s ->. apply wp_ret. reflexivity.
    - unfold for_up_acc. rewrite seqZ_nil by lia. simpl.
      apply wp_ret. apply wp_ret. reflexivity. }
  split; [split|split].
  - intros Hthrow. destruct (decide (dims > sz v)) as [|Hle]; [assumption|].
    destruct Hok as [x Hx]; [lia|]. rewrite Hx in Hthrow. discriminate.
  - intros Hgt. unfold Vector_len_dims, bind, get_state.
    rewrite Zgtb_true by lia. reflexivity.
  - exact Hok.
  - intros Hle. unfold Vector_len_dims, bind, get_state.
    rewrite Zgtb_false by lia. unfold for_up_acc. rewrite seqZ_nil by lia.
    reflexivity.
Qed.

Lemma Vector_len_dims_raises_witness :
  Vector_len_dims (-3) vec4 = (Ok 0%float, vec4) /\
  fst (Vector_len_dims 5 vec4) = Throw IllegalArgumentException.
Proof.
  assert (Hwf : Vector_wf vec4) by (unfold Vector_wf; simpl; lia).
  destruct (Vector_len_dims_raises vec4 (-3) Hwf) as (_ & _ & Hzero).
  destruct (Vector_len_dims_raises vec4 5 Hwf) as (Hthrow & _ & _).
  split.
  - apply Hzero. lia.
  - apply Hthrow. simpl. lia.
Defined.

(* ===================================================================== *)
(** ** Matrix cells *)
(* ===================================================================== *)

Lemma flat_index_range rows cols r c :
  0 <= r < rows -> 0 <= c < cols -> 0 <= r * cols + c < rows * cols.
Proof. intros. nia. Qed.

Lemma flat_index_inj cols r c r' c' :
  0 <= c < cols -> 0 <= c' < cols -> r * cols + c = r' * cols + c' ->
  r = r' /\ c = c'.
Proof.
  intros Hc Hc' Heq.
  assert (r = r'); [|subst; lia].
  destruct (Z.lt_trichotomy r r') as [Hlt|[Heq'|Hgt]]; [|assumption|].
  - assert ((r + 1) * cols <= r' * cols) by (apply Z.mul_le_mono_nonneg_r; lia). lia.
  - assert ((r' + 1) * cols <= r * cols) by (apply Z.mul_le_mono_nonneg_r; lia). lia.
Qed.

Lemma in_band_true m r c :
  0 <= r < rws m -> 0 <= c < cls m -> in_band m r c = true.
Proof.
  intros. unfold in_band.
  rewrite !(proj2 (Z.leb_le _ _)), !(proj2 (Z.ltb_lt _ _)) by lia. reflexivity.
Qed.

Lemma Matrix_read_run m r c :
  Matrix_wf m -> 0 <= r < rws m -> 0 <= c < cls m ->
  Matrix_read r c m = (Ok (Matrix_elt m r c), m).
Proof.
  intros (Hr & Hc & Hlen) Hrr Hcc. unfold Matrix_read, bind, get_state.
  rewrite in_band_true by assumption.
  pose proof (flat_index_range _ _ _ _ Hrr Hcc).
  unfold arr_read, in_array.
  rewrite (proj2 (Z.leb_le _ _)), (proj2 (Z.ltb_lt _ _)) by lia. reflexivity.
Qed.

Lemma Matrix_write_run m r c x :
  Matrix_wf m -> 0 <= r < rws m -> 0 <= c < cls m ->
  Matrix_write r c x m = (Ok tt, Matrix_upd m r c x).
Proof.
  intros (Hr & Hc & Hlen) Hrr Hcc. unfold Matrix_write, bind, get_state.
  rewrite in_band_true by assumption.
  pose proof (flat_index_range _ _ _ _ Hrr Hcc).
  unfold on_matRows, zoom. rewrite arr_write_run by lia. reflexivity.
Qed.

Lemma wp_Matrix_read m r c Q :
  Matrix_wf m -> 0 <= r < rws m -> 0 <= c < cls m ->
  Q (Matrix_elt m r c) m -> wp (Matrix_read r c) Q m.
Proof. intros. unfold wp. rewrite Matrix_read_run by assumption. assumption. Qed.

Lemma wp_Matrix_write m r c x Q :
  Matrix_wf m -> 0 <= r < rws m -> 0 <= c < cls m ->
  Q tt (Matrix_upd m r c x) -> wp (Matrix_write r c x) Q m.
Proof. intros. unfold wp. rewrite Matrix_write_run by assumption. assumption. Qed.

Lemma Matrix_upd_wf m r c x : Matrix_wf m -> Matrix_wf (Matrix_upd m r c x).
Proof.
  intros (Hr & Hc & Hlen). unfold Matrix_wf, Matrix_upd. simpl.
  rewrite length_insert. auto.
Qed.

Lemma Matrix_upd_elt m r c x r' c' :
  Matrix_wf m -> 0 <= r < rws m -> 0 <= c < cls m ->
  0 <= r' < rws m -> 0 <= c' < cls m ->
  Matrix_elt (Matrix_upd m r c x) r' c' =
  if decide (r' = r /\ c' = c) then x else Matrix_elt m r' c'.
Proof.
  intros (Hr & Hc & Hlen) Hrr Hcc Hrr' Hcc'.
  pose proof (flat_index_range _ _ _ _ Hrr Hcc).
  pose proof (flat_index_range _ _ _ _ Hrr' Hcc').
  unfold Matrix_elt, Matrix_upd. simpl.
  destruct (decide (r' = r /\ c' = c)) as [[-> ->]|Hne].
  - apply cell_insert_eq. lia.
  - apply cell_insert_ne; [lia|lia|].
    intros Heq. apply flat_index_inj in Heq; [|lia|lia]. apply Hne. lia.
Qed.

(** Two well-formed matrices of one shape with the same entries have
    the same cells. *)
Lemma Matrix_cells_ext m1 m2 :
  Matrix_wf m1 -> Matrix_wf m2 -> rws m1 = rws m2 -> cls m1 = cls m2 ->
  (forall r c, 0 <= r < rws m1 -> 0 <= c < cls m1 ->
               Matrix_elt m1 r c = Matrix_elt m2 r c) ->
  cells (matRows m1) = cells (matRows m2).
Proof.
  intros (Hr1 & Hc1 & Hlen1) (Hr2 & Hc2 & Hlen2) Hrws Hcls Helt.
  apply cells_ext; [lia|]. intros k Hk. rewrite Hlen1 in Hk.
  assert (Hpos : 0 < cls m1) by nia.
  specialize (Helt (k / cls m1) (k mod cls m1)).
  unfold Matrix_elt in Helt. rewrite <- Hcls in Helt.
  replace (k / cls m1 * cls m1 + k mod cls m1) with k in Helt
    by (rewrite (Z.div_mod k (cls m1)) at 1; lia).
  apply Helt.
  - split; [apply Z.div_pos; lia|]. apply Z.div_lt_upper_bound; nia.
  - apply Z.mod_pos_bound. lia.
Qed.

(* ===================================================================== *)
(** ** Matrix::transpose *)
(* ===================================================================== *)

Lemma Matrix_alloc_run rows cols a m :
  0 <= rows -> 0 <= cols ->
  Matrix_alloc rows cols false a m =
  (Ok tt, {| rws := rows; cls := cols;
             matRows := {| addr := new_addr a;
                           cells := tab (rows * cols) (new_cells a) |} |}).
Proof.
  intros Hr Hc. unfold Matrix_alloc, bind, modify, new_double.
  rewrite !Zltb_false by nia. reflexivity.
Qed.

(** One call of [transpose]: the output has the transposed shape and
    entries; its buffer is a new one exactly when the shape it had
    differs from [cls x rws]. *)
Lemma Matrix_transpose_spec (this out : Matrix) (a : allocation float) :
  Matrix_wf this -> Matrix_wf out ->
  wp (Matrix_transpose this a)
     (fun _ out' =>
        Matrix_wf out' /\ rws out' = cls this /\ cls out' = rws this /\
        (forall i j, 0 <= i < rws this -> 0 <= j < cls this ->
                     Matrix_elt out' j i = Matrix_elt this i j) /\
        addr (matRows out') =
          if negb (rws out =? cls this) || negb (cls out =? rws this)
          then new_addr a else addr (matRows out))
     out.
Proof.
  intros Hthis Hout. pose proof Hthis as (Hr & Hc & Hlen).
  unfold Matrix_transpose. apply wp_bind, wp_get_state. apply wp_bind.
  set (differs := negb (rws out =? cls this) || negb (cls out =? rws this)).
  set (ad := if differs then new_addr a else addr (matRows out)).
  (* the state the loops start from *)
  cut (forall out1, Matrix_wf out1 -> rws out1 = cls this -> cls out1 = rws this ->
         addr (matRows out1) = ad ->
         wp (for_up 0 (rws this) (fun i =>
               for_up 0 (cls this) (fun j =>
                 let* x := peek this (Matrix_read i j) in Matrix_write j i x)))
            (fun _ out' =>
               Matrix_wf out' /\ rws out' = cls this /\ cls out' = rws this /\
               (forall i j, 0 <= i < rws this -> 0 <= j < cls this ->
                            Matrix_elt out' j i = Matrix_elt this i j) /\
               addr (matRows out') = ad) out1).
  { intros Hloops. destruct differs eqn:Hd.
    - unfold wp at 1. rewrite Matrix_alloc_run by assumption.
      apply Hloops; try reflexivity.
      unfold Matrix_wf. simpl. rewrite length_tab. nia.
    - apply wp_ret. subst differs.
      apply orb_false_iff in Hd as [H1 H2].
      apply negb_false_iff, Z.eqb_eq in H1, H2.
      apply Hloops; auto. }
  intros out1 Hwf1 Hrws1 Hcls1 Had1.
  apply (wp_for_up (fun i s =>
           Matrix_wf s /\ rws s = cls this /\ cls s = rws this /\
           addr (matRows s) = ad /\
           forall i' j, 0 <= i' < i -> 0 <= j < cls this ->
                        Matrix_elt s j i' = Matrix_elt this i' j)); [lia| | |].
  - split_all; auto. intros; lia.
  - intros i s Hi (Hwf & Hrws & Hcls & Had & Hdone).
    apply (wp_for_up (fun j s =>
             Matrix_wf s /\ rws s = cls this /\ cls s = rws this /\
             addr (matRows s) = ad /\
             (forall i' j', 0 <= i' < i -> 0 <= j' < cls this ->
                            Matrix_elt s j' i' = Matrix_elt this i' j') /\
             (forall j', 0 <= j' < j ->
                         Matrix_elt s j' i = Matrix_elt this i j'))); [lia| | |].
    + split_all; auto. intros; lia.
    + intros j s' Hj (Hwf' & Hrws' & Hcls' & Had' & Hrows & Hcols).
      apply wp_bind, wp_peek. apply wp_Matrix_read; [assumption|lia|lia|].
      apply wp_Matrix_write; [assumption|lia|lia|].
      split; [apply Matrix_upd_wf; assumption|].
      split; [assumption|]. split; [assumption|]. split; [assumption|]. split.
      * intros i' j' Hi' Hj'. rewrite Matrix_upd_elt by (auto; lia).
        destruct (decide (j' = j /\ i' = i)); [lia|]. apply Hrows; lia.
      * intros j' Hj'. rewrite Matrix_upd_elt by (auto; lia).
        destruct (decide (j' = j /\ i = i)) as [[-> _]|Hne]; [reflexivity|].
        apply Hcols. lia.
    + intros s' (Hwf' & Hrws' & Hcls' & Had' & Hrows & Hcols).
      split_all; auto.
      intros i' j Hi' Hj. destruct (decide (i' = i)) as [->|Hne].
      * apply Hcols. lia.
      * apply Hrows; lia.
  - intros s (Hwf & Hrws & Hcls & Had & Hdone). split_all; auto.
Qed.

(** C7.  Transposing twice gives back the shape and every entry of [A];
    each call reallocates its output (to [cls x rws]) exactly when the
    output's shape differs. *)
Theorem Matrix_transpose_involutive (A B C : Matrix) (a1 a2 : allocation float) :
  Matrix_wf A -> Matrix_wf B -> Matrix_wf C ->
  exists B' C',
    Matrix_transpose A a1 B = (Ok tt, B') /\
    Matrix_transpose B' a2 C = (Ok tt, C') /\
    rws B' = cls A /\ cls B' = rws A /\
    rws C' = rws A /\ cls C' = cls A /\
    (forall i j, 0 <= i < rws A -> 0 <= j < cls A ->
                 Matrix_elt C' i j = Matrix_elt A i j) /\
    cells (matRows C') = cells (matRows A) /\
    addr (matRows B') =
      (if negb (rws B =? cls A) || negb (cls B =? rws A)
       then new_addr a1 else addr (matRows B)) /\
    addr (matRows C') =
      (if negb (rws C =? rws A) || negb (cls C =? cls A)
       then new_addr a2 else addr (matRows C)).
Proof.
  intros HA HB HC.
  pose proof (Matrix_transpose_spec A B a1 HA HB) as H1.
  apply wp_run in H1 as ([] & B' & Hrun1 & HwfB & HrB & HcB & HeltB & HadB).
  pose proof (Matrix_transpose_spec B' C a2 HwfB HC) as H2.
  apply wp_run in H2 as ([] & C' & Hrun2 & HwfC & HrC & HcC & HeltC & HadC).
  exists B', C'.
  assert (Helt : forall i j, 0 <= i < rws A -> 0 <= j < cls A ->
                             Matrix_elt C' i j = Matrix_elt A i j).
  { intros i j Hi Hj. rewrite HeltC by lia. apply HeltB; lia. }
  split_all; try assumption; try lia.
  - apply Matrix_cells_ext; try assumption; try lia.
    intros r c Hr Hc. apply Helt; lia.
  - rewrite HadC, HrB, HcB. reflexivity.
Qed.

Lemma Matrix_transpose_involutive_witness :
  exists B' C',
    Matrix_transpose mat23 alloc7 mat11 = (Ok tt, B') /\
    Matrix_transpose B' alloc7 mat11 = (Ok tt, C') /\
    rws C' = 2 /\ cls C' = 3 /\
    cells (matRows C') = [1; 2; 3; 4; 5; 6]%float.
Proof.
  destruct (Matrix_transpose_involutive mat23 mat11 mat11 alloc7 alloc7)
    as (B' & C' & H1 & H2 & _ & _ & HrC & HcC & _ & Hcells & _).
  - unfold Matrix_wf. simpl. lia.
  - unfold Matrix_wf. simpl. lia.
  - unfold Matrix_wf. simpl. lia.
  - exists B', C'. auto.
Defined.

(* ===================================================================== *)
(** ** Matrix::solveLDLT: the two overloads, part by part *)
(* ===================================================================== *)

Lemma solveLDLT_Vector_loops_eq rws cls :
  solveLDLT_Vector_loops rws cls = factorize_then rws cls (substitute_Vector rws cls).
Proof. reflexivity. Qed.

Lemma solveLDLT_Matrix_loops_eq rws cls rhsColSz :
  solveLDLT_Matrix_loops rws cls rhsColSz =
  factorize_then rws cls (substitute_Matrix rws cls rhsColSz).
Proof. reflexivity. Qed.

Lemma mul_comm (x y : float) : (x * y)%float = (y * x)%float.
Proof.
  rewrite <- (SF2Prim_Prim2SF (x * y)), <- (SF2Prim_Prim2SF (y * x)).
  rewrite !mul_spec. f_equal.
  destruct (Prim2SF x) as [sx|sx| |sx mx ex], (Prim2SF y) as [sy|sy| |sy my ey];
    simpl; try reflexivity; try (destruct sx, sy; reflexivity).
  unfold SF64mul, SFmul.
  rewrite (Pos.mul_comm mx my), (Z.add_comm ex ey), (xorb_comm sx sy). reflexivity.
Qed.

Lemma wp_for_up_acc_max {St A} (I : Z -> A -> St -> Prop) lo hi
    (body : Z -> A -> comp St A) a s (Q : A -> St -> Prop) :
  I lo a s ->
  (forall i a s, lo <= i < hi -> I i a s ->
                 wp (body i a) (fun a' s' => I (i + 1) a' s') s) ->
  (forall a s, I (Z.max lo hi) a s -> Q a s) ->
  wp (for_up_acc lo hi body a) Q s.
Proof.
  intros H0 Hstep Hend. destruct (decide (lo <= hi)) as [Hle|Hgt].
  - apply (wp_for_up_acc I); auto.
    intros a' s' HI. apply Hend. rewrite Z.max_r by lia. exact HI.
  - unfold for_up_acc. rewrite seqZ_nil by lia. apply wp_ret.
    apply Hend. rewrite Z.max_l by lia. exact H0.
Qed.

Lemma wp_for_up_max {St} (I : Z -> St -> Prop) lo hi (body : Z -> comp St unit) s
    (Q : unit -> St -> Prop) :
  I lo s ->
  (forall i s, lo <= i < hi -> I i s -> wp (body i) (fun _ s' => I (i + 1) s') s) ->
  (forall s, I (Z.max lo hi) s -> Q tt s) ->
  wp (for_up lo hi body) Q s.
Proof.
  intros H0 Hstep Hend.
  apply (wp_for_up_acc_max (fun i _ s => I i s) lo hi); auto.
  intros [] s0. auto.
Qed.

(** *** Sums *)

Lemma minus_sum_nil a t lo hi : hi <= lo -> minus_sum a t lo hi = a.
Proof. intros. unfold minus_sum. rewrite seqZ_nil by lia. reflexivity. Qed.

Lemma minus_sum_snoc a t lo j :
  lo <= j -> minus_sum a t lo (j + 1) = (minus_sum a t lo j - t j)%float.
Proof.
  intros Hle. unfold minus_sum.
  replace (j + 1 - lo) with ((j - lo) + 1) by lia.
  rewrite seqZ_app by lia. rewrite fold_left_app.
  replace (lo + (j - lo)) with j by lia. reflexivity.
Qed.

Lemma minus_sum_max a t lo hi : minus_sum a t lo (Z.max lo hi) = minus_sum a t lo hi.
Proof.
  destruct (decide (lo <= hi)).
  - rewrite Z.max_r by lia. reflexivity.
  - rewrite Z.max_l by lia. rewrite !minus_sum_nil by lia. reflexivity.
Qed.

(** *** Matrices and arrays described by their entries *)

Lemma Matrix_is_refl M : Matrix_wf M -> Matrix_is M M (Matrix_elt M).
Proof. intros Hwf. unfold Matrix_is. auto. Qed.

Lemma Matrix_is_ext m M0 f g :
  Matrix_is m M0 f ->
  (forall r c, 0 <= r < rws M0 -> 0 <= c < cls M0 -> f r c = g r c) ->
  Matrix_is m M0 g.
Proof.
  intros (Hr & Hc & Ha & Hwf & Helt) Hfg. unfold Matrix_is. split_all; auto.
  intros r c Hrr Hcc. rewrite Helt by assumption. auto.
Qed.

Lemma Matrix_is_upd m M0 f r c x :
  Matrix_is m M0 f -> 0 <= r < rws M0 -> 0 <= c < cls M0 ->
  Matrix_is (Matrix_upd m r c x) M0
            (fun r' c' => if decide (r' = r /\ c' = c) then x else f r' c').
Proof.
  intros (Hr & Hc & Ha & Hwf & Helt) Hrr Hcc. unfold Matrix_is.
  split_all; auto.
  - apply Matrix_upd_wf. exact Hwf.
  - intros r' c' Hrr' Hcc'. rewrite Matrix_upd_elt by (auto; lia).
    destruct (decide (r' = r /\ c' = c)); auto.
Qed.

Lemma Matrix_tab_elt rows cols ad f r c :
  0 <= r < rows -> 0 <= c < cols ->
  Matrix_elt (Matrix_tab rows cols ad f) r c = f r c.
Proof.
  intros Hr Hc. unfold Matrix_elt, Matrix_tab. simpl.
  rewrite cell_tab by (apply flat_index_range; assumption).
  f_equal.
  - rewrite Z.div_add_l by lia. rewrite Z.div_small by lia. lia.
  - rewrite Z.add_comm, Z.mod_add by lia. apply Z.mod_small. lia.
Qed.

Lemma Matrix_tab_wf rows cols ad f :
  0 <= rows -> 0 <= cols -> Matrix_wf (Matrix_tab rows cols ad f).
Proof.
  intros Hr Hc. unfold Matrix_wf, Matrix_tab. simpl. rewrite length_tab.
  split_all; auto. nia.
Qed.

Lemma Matrix_is_tab m M0 f :
  Matrix_is m M0 f -> m = Matrix_tab (rws M0) (cls M0) (addr (matRows M0)) f.
Proof.
  intros (Hr & Hc & Ha & Hwf & Helt).
  assert (Hcells : cells (matRows m) =
                   cells (matRows (Matrix_tab (rws M0) (cls M0) (addr (matRows M0)) f))).
  { pose proof Hwf as (H1 & H2 & H3).
    apply Matrix_cells_ext; auto.
    - apply Matrix_tab_wf; lia.
    - intros r c Hrr Hcc. rewrite Matrix_tab_elt by lia. apply Helt; lia. }
  destruct m as [r0 c0 [ad0 l0]]. simpl in *. subst. reflexivity.
Qed.

Lemma Array_is_refl {A} `{Inhabited A} (l : list A) n :
  length l = Z.to_nat n -> Array_is l n (cell l).
Proof. intros Hlen. split; auto. Qed.

Lemma Array_is_ext {A} `{Inhabited A} (l : list A) n f g :
  Array_is l n f -> (forall i, 0 <= i < n -> f i = g i) -> Array_is l n g.
Proof. intros [Hlen Hc] Hfg. split; auto. intros i Hi. rewrite Hc; auto. Qed.

Lemma Array_is_upd {A} `{Inhabited A} (l : list A) n f i x :
  Array_is l n f -> 0 <= i < n ->
  Array_is (<[Z.to_nat i := x]> l) n (fun j => if decide (j = i) then x else f j).
Proof.
  intros [Hlen Hc] Hi. split; [rewrite length_insert; exact Hlen|].
  intros j Hj. destruct (decide (j = i)) as [->|Hne].
  - apply cell_insert_eq. lia.
  - rewrite cell_insert_ne by lia. auto.
Qed.

Lemma Array_is_tab {A} `{Inhabited A} (l : list A) n f : Array_is l n f -> l = tab n f.
Proof. intros [Hlen Hc]. apply tab_ext; auto. Qed.

(** *** The accessors of the solver state *)

Section SolverAccess.
Context {R : Type}.
Implicit Types s : solver R.

Lemma wp_mat_get s M0 f j c Q :
  Matrix_is (s_this s) M0 f -> 0 <= j < rws M0 -> 0 <= c < cls M0 ->
  Q (f j c) s -> wp (mat_get j c) Q s.
Proof.
  intros (Hr & Hc & Ha & Hwf & Helt) Hj Hcc HQ.
  unfold mat_get. apply wp_zoom. unfold wp.
  rewrite Matrix_read_run by (auto; lia). rewrite Helt by assumption.
  destruct s. exact HQ.
Qed.

Lemma wp_mat_put s M0 f j c x Q :
  Matrix_is (s_this s) M0 f -> 0 <= j < rws M0 -> 0 <= c < cls M0 ->
  Q tt (set_this (Matrix_upd (s_this s) j c x) s) -> wp (mat_put j c x) Q s.
Proof.
  intros (Hr & Hc & Ha & Hwf & Helt) Hj Hcc HQ.
  unfold mat_put. apply wp_zoom. unfold wp.
  rewrite Matrix_write_run by (auto; lia). exact HQ.
Qed.

Lemma wp_lwb_get s n f i Q :
  Array_is (s_lwbIdx s) n f -> 0 <= i < n -> Q (f i) s -> wp (lwb_get i) Q s.
Proof.
  intros [Hlen Hc] Hi HQ. unfold lwb_get. apply wp_bind, wp_get_state.
  apply wp_arr_read; [lia|]. rewrite Hc by assumption. exact HQ.
Qed.

Lemma wp_lwb_put s n f i x Q :
  Array_is (s_lwbIdx s) n f -> 0 <= i < n ->
  Q tt (set_lwbIdx (<[Z.to_nat i := x]> (s_lwbIdx s)) s) -> wp (lwb_put i x) Q s.
Proof.
  intros [Hlen Hc] Hi HQ. unfold lwb_put. apply wp_zoom.
  apply wp_arr_write; [lia|]. exact HQ.
Qed.

Lemma wp_r_get s n f i Q :
  Array_is (s_r s) n f -> 0 <= i < n -> Q (f i) s -> wp (r_get i) Q s.
Proof.
  intros [Hlen Hc] Hi HQ. unfold r_get. apply wp_bind, wp_get_state.
  apply wp_arr_read; [lia|]. rewrite Hc by assumption. exact HQ.
Qed.

Lemma wp_r_put s n f i x Q :
  Array_is (s_r s) n f -> 0 <= i < n ->
  Q tt (set_r (<[Z.to_nat i := x]> (s_r s)) s) -> wp (r_put i x) Q s.
Proof.
  intros [Hlen Hc] Hi HQ. unfold r_put. apply wp_zoom.
  apply wp_arr_write; [lia|]. exact HQ.
Qed.
End SolverAccess.

(* ===================================================================== *)
(** ** The factorization pass, row by row *)
(* ===================================================================== *)

(** Decide the integer comparisons of the goal that [lia] settles. *)
Ltac bool_simpl :=
  repeat match goal with
    | |- context [Z.ltb ?a ?b] =>
        first [ rewrite (proj2 (Z.ltb_lt a b)) by lia
              | rewrite (proj2 (Z.ltb_ge a b)) by lia ]
    | |- context [Z.leb ?a ?b] =>
        first [ rewrite (proj2 (Z.leb_le a b)) by lia
              | rewrite (proj2 (Z.leb_gt a b)) by lia ]
    | |- context [Z.eqb ?a ?b] =>
        first [ rewrite (proj2 (Z.eqb_eq a b)) by lia
              | rewrite (proj2 (Z.eqb_neq a b)) by lia ]
    end;
  simpl andb; cbv iota.

Section FactorRow.
Context {R : Type}.

Lemma factor_row_upto_spec (s : solver R) i upb :
  Matrix_wf (s_this s) -> 1 <= cls (s_this s) ->
  0 <= i < rws (s_this s) ->
  i + 1 <= upb <= Z.min (i + cls (s_this s)) (rws (s_this s)) ->
  lwb_ok (rws (s_this s)) (cls (s_this s)) (s_lwbIdx s) ->
  length (s_r s) = Z.to_nat (rws (s_this s)) ->
  wp (factor_row_upto i upb)
     (fun _ s' =>
        s_this s' = fst (spec_row_upto (s_this s) (s_lwbIdx s) i upb) /\
        s_lwbIdx s' = snd (spec_row_upto (s_this s) (s_lwbIdx s) i upb) /\
        s_rhs s' = s_rhs s /\
        length (s_r s') = Z.to_nat (rws (s_this s)))
     s.
Proof.
  destruct s as [M rhs lw r0]. simpl.
  intros Hwf Hcls Hi Hupb [Hlwlen Hlw] Hrlen.
  pose proof (Matrix_is_refl M Hwf) as HM.
  pose proof (Array_is_refl lw _ Hlwlen) as Hlwis.
  pose proof (Hlw i Hi) as Hlo.
  set (lo := cell lw i) in *.
  set (T := fun j => (Matrix_elt M j (i - j) * spec_r M i j)%float).
  unfold factor_row_upto.
  apply wp_bind. eapply wp_mat_get; [exact HM|lia|lia|].
  apply wp_bind. eapply wp_lwb_get; [exact Hlwis|lia|]. fold lo.
  apply wp_bind.
  apply (wp_for_up_acc_max (fun j dd s' =>
           s_this s' = M /\ s_lwbIdx s' = lw /\ s_rhs s' = rhs /\
           Array_is (s_r s') (rws M)
             (fun k => if (lo <=? k) && (k <? j) then spec_r M i k else cell r0 k) /\
           dd = minus_sum (Matrix_elt M i 0) T lo j)).
  - simpl. split_all; try reflexivity.
    + eapply Array_is_ext; [apply Array_is_refl; exact Hrlen|].
      intros k Hk. simpl.
      destruct (lo <=? k) eqn:E1; [|reflexivity]. apply Z.leb_le in E1.
      bool_simpl. reflexivity.
    + rewrite minus_sum_nil by lia. reflexivity.
  - intros j dd s' Hj (H1 & H2 & H3 & H4 & H5).
    apply wp_bind. eapply wp_mat_get; [rewrite H1; exact HM|lia|lia|].
    apply wp_bind. eapply wp_mat_get; [rewrite H1; exact HM|lia|lia|].
    apply wp_bind. eapply wp_r_put; [exact H4|lia|].
    apply wp_bind.
    eapply wp_r_get; [simpl; eapply Array_is_upd; [exact H4|lia]|lia|].
    apply wp_ret. simpl.
    destruct (decide (j = j)) as [_|]; [|lia].
    split_all; auto.
    + eapply Array_is_ext; [eapply Array_is_upd; [exact H4|lia]|].
      intros k Hk. simpl. destruct (decide (k = j)) as [->|Hne].
      * bool_simpl. unfold spec_r. apply mul_comm.
      * destruct (lo <=? k) eqn:E1; [|reflexivity]. apply Z.leb_le in E1.
        simpl. destruct (k <? j) eqn:E2.
        -- apply Z.ltb_lt in E2. bool_simpl. reflexivity.
        -- apply Z.ltb_ge in E2. bool_simpl. reflexivity.
    + rewrite minus_sum_snoc by lia. rewrite H5. unfold T, spec_r.
      f_equal. rewrite (mul_comm (Matrix_elt M j 0)). apply mul_comm.
  - intros d s1 (H1 & H2 & H3 & H4 & H5).
    rewrite minus_sum_max in H5. fold (spec_d M lw i) in H5.
    assert (Hd : d = spec_d M lw i) by exact H5. clear H5.
    assert (Hr1 : Array_is (s_r s1) (rws M)
                    (fun k => if (lo <=? k) && (k <? i) then spec_r M i k else cell r0 k)).
    { eapply Array_is_ext; [exact H4|]. intros k Hk. simpl.
      rewrite Z.max_r by lia. reflexivity. }
    clear H4.
    set (F := fun j r c =>
                if r =? i then
                  if c =? 0 then d
                  else if i + c <? j then spec_m M lw i (i + c)
                       else Matrix_elt M r c
                else Matrix_elt M r c).
    set (G := fun j j' =>
                if (i <? j') && (j' <? j) then spec_lwb M lw i j' else cell lw j').
    apply wp_bind. eapply wp_mat_put; [rewrite H1; exact HM|lia|lia|].
    apply (wp_for_up (fun j s' =>
             Matrix_is (s_this s') M (F j) /\
             Array_is (s_lwbIdx s') (rws M) (G j) /\
             s_rhs s' = rhs /\ s_r s' = s_r s1)); [lia| | |].
    + (* before the first column *)
      simpl. rewrite H1, H2, H3. split_all; auto.
      * eapply Matrix_is_ext; [apply Matrix_is_upd; [exact HM|lia|lia]|].
        intros r c Hr Hc. simpl. unfold F.
        destruct (decide (r = i /\ c = 0)) as [[-> ->]|Hne].
        -- bool_simpl. reflexivity.
        -- destruct (r =? i) eqn:E1; [|reflexivity]. apply Z.eqb_eq in E1.
           bool_simpl. reflexivity.
      * eapply Array_is_ext; [exact Hlwis|]. intros j' Hj'. unfold G.
        destruct (i <? j') eqn:E1; [|reflexivity]. apply Z.ltb_lt in E1.
        bool_simpl. reflexivity.
    + (* column j *)
      intros j s2 Hj (HF & HG & Hrhs & Hr).
      pose proof (Hlw j ltac:(lia)) as Hlwj.
      assert (HGi : G j i = lo) by (unfold G; bool_simpl; reflexivity).
      assert (HGj : G j j = cell lw j) by (unfold G; bool_simpl; reflexivity).
      assert (HFj : forall r c, 0 <= r < rws M -> 0 <= c < cls M ->
                                (r <> i \/ i + c >= j) -> c <> 0 \/ r <> i ->
                                F j r c = Matrix_elt M r c).
      { intros r c Hr' Hc' Hout Hnd. unfold F.
        destruct (r =? i) eqn:E1; [|reflexivity]. apply Z.eqb_eq in E1.
        bool_simpl. reflexivity. }
      apply wp_bind. eapply wp_lwb_get; [exact HG|lia|]. rewrite HGi.
      apply wp_bind. eapply wp_lwb_get; [exact HG|lia|]. rewrite HGj.
      set (st := Z.max lo (cell lw j)).
      set (U := fun k => (Matrix_elt M k (j - k) * spec_r M i k)%float).
      apply wp_bind.
      apply (wp_for_up_max (fun k s' =>
               Matrix_is (s_this s') M
                 (fun r c => if decide (r = i /\ c = j - i)
                             then minus_sum (Matrix_elt M i (j - i)) U st k
                             else F j r c) /\
               s_lwbIdx s' = s_lwbIdx s2 /\ s_rhs s' = rhs /\ s_r s' = s_r s1)).
      * split_all; auto.
        eapply Matrix_is_ext; [exact HF|]. intros r c Hr' Hc'. simpl.
        destruct (decide (r = i /\ c = j - i)) as [[-> ->]|Hne]; [|reflexivity].
        rewrite minus_sum_nil by lia. apply HFj; lia.
      * intros k s3 Hk (HF3 & Hlw3 & Hrhs3 & Hr3).
        apply wp_bind. eapply wp_mat_get; [exact HF3|lia|lia|]. simpl.
        destruct (decide (i = i /\ j - i = j - i)) as [_|]; [|lia].
        apply wp_bind. eapply wp_mat_get; [exact HF3|lia|lia|]. simpl.
        destruct (decide (k = i /\ j - k = j - i)) as [|_]; [lia|].
        rewrite HFj by lia.
        apply wp_bind. eapply wp_r_get; [rewrite Hr3; exact Hr1|lia|]. simpl.
        bool_simpl.
        eapply wp_mat_put; [exact HF3|lia|lia|]. simpl.
        split_all; auto.
        eapply Matrix_is_ext; [apply Matrix_is_upd; [exact HF3|lia|lia]|].
        intros r c Hr' Hc'. simpl.
        destruct (decide (r = i /\ c = j - i)) as [[-> ->]|Hne]; [|reflexivity].
        rewrite minus_sum_snoc by lia. reflexivity.
      * intros s3 (HF3 & Hlw3 & Hrhs3 & Hr3).
        assert (Hm : (minus_sum (Matrix_elt M i (j - i)) U st (Z.max st i) / d)%float
                     = spec_m M lw i j).
        { rewrite minus_sum_max, Hd. reflexivity. }
        apply wp_bind. eapply wp_mat_get; [exact HF3|lia|lia|]. simpl.
        destruct (decide (i = i /\ j - i = j - i)) as [_|]; [|lia].
        rewrite Hm.
        apply wp_bind. eapply wp_mat_put; [exact HF3|lia|lia|].
        assert (HF5 : Matrix_is (Matrix_upd (s_this s3) i (j - i) (spec_m M lw i j)) M
                                (F (j + 1))).
        { eapply Matrix_is_ext; [apply Matrix_is_upd; [exact HF3|lia|lia]|].
          intros r c Hr' Hc'. simpl. unfold F.
          destruct (decide (r = i /\ c = j - i)) as [[-> ->]|Hne].
          - bool_simpl. replace (i + (j - i)) with j by lia. reflexivity.
          - destruct (r =? i) eqn:E1; [|reflexivity]. apply Z.eqb_eq in E1. subst r.
            destruct (c =? 0) eqn:E2; [reflexivity|]. apply Z.eqb_neq in E2.
            assert (i + c <> j) by lia.
            destruct (i + c <? j) eqn:E3.
            + apply Z.ltb_lt in E3. bool_simpl. reflexivity.
            + apply Z.ltb_ge in E3. bool_simpl. reflexivity. }
        assert (HFm : F (j + 1) i (j - i) = spec_m M lw i j).
        { unfold F. bool_simpl. replace (i + (j - i)) with j by lia. reflexivity. }
        assert (HG0 : spec_lwb M lw i j = cell lw j ->
                      Array_is (s_lwbIdx s2) (rws M) (G (j + 1))).
        { intros Heq. eapply Array_is_ext; [exact HG|]. intros j' Hj'. unfold G.
          destruct (decide (j' = j)) as [->|Hne].
          - bool_simpl. symmetry. exact Heq.
          - destruct (i <? j') eqn:E1; [|reflexivity]. apply Z.ltb_lt in E1. simpl.
            destruct (j' <? j) eqn:E2.
            + apply Z.ltb_lt in E2. bool_simpl. reflexivity.
            + apply Z.ltb_ge in E2. bool_simpl. reflexivity. }
        assert (HG1 : Array_is (<[Z.to_nat j := spec_lwb M lw i j]> (s_lwbIdx s2))
                               (rws M) (G (j + 1))).
        { eapply Array_is_ext; [eapply Array_is_upd; [exact HG|lia]|].
          intros j' Hj'. simpl. unfold G.
          destruct (decide (j' = j)) as [->|Hne].
          - bool_simpl. reflexivity.
          - destruct (i <? j') eqn:E1; [|reflexivity]. apply Z.ltb_lt in E1. simpl.
            destruct (j' <? j) eqn:E2.
            + apply Z.ltb_lt in E2. bool_simpl. reflexivity.
            + apply Z.ltb_ge in E2. bool_simpl. reflexivity. }
        apply wp_bind. eapply wp_mat_get; [simpl; exact HF5|lia|lia|].
        rewrite HFm.
        destruct (abs (spec_m M lw i j) <? negligible)%float eqn:Eneg.
        -- apply wp_bind.
           eapply wp_lwb_get; [simpl; rewrite Hlw3; exact HG|lia|]. rewrite HGj.
           destruct (cell lw j =? i) eqn:Eeq.
           ++ eapply wp_lwb_put; [simpl; rewrite Hlw3; exact HG|lia|]. simpl.
              split_all; auto. rewrite Hlw3.
              replace (cell lw j + 1) with (spec_lwb M lw i j); [exact HG1|].
              unfold spec_lwb. rewrite Eneg, Eeq. apply Z.eqb_eq in Eeq. simpl. lia.
           ++ apply wp_ret. simpl. split_all; auto. rewrite Hlw3. apply HG0.
              unfold spec_lwb. rewrite Eneg, Eeq. reflexivity.
        -- apply wp_ret. simpl. split_all; auto. rewrite Hlw3. apply HG0.
           unfold spec_lwb. rewrite Eneg. reflexivity.
    + (* the row is done *)
      intros s2 (HF & HG & Hrhs & Hr). unfold spec_row_upto. simpl. split_all.
      * apply Matrix_is_tab in HF. rewrite HF. unfold F. rewrite Hd. reflexivity.
      * apply Array_is_tab in HG. exact HG.
      * exact Hrhs.
      * rewrite Hr. apply Hr1.
Qed.
End FactorRow.

(** *** The specification states are well formed *)

Lemma spec_row_upto_lwb_ok M lw i upb :
  0 <= rws M -> 0 <= i -> lwb_ok (rws M) (cls M) lw ->
  lwb_ok (rws M) (cls M) (snd (spec_row_upto M lw i upb)).
Proof.
  intros Hr Hi [Hlen Hlw]. unfold lwb_ok, spec_row_upto. simpl.
  split; [apply length_tab|].
  intros j Hj. rewrite cell_tab by lia. specialize (Hlw j Hj).
  destruct ((i <? j) && (j <? upb)) eqn:E; [|exact Hlw].
  apply andb_true_iff in E as [E1%Z.ltb_lt _].
  unfold spec_lwb.
  destruct ((abs (spec_m M lw i j) <? negligible)%float && (cell lw j =? i)) eqn:E2;
    [|exact Hlw].
  apply andb_true_iff in E2 as [_ E3%Z.eqb_eq]. lia.
Qed.

Lemma lwb_init_ok rows cols : 0 <= rows -> 1 <= cols -> lwb_ok rows cols (lwb_init rows cols).
Proof.
  intros Hr Hc. unfold lwb_ok, lwb_init. split; [apply length_tab|].
  intros j Hj. rewrite cell_tab by lia.
  destruct (j <? cols) eqn:E; [apply Z.ltb_lt in E|apply Z.ltb_ge in E]; lia.
Qed.

Lemma cell_lwb_init rows cols j :
  0 <= j < rows -> cell (lwb_init rows cols) j = if j <? cols then 0 else j - cols + 1.
Proof. intros Hj. unfold lwb_init. apply cell_tab. exact Hj. Qed.

Lemma spec_rows_succ A n : 0 <= n -> spec_rows A (n + 1) = spec_row (spec_rows A n) n.
Proof.
  intros Hn. unfold spec_rows. rewrite seqZ_app by lia.
  rewrite fold_left_app. reflexivity.
Qed.

Lemma spec_rows_ok A n :
  Matrix_wf A -> 1 <= cls A -> 0 <= n ->
  Matrix_wf (fst (spec_rows A n)) /\
  rws (fst (spec_rows A n)) = rws A /\ cls (fst (spec_rows A n)) = cls A /\
  addr (matRows (fst (spec_rows A n))) = addr (matRows A) /\
  lwb_ok (rws A) (cls A) (snd (spec_rows A n)).
Proof.
  intros Hwf Hcls Hn. pose proof Hwf as (Hr & Hc & _).
  rewrite <- (Z2Nat.id n Hn). clear Hn.
  induction (Z.to_nat n) as [|k IH].
  - unfold spec_rows. simpl. split_all; auto. apply lwb_init_ok; lia.
  - rewrite Nat2Z.inj_succ. unfold Z.succ. rewrite spec_rows_succ by lia.
    destruct IH as (IH1 & IH2 & IH3 & IH4 & IH5).
    destruct (spec_rows A (Z.of_nat k)) as [M lw]. simpl in *.
    unfold spec_row. simpl. split_all; auto.
    + apply Matrix_tab_wf; lia.
    + rewrite <- IH2, <- IH3. apply spec_row_upto_lwb_ok; try lia.
      rewrite IH2, IH3. exact IH5.
Qed.

(** *** The initialization of [lwbIdx] and the whole pass *)

Section Factorize.
Context {R : Type}.
Implicit Types s : solver R.

Lemma init_lwbIdx_run s rows cols :
  0 <= cols <= rows -> length (s_lwbIdx s) = Z.to_nat rows ->
  init_lwbIdx_then rows cols (ret tt) s = (Ok tt, set_lwbIdx (lwb_init rows cols) s).
Proof.
  intros Hc Hlen.
  cut (wp (init_lwbIdx_then rows cols (ret tt))
          (fun _ s' => s' = set_lwbIdx (lwb_init rows cols) s) s).
  { intros Hwp. apply wp_run in Hwp as ([] & s' & Hrun & ->). exact Hrun. }
  unfold init_lwbIdx_then. apply wp_bind.
  apply (wp_for_up (fun i s' =>
           s_this s' = s_this s /\ s_rhs s' = s_rhs s /\ s_r s' = s_r s /\
           Array_is (s_lwbIdx s') rows
             (fun k => if k <? i then 0 else cell (s_lwbIdx s) k))); [lia| | |].
  - split_all; auto.
    eapply Array_is_ext; [apply Array_is_refl; exact Hlen|].
    intros k Hk. simpl. bool_simpl. reflexivity.
  - intros i s' Hi (H1 & H2 & H3 & H4).
    eapply wp_lwb_put; [exact H4|lia|]. simpl. split_all; auto.
    eapply Array_is_ext; [eapply Array_is_upd; [exact H4|lia]|].
    intros k Hk. simpl. destruct (decide (k = i)) as [->|Hne].
    + bool_simpl. reflexivity.
    + destruct (k <? i) eqn:E; [apply Z.ltb_lt in E|apply Z.ltb_ge in E];
        bool_simpl; reflexivity.
  - intros s1 (H1 & H2 & H3 & H4). apply wp_bind.
    apply (wp_for_up (fun i s' =>
             s_this s' = s_this s /\ s_rhs s' = s_rhs s /\ s_r s' = s_r s /\
             Array_is (s_lwbIdx s') rows
               (fun k => if k <? i then (if k <? cols then 0 else k - cols + 1)
                         else cell (s_lwbIdx s) k))); [lia| | |].
    + split_all; auto. eapply Array_is_ext; [exact H4|].
      intros k Hk. simpl.
      destruct (k <? cols) eqn:E; reflexivity.
    + intros i s' Hi (H1' & H2' & H3' & H4').
      eapply wp_lwb_put; [exact H4'|lia|]. simpl. split_all; auto.
      eapply Array_is_ext; [eapply Array_is_upd; [exact H4'|lia]|].
      intros k Hk. simpl. destruct (decide (k = i)) as [->|Hne].
      * bool_simpl. reflexivity.
      * destruct (k <? i) eqn:E; [apply Z.ltb_lt in E|apply Z.ltb_ge in E];
          bool_simpl; reflexivity.
    + intros s2 (H1' & H2' & H3' & H4'). apply wp_ret.
      assert (Hl : s_lwbIdx s2 = lwb_init rows cols).
      { apply Array_is_tab. eapply Array_is_ext; [exact H4'|].
        intros k Hk. simpl. bool_simpl. reflexivity. }
      destruct s2, s. simpl in *. subst. reflexivity.
Qed.

(** The rows [0 .. n-1] of the pass, from the initialized state. *)
Lemma factor_rows_spec s rows cols n :
  let A := s_this s in
  Matrix_wf A -> rows = rws A -> cols = cls A -> 1 <= cols <= rows ->
  s_lwbIdx s = lwb_init rows cols -> length (s_r s) = Z.to_nat rows ->
  0 <= n <= rows ->
  wp (for_up 0 n (factor_row rows cols))
     (fun _ s' =>
        s_this s' = fst (spec_rows A n) /\ s_lwbIdx s' = snd (spec_rows A n) /\
        s_rhs s' = s_rhs s /\ length (s_r s') = Z.to_nat rows)
     s.
Proof.
  intros A Hwf -> -> Hc Hlw Hr Hn.
  apply (wp_for_up (fun i s' =>
           s_this s' = fst (spec_rows A i) /\ s_lwbIdx s' = snd (spec_rows A i) /\
           s_rhs s' = s_rhs s /\ length (s_r s') = Z.to_nat (rws A))); [lia| | |].
  - unfold spec_rows. simpl. auto.
  - intros i s' Hi (H1 & H2 & H3 & H4).
    destruct (spec_rows_ok A i Hwf ltac:(lia) ltac:(lia)) as (O1 & O2 & O3 & O4 & O5).
    rewrite <- H1, <- H2 in *.
    eapply wp_mono.
    + unfold factor_row. rewrite <- O2, <- O3.
      apply factor_row_upto_spec; try assumption; try lia.
      rewrite O2, O3. exact O5.
    + intros [] s2 (G1 & G2 & G3 & G4). rewrite spec_rows_succ by lia.
      unfold spec_row. rewrite <- H1, <- H2. rewrite O2 in G4.
      split_all; congruence.
  - intros s' HI. exact HI.
Qed.

Lemma factorize_then_bind {A} (k : comp (solver R) A) rows cols s :
  factorize_then rows cols k s =
  bind (factorize_then rows cols (ret tt)) (fun _ => k) s.
Proof.
  unfold factorize_then, init_lwbIdx_then, bind.
  destruct (for_up 0 cols _ s) as [[[]|e|] s1]; try reflexivity.
  destruct (for_up cols rows _ s1) as [[[]|e|] s2]; try reflexivity.
  destruct (for_up 0 rows _ s2) as [[[]|e|] s3]; reflexivity.
Qed.

(** The pass followed by [k] is [k] run from the state the
    specification describes; the scratch array [r] is left with some
    contents [r']. *)
Lemma factorize_then_run {A} (k : comp (solver R) A) s :
  let M := s_this s in
  Matrix_wf M -> 1 <= cls M <= rws M ->
  length (s_lwbIdx s) = Z.to_nat (rws M) -> length (s_r s) = Z.to_nat (rws M) ->
  exists r',
    length r' = Z.to_nat (rws M) /\
    factorize_then (rws M) (cls M) k s =
    k {| s_this := fst (spec_factor M); s_rhs := s_rhs s;
         s_lwbIdx := snd (spec_factor M); s_r := r' |}.
Proof.
  intros M Hwf Hc Hlw Hr.
  pose proof (init_lwbIdx_run s (rws M) (cls M) ltac:(lia) Hlw) as Hinit.
  pose proof (factor_rows_spec (set_lwbIdx (lwb_init (rws M) (cls M)) s)
                (rws M) (cls M) (rws M) Hwf eq_refl eq_refl Hc eq_refl Hr ltac:(lia))
    as Hrows.
  apply wp_run in Hrows as ([] & s' & Hrun & H1 & H2 & H3 & H4).
  exists (s_r s'). split; [exact H4|].
  rewrite factorize_then_bind.
  assert (Hpre : factorize_then (rws M) (cls M) (ret tt) s = (Ok tt, s')).
  { unfold factorize_then.
    unfold init_lwbIdx_then in *. unfold bind in *.
    destruct (for_up 0 (cls M) _ s) as [[[]|e|] s1]; try discriminate.
    destruct (for_up (cls M) (rws M) _ s1) as [[[]|e|] s2]; try discriminate.
    simpl in Hinit. injection Hinit as ->.
    rewrite Hrun. reflexivity. }
  unfold bind. rewrite Hpre. f_equal.
  destruct s'. simpl in *. subst. reflexivity.
Qed.
End Factorize.

(** *** The two overloads, from the state the pass leaves *)

Lemma scratch_length {A} (a : allocation A) rows :
  length (if rows >? MaxAllocSz then new_array a rows else malloca a rows)
  = Z.to_nat rows.
Proof. destruct (rows >? MaxAllocSz); apply length_tab. Qed.

Lemma Matrix_solveLDLT_Vector_run A rhs la ra :
  Matrix_wf A -> 1 <= cls A <= rws A -> sz rhs = rws A ->
  exists r',
    length r' = Z.to_nat (rws A) /\
    Matrix_solveLDLT_Vector la ra (A, rhs) =
    (let '(o, s) :=
       substitute_Vector (rws A) (cls A)
         {| s_this := fst (spec_factor A); s_rhs := rhs;
            s_lwbIdx := snd (spec_factor A); s_r := r' |} in
     (o, (s_this s, s_rhs s))).
Proof.
  intros Hwf Hc Hsz. unfold Matrix_solveLDLT_Vector.
  rewrite Zltb_false by lia. rewrite (proj2 (Z.eqb_eq _ _)) by lia. simpl negb.
  cbv iota. cbv zeta. rewrite solveLDLT_Vector_loops_eq.
  destruct (factorize_then_run (substitute_Vector (rws A) (cls A))
              {| s_this := A; s_rhs := rhs;
                 s_lwbIdx := if rws A >? MaxAllocSz then new_array la (rws A)
                             else malloca la (rws A);
                 s_r := if rws A >? MaxAllocSz then new_array ra (rws A)
                        else malloca ra (rws A) |})
    as (r' & Hlen & Hrun); simpl; try assumption; try apply scratch_length.
  exists r'. split; [exact Hlen|]. simpl in Hrun. rewrite Hrun. reflexivity.
Qed.

Lemma Matrix_solveLDLT_Matrix_run A rhs la ra :
  Matrix_wf A -> 1 <= cls A <= rws A -> rws rhs = rws A ->
  exists r',
    length r' = Z.to_nat (rws A) /\
    Matrix_solveLDLT_Matrix la ra (A, rhs) =
    (let '(o, s) :=
       substitute_Matrix (rws A) (cls A) (cls rhs)
         {| s_this := fst (spec_factor A); s_rhs := rhs;
            s_lwbIdx := snd (spec_factor A); s_r := r' |} in
     (o, (s_this s, s_rhs s))).
Proof.
  intros Hwf Hc Hsz. unfold Matrix_solveLDLT_Matrix.
  rewrite Zltb_false by lia. rewrite (proj2 (Z.eqb_eq _ _)) by lia. simpl negb.
  cbv iota. cbv zeta. rewrite solveLDLT_Matrix_loops_eq.
  destruct (factorize_then_run (substitute_Matrix (rws A) (cls A) (cls rhs))
              {| s_this := A; s_rhs := rhs;
                 s_lwbIdx := if rws A >? MaxAllocSz then new_array la (rws A)
                             else malloca la (rws A);
                 s_r := if rws A >? MaxAllocSz then new_array ra (rws A)
                        else malloca ra (rws A) |})
    as (r' & Hlen & Hrun); simpl; try assumption; try apply scratch_length.
  exists r'. split; [exact Hlen|]. simpl in Hrun. rewrite Hrun. reflexivity.
Qed.


(* ===================================================================== *)
(** ** The substitution loops *)
(* ===================================================================== *)

Lemma Vector_with_cells_id v : Vector_wf v -> Vector_with_cells v (Vector_cells v) = v.
Proof.
  unfold Vector_wf, Vector_with_cells, Vector_cells, Vector_addr.
  destruct v as [[[ad l]|] s c]; simpl; [reflexivity|tauto].
Qed.

Lemma wp_rhs_get (s : solver Vector) v0 l i Q :
  s_rhs s = Vector_with_cells v0 l ->
  0 <= i < sz v0 -> sz v0 <= Z.of_nat (length l) ->
  Q (cell l i) s -> wp (rhs_get i) Q s.
Proof.
  intros Hrhs Hi Hlen HQ. unfold rhs_get. apply wp_zoom. rewrite Hrhs.
  unfold Vector_index. apply wp_bind, wp_get_state. simpl.
  rewrite Zltb_false by lia. simpl.
  replace (i >=? sz v0) with false by (symmetry; rewrite Z.geb_leb; apply Z.leb_gt; lia).
  unfold wp. rewrite (va_read_run _ {| addr := default 0 (Vector_addr v0); cells := l |})
    by (simpl; auto; lia).
  simpl. rewrite <- Hrhs. destruct s. exact HQ.
Qed.

Lemma wp_rhs_put (s : solver Vector) v0 l i x Q :
  s_rhs s = Vector_with_cells v0 l ->
  0 <= i < sz v0 -> sz v0 <= Z.of_nat (length l) ->
  Q tt (set_rhs (Vector_with_cells v0 (<[Z.to_nat i := x]> l)) s) ->
  wp (rhs_put i x) Q s.
Proof.
  intros Hrhs Hi Hlen HQ. unfold rhs_put. apply wp_zoom. rewrite Hrhs.
  unfold Vector_index_store. apply wp_bind, wp_get_state. simpl.
  rewrite Zltb_false by lia. simpl.
  replace (i >=? sz v0) with false by (symmetry; rewrite Z.geb_leb; apply Z.leb_gt; lia).
  unfold wp, va_write, on_va. simpl. rewrite arr_write_run by lia. exact HQ.
Qed.

Lemma wp_rhs_get2 (s : solver Matrix) R0 f i k Q :
  Matrix_is (s_rhs s) R0 f -> 0 <= i < rws R0 -> 0 <= k < cls R0 ->
  Q (f i k) s -> wp (rhs_get2 i k) Q s.
Proof.
  intros (Hr & Hc & Ha & Hwf & Helt) Hi Hk HQ.
  unfold rhs_get2. apply wp_zoom. unfold wp.
  rewrite Matrix_read_run by (auto; lia). rewrite Helt by assumption.
  destruct s. exact HQ.
Qed.

Lemma wp_rhs_put2 (s : solver Matrix) R0 f i k x Q :
  Matrix_is (s_rhs s) R0 f -> 0 <= i < rws R0 -> 0 <= k < cls R0 ->
  Q tt (set_rhs (Matrix_upd (s_rhs s) i k x) s) -> wp (rhs_put2 i k x) Q s.
Proof.
  intros (Hr & Hc & Ha & Hwf & Helt) Hi Hk HQ.
  unfold rhs_put2. apply wp_zoom. unfold wp.
  rewrite Matrix_write_run by (auto; lia). exact HQ.
Qed.

(** The steps keep the length of the column. *)
Lemma length_fold_insert {A B} (f : list A -> B -> list A) l x :
  (forall y b, length (f y b) = length y) -> length (fold_left f l x) = length x.
Proof.
  intros Hf. revert x. induction l as [|b l IH]; intros x; simpl; [reflexivity|].
  rewrite IH. apply Hf.
Qed.

Lemma length_forward_row M lwb x i : length (forward_row M lwb x i) = length x.
Proof. apply length_fold_insert. intros; apply length_insert. Qed.

Lemma length_forward M lwb x : length (forward M lwb x) = length x.
Proof. apply length_fold_insert. intros; apply length_forward_row. Qed.

Lemma length_scale M x : length (scale M x) = length x.
Proof. apply length_fold_insert. intros; apply length_insert. Qed.

Lemma length_backward_row M x i : length (backward_row M x i) = length x.
Proof. apply length_fold_insert. intros; apply length_insert. Qed.

Lemma length_backward M x : length (backward M x) = length x.
Proof. apply length_fold_insert. intros; apply length_backward_row. Qed.

Lemma fold_left_snoc {A B} (f : A -> B -> A) l b a :
  fold_left f (l ++ [b]) a = f (fold_left f l a) b.
Proof. rewrite fold_left_app. reflexivity. Qed.

(** An index met by a loop over [seqZ lo n] lies in [[lo, lo+n)]. *)
Lemma seqZ_split_bounds lo n (done rest : list Z) i :
  seqZ lo n = done ++ i :: rest -> lo <= i < lo + n.
Proof.
  intros Heq. apply elem_of_seqZ. rewrite Heq.
  apply elem_of_app. right. apply elem_of_cons. left. reflexivity.
Qed.

Lemma reverse_seqZ_split_bounds lo n (done rest : list Z) i :
  reverse (seqZ lo n) = done ++ i :: rest -> lo <= i < lo + n.
Proof.
  intros Heq. apply elem_of_seqZ. apply elem_of_reverse. rewrite Heq.
  apply elem_of_app. right. apply elem_of_cons. left. reflexivity.
Qed.

Lemma set_rhs_id {R} (s : solver R) : set_rhs (s_rhs s) s = s.
Proof. destruct s. reflexivity. Qed.

(** The vector overload's loops are [substitute] on the cells of
    [rhs]. *)
Lemma substitute_Vector_spec (s : solver Vector) M lw v0 x0 :
  s_this s = M -> s_lwbIdx s = lw -> s_rhs s = Vector_with_cells v0 x0 ->
  Matrix_wf M -> 1 <= cls M <= rws M -> lwb_ok (rws M) (cls M) lw ->
  sz v0 = rws M -> sz v0 <= Z.of_nat (length x0) ->
  wp (substitute_Vector (rws M) (cls M))
     (fun _ s' => s' = set_rhs (Vector_with_cells v0 (substitute M lw x0)) s) s.
Proof.
  intros Hthis Hlw Hrhs Hwf Hc [Hlwlen Hlwb] Hsz Hlen.
  pose proof (Matrix_is_refl M Hwf) as HM.
  pose proof (Array_is_refl lw _ Hlwlen) as Hlwis.
  unfold substitute_Vector, substitute.
  (* forward substitution *)
  apply wp_bind. unfold for_up at 1. rewrite Z.sub_0_r.
  apply (wp_for_each (fun done _ s' =>
           s' = set_rhs (Vector_with_cells v0 (fold_left (forward_row M lw) done x0)) s)).
  { simpl. rewrite <- Hrhs. symmetry. apply set_rhs_id. }
  { intros done i rest [] s' Heq ->.
    apply seqZ_split_bounds in Heq.
    set (X := fold_left (forward_row M lw) done x0).
    assert (HX : length X = length x0).
    { apply length_fold_insert. intros; apply length_forward_row. }
    pose proof (Hlwb i ltac:(lia)) as Hlo.
    apply wp_bind. eapply wp_lwb_get; [simpl; rewrite Hlw; exact Hlwis|lia|].
    unfold for_up.
    apply (wp_for_each (fun done' _ s'' =>
             s'' = set_rhs (Vector_with_cells v0
                              (fold_left (forward_step M i) done' X)) s)).
    - reflexivity.
    - intros done' j rest' [] s'' Heq' ->.
      apply seqZ_split_bounds in Heq'.
      set (Y := fold_left (forward_step M i) done' X).
      assert (HY : length Y = length x0).
      { unfold Y. rewrite length_fold_insert; [exact HX|]. intros; apply length_insert. }
      apply wp_bind. eapply wp_mat_get; [simpl; rewrite Hthis; exact HM|lia|lia|].
      apply wp_bind. eapply wp_rhs_get; [reflexivity|lia|lia|].
      apply wp_bind. eapply wp_rhs_get; [reflexivity|lia|lia|].
      eapply wp_rhs_put; [reflexivity|lia|lia|].
      rewrite fold_left_snoc. reflexivity.
    - intros [] s'' ->. rewrite fold_left_snoc. reflexivity. }
  intros [] s1 ->. fold (forward M lw x0).
  set (X1 := forward M lw x0).
  assert (HX1 : length X1 = length x0) by apply length_forward.
  (* scaling *)
  apply wp_bind. unfold for_up at 1. rewrite Z.sub_0_r.
  apply (wp_for_each (fun done _ s' =>
           s' = set_rhs (Vector_with_cells v0 (fold_left (scale_step M) done X1)) s)).
  { reflexivity. }
  { intros done i rest [] s' Heq ->.
    apply seqZ_split_bounds in Heq.
    set (Y := fold_left (scale_step M) done X1).
    assert (HY : length Y = length x0).
    { unfold Y. rewrite length_fold_insert; [exact HX1|]. intros; apply length_insert. }
    apply wp_bind. eapply wp_mat_get; [simpl; rewrite Hthis; exact HM|lia|lia|].
    apply wp_bind. eapply wp_rhs_get; [reflexivity|lia|lia|].
    eapply wp_rhs_put; [reflexivity|lia|lia|].
    rewrite fold_left_snoc. reflexivity. }
  intros [] s2 ->. fold (scale M X1).
  set (X2 := scale M X1).
  assert (HX2 : length X2 = length x0).
  { unfold X2. rewrite length_scale. exact HX1. }
  (* back substitution *)
  unfold for_down. replace (rws M - 1 - 0 + 1) with (rws M) by lia.
  apply (wp_for_each (fun done _ s' =>
           s' = set_rhs (Vector_with_cells v0 (fold_left (backward_row M) done X2)) s)).
  { reflexivity. }
  { intros done i rest [] s' Heq ->.
    apply reverse_seqZ_split_bounds in Heq.
    set (X := fold_left (backward_row M) done X2).
    assert (HX : length X = length x0).
    { unfold X. rewrite length_fold_insert; [exact HX2|].
      intros; apply length_backward_row. }
    cbv zeta. unfold for_up.
    apply (wp_for_each (fun done' _ s'' =>
             s'' = set_rhs (Vector_with_cells v0
                              (fold_left (backward_step M i) done' X)) s)).
    - reflexivity.
    - intros done' j rest' [] s'' Heq' ->.
      apply seqZ_split_bounds in Heq'.
      set (Y := fold_left (backward_step M i) done' X).
      assert (HY : length Y = length x0).
      { unfold Y. rewrite length_fold_insert; [exact HX|]. intros; apply length_insert. }
      apply wp_bind. eapply wp_mat_get; [simpl; rewrite Hthis; exact HM|lia|lia|].
      apply wp_bind. eapply wp_rhs_get; [reflexivity|lia|lia|].
      apply wp_bind. eapply wp_rhs_get; [reflexivity|lia|lia|].
      eapply wp_rhs_put; [reflexivity|lia|lia|].
      rewrite fold_left_snoc. reflexivity.
    - intros [] s'' ->. rewrite fold_left_snoc. reflexivity. }
  intros [] s3 ->. reflexivity.
Qed.

Section SubstituteMatrix.
Variables (s : solver Matrix) (R0 : Matrix).
Local Abbreviation M := (s_this s).
Local Abbreviation lw := (s_lwbIdx s).
Local Abbreviation columns_are := (columns_are s R0).
Hypothesis Hwf : Matrix_wf M.
Hypothesis HwfR : Matrix_wf R0.
Hypothesis Hrows : rws R0 = rws M.

(** [for (k...) rhs(i,k) = g(rhs(i,k), rhs(j,k))] updates cell [i] of
    every column. *)
Lemma column_loop X (g : float -> float -> float) i j s' :
  columns_are X s' ->
  (forall k, 0 <= k < cls R0 -> length (X k) = Z.to_nat (rws M)) ->
  0 <= i < rws M -> 0 <= j < rws M ->
  wp (for_up 0 (cls R0) (fun k =>
        let* x_j := rhs_get2 j k in
        let* x_i := rhs_get2 i k in
        rhs_put2 i k (g x_i x_j)))
     (fun _ s'' =>
        columns_are (fun k => <[Z.to_nat i := g (cell (X k) i) (cell (X k) j)]> (X k)) s'')
     s'.
Proof.
  intros (H1 & H2 & H3 & H4) HX Hi Hj. pose proof HwfR as (_ & HcR & _).
  apply (wp_for_up (fun k' s'' =>
           s_this s'' = M /\ s_lwbIdx s'' = lw /\ s_r s'' = s_r s /\
           Matrix_is (s_rhs s'') R0
             (fun i' k => cell (if k <? k'
                                then <[Z.to_nat i := g (cell (X k) i) (cell (X k) j)]> (X k)
                                else X k) i'))); [lia| | |].
  - split_all; auto. eapply Matrix_is_ext; [exact H4|].
    intros r c Hr Hc. simpl. bool_simpl. reflexivity.
  - intros k s'' Hk (G1 & G2 & G3 & G4).
    apply wp_bind. eapply wp_rhs_get2; [exact G4|lia|lia|]. simpl.
    apply wp_bind. eapply wp_rhs_get2; [exact G4|lia|lia|]. simpl.
    rewrite Z.ltb_irrefl.
    eapply wp_rhs_put2; [exact G4|lia|lia|]. simpl.
    split_all; auto.
    eapply Matrix_is_ext; [apply Matrix_is_upd; [exact G4|lia|lia]|].
    intros r c Hr Hc. simpl.
    destruct (decide (r = i /\ c = k)) as [[-> ->]|Hne].
    + bool_simpl. rewrite cell_insert_eq; [reflexivity|]. rewrite HX by lia. lia.
    + destruct (decide (c = k)) as [->|Hck].
      * bool_simpl. rewrite cell_insert_ne by lia. reflexivity.
      * destruct (c <? k) eqn:E; [apply Z.ltb_lt in E|apply Z.ltb_ge in E];
          bool_simpl; reflexivity.
  - intros s'' (G1 & G2 & G3 & G4). unfold columns_are. split_all; auto.
    eapply Matrix_is_ext; [exact G4|].
    intros r c Hr Hc. simpl. bool_simpl. reflexivity.
Qed.

(** [for (j...) rhs(i,j) /= d] *)
Lemma column_scale_loop X d i s' :
  columns_are X s' ->
  (forall k, 0 <= k < cls R0 -> length (X k) = Z.to_nat (rws M)) ->
  0 <= i < rws M ->
  wp (for_up 0 (cls R0) (fun j =>
        let* x_i := rhs_get2 i j in
        rhs_put2 i j (x_i / d)%float))
     (fun _ s'' =>
        columns_are (fun k => <[Z.to_nat i := (cell (X k) i / d)%float]> (X k)) s'')
     s'.
Proof.
  intros (H1 & H2 & H3 & H4) HX Hi. pose proof HwfR as (_ & HcR & _).
  apply (wp_for_up (fun k' s'' =>
           s_this s'' = M /\ s_lwbIdx s'' = lw /\ s_r s'' = s_r s /\
           Matrix_is (s_rhs s'') R0
             (fun i' k => cell (if k <? k'
                                then <[Z.to_nat i := (cell (X k) i / d)%float]> (X k)
                                else X k) i'))); [lia| | |].
  - split_all; auto. eapply Matrix_is_ext; [exact H4|].
    intros r c Hr Hc. simpl. bool_simpl. reflexivity.
  - intros k s'' Hk (G1 & G2 & G3 & G4).
    apply wp_bind. eapply wp_rhs_get2; [exact G4|lia|lia|]. simpl.
    rewrite Z.ltb_irrefl.
    eapply wp_rhs_put2; [exact G4|lia|lia|]. simpl.
    split_all; auto.
    eapply Matrix_is_ext; [apply Matrix_is_upd; [exact G4|lia|lia]|].
    intros r c Hr Hc. simpl.
    destruct (decide (r = i /\ c = k)) as [[-> ->]|Hne].
    + bool_simpl. rewrite cell_insert_eq; [reflexivity|]. rewrite HX by lia. lia.
    + destruct (decide (c = k)) as [->|Hck].
      * bool_simpl. rewrite cell_insert_ne by lia. reflexivity.
      * destruct (c <? k) eqn:E; [apply Z.ltb_lt in E|apply Z.ltb_ge in E];
          bool_simpl; reflexivity.
  - intros s'' (G1 & G2 & G3 & G4). unfold columns_are. split_all; auto.
    eapply Matrix_is_ext; [exact G4|].
    intros r c Hr Hc. simpl. bool_simpl. reflexivity.
Qed.

(** The matrix overload's loops are [substitute] on every column of
    [rhs]. *)
Lemma substitute_Matrix_spec :
  s_rhs s = R0 -> 1 <= cls M <= rws M -> lwb_ok (rws M) (cls M) lw ->
  wp (substitute_Matrix (rws M) (cls M) (cls R0))
     (fun _ s' => columns_are (fun k => substitute M lw (Matrix_column R0 k)) s') s.
Proof.
  intros Hrhs Hc [Hlwlen Hlwb].
  pose proof (Matrix_is_refl M Hwf) as HM.
  pose proof (Array_is_refl lw _ Hlwlen) as Hlwis.
  set (X0 := fun k => Matrix_column R0 k).
  assert (HX0 : forall k, length (X0 k) = Z.to_nat (rws M)).
  { intros k. unfold X0, Matrix_column. rewrite length_tab, Hrows. reflexivity. }
  unfold substitute_Matrix, substitute.
  (* forward substitution *)
  apply wp_bind. unfold for_up at 1. rewrite Z.sub_0_r.
  apply (wp_for_each (fun done _ s' =>
           columns_are (fun k => fold_left (forward_row M lw) done (X0 k)) s')).
  { simpl. unfold columns_are. split_all; auto. rewrite Hrhs.
    eapply Matrix_is_ext; [apply Matrix_is_refl; exact HwfR|].
    intros r c Hr Hcc. unfold X0, Matrix_column. rewrite cell_tab by lia. reflexivity. }
  { intros done i rest [] s' Heq HI.
    apply seqZ_split_bounds in Heq.
    set (X := fun k => fold_left (forward_row M lw) done (X0 k)) in *.
    assert (HX : forall k, length (X k) = Z.to_nat (rws M)).
    { intros k. unfold X. rewrite length_fold_insert; [apply HX0|].
      intros; apply length_forward_row. }
    pose proof (Hlwb i ltac:(lia)) as Hlo.
    pose proof HI as (H1 & H2 & _).
    apply wp_bind. eapply wp_lwb_get; [rewrite H2; exact Hlwis|lia|].
    unfold for_up at 1.
    apply (wp_for_each (fun done' _ s'' =>
             columns_are (fun k => fold_left (forward_step M i) done' (X k)) s'')).
    - exact HI.
    - intros done' j rest' [] s'' Heq' HI'.
      apply seqZ_split_bounds in Heq'.
      pose proof HI' as (H1' & H2' & _).
      apply wp_bind. eapply wp_mat_get; [rewrite H1'; exact HM|lia|lia|].
      eapply wp_mono.
      + apply (column_loop _ (fun x_i x_j => (x_i - Matrix_elt M j (i - j) * x_j)%float)
                 i j s'' HI'); [|lia|lia].
        intros k Hk. rewrite length_fold_insert; [apply HX|].
        intros; apply length_insert.
      + intros [] s3 (G1 & G2 & G3 & G4). unfold columns_are. split_all; auto.
        eapply Matrix_is_ext; [exact G4|]. intros r c Hr Hcc. simpl.
        rewrite fold_left_snoc. reflexivity.
    - intros [] s'' (G1 & G2 & G3 & G4). unfold columns_are. split_all; auto.
      eapply Matrix_is_ext; [exact G4|]. intros r c Hr Hcc. simpl.
      rewrite fold_left_snoc. reflexivity. }
  intros [] s1 HI1.
  set (X1 := fun k => forward M lw (X0 k)).
  assert (HX1 : forall k, length (X1 k) = Z.to_nat (rws M)).
  { intros k. unfold X1. rewrite length_forward. apply HX0. }
  change (columns_are X1 s1) in HI1.
  (* scaling *)
  apply wp_bind. unfold for_up at 1. rewrite Z.sub_0_r.
  apply (wp_for_each (fun done _ s' =>
           columns_are (fun k => fold_left (scale_step M) done (X1 k)) s')).
  { exact HI1. }
  { intros done i rest [] s' Heq HI.
    apply seqZ_split_bounds in Heq.
    pose proof HI as (H1 & H2 & _).
    apply wp_bind. eapply wp_mat_get; [rewrite H1; exact HM|lia|lia|].
    eapply wp_mono.
    + apply (column_scale_loop _ (Matrix_elt M i 0) i s' HI); [|lia].
      intros k Hk. rewrite length_fold_insert; [apply HX1|].
      intros; apply length_insert.
    + intros [] s3 (G1 & G2 & G3 & G4). unfold columns_are. split_all; auto.
      eapply Matrix_is_ext; [exact G4|]. intros r c Hr Hcc. simpl.
      rewrite fold_left_snoc. reflexivity. }
  intros [] s2 HI2.
  set (X2 := fun k => scale M (X1 k)).
  assert (HX2 : forall k, length (X2 k) = Z.to_nat (rws M)).
  { intros k. unfold X2. rewrite length_scale. apply HX1. }
  change (columns_are X2 s2) in HI2.
  (* back substitution *)
  unfold for_down. replace (rws M - 1 - 0 + 1) with (rws M) by lia.
  apply (wp_for_each (fun done _ s' =>
           columns_are (fun k => fold_left (backward_row M) done (X2 k)) s')).
  { exact HI2. }
  { intros done i rest [] s' Heq HI.
    apply reverse_seqZ_split_bounds in Heq.
    set (X := fun k => fold_left (backward_row M) done (X2 k)) in *.
    assert (HX : forall k, length (X k) = Z.to_nat (rws M)).
    { intros k. unfold X. rewrite length_fold_insert; [apply HX2|].
      intros; apply length_backward_row. }
    cbv zeta. unfold for_up at 1.
    apply (wp_for_each (fun done' _ s'' =>
             columns_are (fun k => fold_left (backward_step M i) done' (X k)) s'')).
    - exact HI.
    - intros done' j rest' [] s'' Heq' HI'.
      apply seqZ_split_bounds in Heq'.
      pose proof HI' as (H1' & H2' & _).
      apply wp_bind. eapply wp_mat_get; [rewrite H1'; exact HM|lia|lia|].
      eapply wp_mono.
      + apply (column_loop _ (fun x_i x_j => (x_i - Matrix_elt M i (j - i) * x_j)%float)
                 i j s'' HI'); [|lia|lia].
        intros k Hk. rewrite length_fold_insert; [apply HX|].
        intros; apply length_insert.
      + intros [] s3 (G1 & G2 & G3 & G4). unfold columns_are. split_all; auto.
        eapply Matrix_is_ext; [exact G4|]. intros r c Hr Hcc. simpl.
        rewrite fold_left_snoc. reflexivity.
    - intros [] s'' (G1 & G2 & G3 & G4). unfold columns_are. split_all; auto.
      eapply Matrix_is_ext; [exact G4|]. intros r c Hr Hcc. simpl.
      rewrite fold_left_snoc. reflexivity. }
  intros [] s3 HI3. exact HI3.
Qed.
End SubstituteMatrix.

(* ===================================================================== *)
(** ** Matrix::solveLDLT: the claims *)
(* ===================================================================== *)

Lemma spec_factor_ok A :
  Matrix_wf A -> 1 <= cls A <= rws A ->
  Matrix_wf (fst (spec_factor A)) /\
  rws (fst (spec_factor A)) = rws A /\ cls (fst (spec_factor A)) = cls A /\
  addr (matRows (fst (spec_factor A))) = addr (matRows A) /\
  lwb_ok (rws A) (cls A) (snd (spec_factor A)).
Proof. intros Hwf Hc. apply spec_rows_ok; [assumption|lia|lia]. Qed.

(** Both overloads return normally on conforming arguments, with the
    factors the specification describes and [substitute] applied to
    the right-hand side. *)
Lemma Matrix_solveLDLT_Vector_ok A rhs la ra :
  Matrix_wf A -> 1 <= cls A <= rws A -> Vector_wf rhs -> sz rhs = rws A ->
  Matrix_solveLDLT_Vector la ra (A, rhs) =
  (Ok tt, (fst (spec_factor A),
           Vector_with_cells rhs
             (substitute (fst (spec_factor A)) (snd (spec_factor A)) (Vector_cells rhs)))).
Proof.
  intros Hwf Hc Hrhs Hsz.
  destruct (Matrix_solveLDLT_Vector_run A rhs la ra Hwf Hc Hsz) as (r' & Hr' & ->).
  destruct (spec_factor_ok A Hwf Hc) as (O1 & O2 & O3 & O4 & O5).
  set (s := {| s_this := fst (spec_factor A); s_rhs := rhs;
               s_lwbIdx := snd (spec_factor A); s_r := r' |}).
  assert (Hcap : sz rhs <= Z.of_nat (length (Vector_cells rhs))).
  { unfold Vector_wf, Vector_cells in *. destruct (va rhs); [lia|tauto]. }
  pose proof (substitute_Vector_spec s (fst (spec_factor A)) (snd (spec_factor A))
                rhs (Vector_cells rhs) eq_refl eq_refl) as Hsub.
  rewrite O2, O3 in Hsub.
  apply wp_run in Hsub as ([] & s' & -> & ->); try assumption; try lia.
  - reflexivity.
  - simpl. symmetry. apply Vector_with_cells_id. exact Hrhs.
Qed.

Lemma Matrix_solveLDLT_Matrix_ok A R la ra :
  Matrix_wf A -> 1 <= cls A <= rws A -> Matrix_wf R -> rws R = rws A ->
  exists R',
    Matrix_solveLDLT_Matrix la ra (A, R) = (Ok tt, (fst (spec_factor A), R')) /\
    Matrix_is R' R
      (fun i k => cell (substitute (fst (spec_factor A)) (snd (spec_factor A))
                                   (Matrix_column R k)) i).
Proof.
  intros Hwf Hc HR Hrows.
  destruct (Matrix_solveLDLT_Matrix_run A R la ra Hwf Hc Hrows) as (r' & Hr' & ->).
  destruct (spec_factor_ok A Hwf Hc) as (O1 & O2 & O3 & O4 & O5).
  set (s := {| s_this := fst (spec_factor A); s_rhs := R;
               s_lwbIdx := snd (spec_factor A); s_r := r' |}).
  pose proof (substitute_Matrix_spec s R O1 HR) as Hsub.
  simpl in Hsub. rewrite O2, O3 in Hsub.
  apply wp_run in Hsub as ([] & s' & -> & (G1 & G2 & G3 & G4));
    try assumption; try lia; [|reflexivity].
  exists (s_rhs s'). rewrite G1. split; [reflexivity|exact G4].
Qed.

(** *** The factorization pass *)

(** C1.  The bounds start as [0] for [i < cols] and [i-cols+1] for
    [i >= cols].  With [(M, lwb)] the storage and bounds when row [i] is
    reached ([spec_rows A i], starting from [A] and [lwb_init]),
    processing row [i] stores [d_i] at physical column 0 of row [i],
    stores the multiplier for each [j] in [(i, min(i+cols, rows))] at
    physical column [j-i], advances [lwb[j]] to [i+1] exactly when
    [|m| < 1e-12] and [lwb[j] = i], and changes nothing else.  Each
    overload of [solveLDLT] is its substitution loops run from the
    storage and bounds that the rows [0 .. rows-1] processed in this way
    leave, and on a conforming right-hand side it returns with that
    storage in the coefficient matrix. *)
Theorem solveLDLT_factorization (A : Matrix) :
  Matrix_wf A -> 1 <= cls A <= rws A ->
  spec_rows A 0 = (A, lwb_init (rws A) (cls A)) /\
  (forall i, 0 <= i < rws A ->
     cell (lwb_init (rws A) (cls A)) i = if i <? cls A then 0 else i - cls A + 1) /\
  (forall i, 0 <= i < rws A ->
     let M := fst (spec_rows A i) in
     let lwb := snd (spec_rows A i) in
     let M' := fst (spec_rows A (i + 1)) in
     let lwb' := snd (spec_rows A (i + 1)) in
     let upb := Z.min (i + cls A) (rws A) in
     Matrix_elt M' i 0 = spec_d M lwb i /\
     (forall j, i < j < upb ->
        Matrix_elt M' i (j - i) = spec_m M lwb i j /\
        cell lwb' j = spec_lwb M lwb i j /\
        (cell lwb' j = i + 1 /\ cell lwb j = i <->
         (abs (spec_m M lwb i j) <? negligible)%float = true /\ cell lwb j = i)) /\
     (forall r c, 0 <= r < rws A -> 0 <= c < cls A ->
        r <> i \/ upb <= i + c -> Matrix_elt M' r c = Matrix_elt M r c) /\
     (forall j, 0 <= j < rws A -> ~ (i < j < upb) -> cell lwb' j = cell lwb j)) /\
  (forall (rhs : Vector) la ra, sz rhs = rws A ->
     exists r',
       length r' = Z.to_nat (rws A) /\
       Matrix_solveLDLT_Vector la ra (A, rhs) =
       (let '(o, s) :=
          substitute_Vector (rws A) (cls A)
            {| s_this := fst (spec_factor A); s_rhs := rhs;
               s_lwbIdx := snd (spec_factor A); s_r := r' |} in
        (o, (s_this s, s_rhs s)))) /\
  (forall (rhs : Matrix) la ra, rws rhs = rws A ->
     exists r',
       length r' = Z.to_nat (rws A) /\
       Matrix_solveLDLT_Matrix la ra (A, rhs) =
       (let '(o, s) :=
          substitute_Matrix (rws A) (cls A) (cls rhs)
            {| s_this := fst (spec_factor A); s_rhs := rhs;
               s_lwbIdx := snd (spec_factor A); s_r := r' |} in
        (o, (s_this s, s_rhs s)))) /\
  (forall (rhs : Vector) la ra, Vector_wf rhs -> sz rhs = rws A ->
     exists rhs',
       Matrix_solveLDLT_Vector la ra (A, rhs) = (Ok tt, (fst (spec_factor A), rhs'))) /\
  (forall (rhs : Matrix) la ra, Matrix_wf rhs -> rws rhs = rws A ->
     exists rhs',
       Matrix_solveLDLT_Matrix la ra (A, rhs) = (Ok tt, (fst (spec_factor A), rhs'))).
Proof.
  intros Hwf Hc. split; [reflexivity|]. split; [|split; [|split; [|split; [|split]]]].
  - intros i Hi. apply cell_lwb_init. exact Hi.
  - intros i Hi. cbv zeta.
    destruct (spec_rows_ok A i Hwf ltac:(lia) ltac:(lia)) as (O1 & O2 & O3 & O4 & O5).
    rewrite spec_rows_succ by lia.
    destruct (spec_rows A i) as [M lw]. simpl in *.
    unfold spec_row, spec_row_upto. simpl. rewrite O2, O3.
    split; [|split; [|split]].
    + rewrite Matrix_tab_elt by lia. bool_simpl. reflexivity.
    + intros j Hj. split; [|split].
      * rewrite Matrix_tab_elt by lia. bool_simpl.
        replace (i + (j - i)) with j by lia. reflexivity.
      * rewrite cell_tab by lia. bool_simpl. reflexivity.
      * rewrite cell_tab by lia. bool_simpl. unfold spec_lwb. split.
        -- intros [Hadv Heq]. split; [|exact Heq]. revert Hadv.
           rewrite Heq, Z.eqb_refl.
           destruct (abs (spec_m M lw i j) <? negligible)%float; [reflexivity|].
           simpl. lia.
        -- intros [Hneg Heq]. split; [|exact Heq].
           rewrite Hneg, Heq, Z.eqb_refl. reflexivity.
    + intros r c Hr Hcc Hout. rewrite Matrix_tab_elt by lia.
      destruct (r =? i) eqn:E1; [|reflexivity]. apply Z.eqb_eq in E1.
      bool_simpl. reflexivity.
    + intros j Hj Hout. rewrite cell_tab by lia.
      destruct (i <? j) eqn:E1; [|reflexivity]. apply Z.ltb_lt in E1.
      bool_simpl. reflexivity.
  - intros rhs la ra Hsz. apply Matrix_solveLDLT_Vector_run; assumption.
  - intros rhs la ra Hsz. apply Matrix_solveLDLT_Matrix_run; assumption.
  - intros rhs la ra Hrhs Hsz. eexists.
    apply Matrix_solveLDLT_Vector_ok; assumption.
  - intros rhs la ra Hrhs Hsz.
    destruct (Matrix_solveLDLT_Matrix_ok A rhs la ra Hwf Hc Hrhs Hsz) as (R' & Hrun & _).
    exists R'. exact Hrun.
Qed.

Lemma solveLDLT_factorization_witness :
  exists rhs',
    Matrix_solveLDLT_Vector alloc_int alloc7 (tri3, rhs3)
    = (Ok tt, (fst (spec_factor tri3), rhs')).
Proof.
  destruct (solveLDLT_factorization tri3) as (_ & _ & _ & _ & _ & Hvec & _).
  - unfold Matrix_wf. simpl. lia.
  - simpl. lia.
  - apply (Hvec rhs3 alloc_int alloc7).
    + unfold Vector_wf. simpl. lia.
    + reflexivity.
Defined.

(** *** Bandwidth 1 *)

Lemma fold_left_id {A B} (f : A -> B -> A) (l : list B) (a : A) :
  (forall b y, b ∈ l -> f y b = y) -> fold_left f l a = a.
Proof.
  revert a. induction l as [|b l IH]; intros a Hf; simpl; [reflexivity|].
  rewrite Hf by (apply elem_of_cons; left; reflexivity).
  apply IH. intros b' y Hin. apply Hf. apply elem_of_cons. right. exact Hin.
Qed.

Lemma spec_rows_diagonal A n :
  Matrix_wf A -> cls A = 1 -> 0 <= n <= rws A ->
  spec_rows A n = (A, lwb_init (rws A) 1).
Proof.
  intros Hwf Hcls Hn. pose proof Hwf as (Hr & Hc & _).
  rewrite <- (Z2Nat.id n) in * by lia.
  induction (Z.to_nat n) as [|k IH].
  - unfold spec_rows. simpl. rewrite Hcls. reflexivity.
  - rewrite Nat2Z.inj_succ in *. unfold Z.succ in *.
    rewrite spec_rows_succ by lia. rewrite IH by lia.
    set (i := Z.of_nat k) in *. unfold spec_row, spec_row_upto. simpl.
    f_equal.
    + symmetry. apply Matrix_is_tab.
      eapply Matrix_is_ext; [apply Matrix_is_refl; exact Hwf|].
      intros r c Hr' Hc'.
      destruct (r =? i) eqn:E1; [|reflexivity]. apply Z.eqb_eq in E1. subst r.
      assert (c = 0) by lia. subst c.
      bool_simpl. unfold spec_d. rewrite minus_sum_nil; [reflexivity|].
      rewrite cell_lwb_init by lia.
      destruct (i <? 1) eqn:E; [apply Z.ltb_lt in E|apply Z.ltb_ge in E]; lia.
    + symmetry. apply Array_is_tab.
      eapply Array_is_ext; [apply Array_is_refl; apply length_tab|].
      intros j Hj.
      destruct (i <? j) eqn:E1; [|reflexivity]. apply Z.ltb_lt in E1.
      bool_simpl. reflexivity.
Qed.

Lemma cell_scale_prefix M x n i :
  (n <= length x)%nat -> 0 <= i ->
  cell (fold_left (scale_step M) (seqZ 0 (Z.of_nat n)) x) i =
  if i <? Z.of_nat n then (cell x i / Matrix_elt M i 0)%float else cell x i.
Proof.
  intros Hn Hi. induction n as [|n IH].
  - simpl. bool_simpl. reflexivity.
  - rewrite seqZ_S, fold_left_snoc. rewrite Z.add_0_l. unfold scale_step at 1.
    assert (Hlen : length (fold_left (scale_step M) (seqZ 0 (Z.of_nat n)) x) = length x).
    { apply length_fold_insert. intros; apply length_insert. }
    destruct (decide (i = Z.of_nat n)) as [->|Hne].
    + rewrite cell_insert_eq by lia. rewrite IH by lia. bool_simpl. reflexivity.
    + rewrite cell_insert_ne by lia. rewrite IH by lia.
      destruct (i <? Z.of_nat n) eqn:E; [apply Z.ltb_lt in E|apply Z.ltb_ge in E];
        bool_simpl; reflexivity.
Qed.

Lemma substitute_diagonal M x i :
  cls M = 1 -> 0 <= rws M <= Z.of_nat (length x) -> 0 <= i < rws M ->
  cell (substitute M (lwb_init (rws M) 1) x) i = (cell x i / Matrix_elt M i 0)%float.
Proof.
  intros Hcls Hlen Hi. unfold substitute.
  assert (Hfwd : forward M (lwb_init (rws M) 1) x = x).
  { unfold forward. apply fold_left_id. intros j y Hj. apply elem_of_seqZ in Hj.
    unfold forward_row. rewrite cell_lwb_init by lia.
    rewrite seqZ_nil; [reflexivity|].
    destruct (j <? 1) eqn:E; [apply Z.ltb_lt in E|apply Z.ltb_ge in E]; lia. }
  rewrite Hfwd.
  assert (Hbwd : forall y, backward M y = y).
  { intros y. unfold backward. apply fold_left_id. intros j z Hj.
    unfold backward_row. rewrite seqZ_nil; [reflexivity|]. lia. }
  rewrite Hbwd. unfold scale.
  rewrite <- (Z2Nat.id (rws M)) at 1 by lia.
  rewrite cell_scale_prefix by lia. bool_simpl. reflexivity.
Qed.

(** C2.  For bandwidth 1 the vector overload leaves the coefficient
    matrix as it is and divides every [rhs[i]] by [A[i][0]]. *)
Theorem solveLDLT_diagonal (A : Matrix) (rhs : Vector) (la : allocation Z)
    (ra : allocation float) :
  Matrix_wf A -> cls A = 1 -> 1 <= rws A -> Vector_wf rhs -> sz rhs = rws A ->
  exists rhs',
    Matrix_solveLDLT_Vector la ra (A, rhs) = (Ok tt, (A, rhs')) /\
    sz rhs' = sz rhs /\
    forall i, 0 <= i < rws A ->
              Vector_elt rhs' i = (Vector_elt rhs i / Matrix_elt A i 0)%float.
Proof.
  intros Hwf Hcls Hrows Hrhs Hsz.
  rewrite Matrix_solveLDLT_Vector_ok by (auto; lia).
  unfold spec_factor. rewrite spec_rows_diagonal by (auto; lia). simpl.
  eexists. split; [reflexivity|]. split; [reflexivity|].
  intros i Hi. unfold Vector_elt at 1. simpl.
  apply substitute_diagonal; [assumption| |assumption].
  unfold Vector_wf, Vector_cells in *. destruct (va rhs); [lia|tauto].
Qed.

Lemma solveLDLT_diagonal_witness :
  exists rhs',
    Matrix_solveLDLT_Vector alloc_int alloc7 (diag3, rhs3) = (Ok tt, (diag3, rhs')) /\
    sz rhs' = 3 /\
    forall i, 0 <= i < 3 ->
              Vector_elt rhs' i = (Vector_elt rhs3 i / Matrix_elt diag3 i 0)%float.
Proof.
  apply (solveLDLT_diagonal diag3 rhs3 alloc_int alloc7).
  - unfold Matrix_wf. simpl. lia.
  - reflexivity.
  - simpl. lia.
  - unfold Vector_wf. simpl. lia.
  - reflexivity.
Defined.

(** *** The matrix overload, column by column *)

Lemma copy_prefix_all src dst :
  length dst = length src -> copy_prefix src (Z.of_nat (length src)) dst = src.
Proof.
  intros Hlen. unfold copy_prefix. rewrite Nat2Z.id.
  rewrite firstn_all, drop_ge by lia. apply app_nil_r.
Qed.

Lemma Matrix_copy_run A a :
  Matrix_wf A -> Matrix_copy A a = Ok (Matrix_at (new_addr a) A).
Proof.
  intros (Hr & Hc & Hlen). unfold Matrix_copy, construct, bind, new_double.
  rewrite !Zltb_false by nia. simpl. unfold on_matRows, zoom. simpl.
  rewrite memmove_run; [|nia|lia|rewrite length_tab; lia].
  simpl. unfold Matrix_at, set_matRows. simpl. rewrite <- Hlen.
  rewrite copy_prefix_all; [reflexivity|]. rewrite length_tab. lia.
Qed.

(** The address of the buffer plays no part in the factorization. *)
Lemma spec_rows_at ad A n :
  spec_rows (Matrix_at ad A) n =
  (Matrix_at ad (fst (spec_rows A n)), snd (spec_rows A n)).
Proof.
  unfold spec_rows. generalize (seqZ 0 n). intros l.
  change (lwb_init (rws (Matrix_at ad A)) (cls (Matrix_at ad A)))
    with (lwb_init (rws A) (cls A)).
  generalize (lwb_init (rws A) (cls A)). revert A.
  induction l as [|i l IH]; intros A lw; simpl; [reflexivity|].
  change (spec_row (Matrix_at ad A, lw) i)
    with (Matrix_at ad (fst (spec_row (A, lw) i)), snd (spec_row (A, lw) i)).
  destruct (spec_row (A, lw) i) as [A' lw']. apply IH.
Qed.

Lemma Matrix_column_is R' R X k :
  Matrix_is R' R (fun i k => cell (X k) i) ->
  length (X k) = Z.to_nat (rws R) -> 0 <= k < cls R ->
  Matrix_column R' k = X k.
Proof.
  intros (Hr & Hc & _ & _ & Helt) Hlen Hk. unfold Matrix_column. rewrite Hr.
  symmetry. apply tab_ext; [exact Hlen|]. intros i Hi. symmetry. apply Helt; lia.
Qed.

Lemma length_substitute M lw x : length (substitute M lw x) = length x.
Proof.
  unfold substitute. rewrite length_backward, length_scale, length_forward. reflexivity.
Qed.

(** C3.  The loops of both overloads begin with the same
    factorization pass.  The matrix overload returns normally, and each
    column [k] of its result is what the vector overload computes from
    a fresh copy of [A] and a vector holding column [k] of the original
    [R]; both leave the same factors in their coefficient matrix. *)
Theorem solveLDLT_Matrix_columnwise (A R : Matrix) (la : allocation Z)
    (ra : allocation float) :
  Matrix_wf A -> Matrix_wf R -> 1 <= cls A <= rws A -> rws R = rws A ->
  solveLDLT_Vector_loops (rws A) (cls A) =
    factorize_then (rws A) (cls A) (substitute_Vector (rws A) (cls A)) /\
  solveLDLT_Matrix_loops (rws A) (cls A) (cls R) =
    factorize_then (rws A) (cls A) (substitute_Matrix (rws A) (cls A) (cls R)) /\
  exists A' R',
    Matrix_solveLDLT_Matrix la ra (A, R) = (Ok tt, (A', R')) /\
    rws R' = rws R /\ cls R' = cls R /\
    forall k (v : Vector) a la' ra',
      0 <= k < cls R ->
      Vector_wf v -> sz v = rws A -> Vector_cells v = Matrix_column R k ->
      exists Ac Ac' v',
        Matrix_copy A a = Ok Ac /\
        Matrix_solveLDLT_Vector la' ra' (Ac, v) = (Ok tt, (Ac', v')) /\
        Vector_cells v' = Matrix_column R' k /\
        sz v' = sz v /\
        rws Ac' = rws A' /\ cls Ac' = cls A' /\
        cells (matRows Ac') = cells (matRows A').
Proof.
  intros HA HR Hc Hrows. split; [reflexivity|]. split; [reflexivity|].
  destruct (Matrix_solveLDLT_Matrix_ok A R la ra HA Hc HR Hrows) as (R' & Hrun & HR').
  exists (fst (spec_factor A)), R'. split; [exact Hrun|].
  pose proof HR' as (Hr' & Hc' & _).
  split; [exact Hr'|]. split; [exact Hc'|].
  intros k v a la' ra' Hk Hv Hsz Hcells.
  assert (HAc : Matrix_wf (Matrix_at (new_addr a) A)) by exact HA.
  exists (Matrix_at (new_addr a) A).
  rewrite (Matrix_solveLDLT_Vector_ok (Matrix_at (new_addr a) A) v la' ra')
    by assumption.
  unfold spec_factor. simpl rws. rewrite spec_rows_at. simpl fst. simpl snd.
  eexists. eexists. split; [apply Matrix_copy_run; exact HA|].
  split; [reflexivity|]. simpl.
  split; [|split_all; reflexivity].
  rewrite (Matrix_column_is R' R _ k HR'); [|  |exact Hk].
  - rewrite Hcells. reflexivity.
  - rewrite length_substitute. unfold Matrix_column. apply length_tab.
Qed.

Lemma solveLDLT_Matrix_columnwise_witness :
  exists A' R',
    Matrix_solveLDLT_Matrix alloc_int alloc7 (tri3, rhs32) = (Ok tt, (A', R')) /\
    exists Ac' v',
      Matrix_solveLDLT_Vector alloc_int alloc7 (Matrix_at 64 tri3, rhs3)
      = (Ok tt, (Ac', v')) /\
      Vector_cells v' = Matrix_column R' 0 /\
      cells (matRows Ac') = cells (matRows A').
Proof.
  destruct (solveLDLT_Matrix_columnwise tri3 rhs32 alloc_int alloc7)
    as (_ & _ & A' & R' & Hrun & _ & _ & Hcol).
  - unfold Matrix_wf. simpl. lia.
  - unfold Matrix_wf. simpl. lia.
  - simpl. lia.
  - reflexivity.
  - exists A', R'. split; [exact Hrun|].
    destruct (Hcol 0 rhs3 alloc7 alloc_int alloc7) as (Ac & Ac' & v' & H1 & H2 & H3 & _ & _ & _ & H4).
    + simpl. lia.
    + unfold Vector_wf. simpl. lia.
    + reflexivity.
    + reflexivity.
    + exists Ac', v'. rewrite Matrix_copy_run in H1 by (unfold Matrix_wf; simpl; lia).
      injection H1 as <-. auto.
Defined.

(** *** The bounds [lwbIdx] and the band *)

Lemma init_lwbIdx_then_run {R A} (k : comp (solver R) A) s rows cols :
  0 <= cols <= rows -> length (s_lwbIdx s) = Z.to_nat rows ->
  init_lwbIdx_then rows cols k s = k (set_lwbIdx (lwb_init rows cols) s).
Proof.
  intros Hc Hlen. pose proof (init_lwbIdx_run s rows cols Hc Hlen) as Hinit.
  unfold init_lwbIdx_then, bind in *.
  destruct (for_up 0 cols _ s) as [[[]|e|] s1]; try discriminate.
  destruct (for_up cols rows _ s1) as [[[]|e|] s2]; try discriminate.
  simpl in Hinit. injection Hinit as ->. reflexivity.
Qed.

(** A loop up to [hi] is the loop up to [mid] followed by the loop from
    [mid]: a run with a smaller bound is an initial part of the run. *)
Lemma for_up_split {St} lo mid hi (body : Z -> comp St unit) s :
  lo <= mid <= hi ->
  for_up lo hi body s = bind (for_up lo mid body) (fun _ => for_up mid hi body) s.
Proof.
  intros Hm. unfold for_up.
  replace (hi - lo) with ((mid - lo) + (hi - mid)) by lia.
  rewrite seqZ_app by lia. replace (lo + (mid - lo)) with mid by lia.
  generalize (seqZ mid (hi - mid)). generalize (seqZ lo (mid - lo)).
  intros l1 l2. revert s. induction l1 as [|i l1 IH]; intros s; simpl.
  - reflexivity.
  - unfold bind. destruct (body i s) as [[[]|e|] s1]; try reflexivity.
    rewrite IH. reflexivity.
Qed.

(** C10.  In every state the factorization pass goes through (after
    [i] rows and the columns below [upb] of row [i]) the bounds satisfy
    [max(0, j-cols+1) <= lwbIdx[j] <= j]; and both overloads run to
    their end without a fault, that is, without an access outside
    [[0, rows) x [0, cols)] of either matrix or outside the scratch
    arrays. *)
Theorem solveLDLT_band_safe (A : Matrix) :
  Matrix_wf A -> 1 <= cls A <= rws A ->
  (forall R (rhs : R) la ra i upb,
     0 <= i < rws A -> i + 1 <= upb <= Z.min (i + cls A) (rws A) ->
     wp (init_lwbIdx_then (rws A) (cls A)
           (for_up 0 i (factor_row (rws A) (cls A));; factor_row_upto i upb))
        (fun _ s' => lwb_ok (rws A) (cls A) (s_lwbIdx s'))
        (solver_init A rhs la ra)) /\
  (forall rhs la ra,
     Vector_wf rhs -> sz rhs = rws A ->
     fst (Matrix_solveLDLT_Vector la ra (A, rhs)) = Ok tt) /\
  (forall R la ra,
     Matrix_wf R -> rws R = rws A ->
     fst (Matrix_solveLDLT_Matrix la ra (A, R)) = Ok tt).
Proof.
  intros Hwf Hc. split; [|split].
  - intros R rhs la ra i upb Hi Hupb. unfold wp.
    rewrite init_lwbIdx_then_run by (try lia; apply scratch_length).
    set (s0 := set_lwbIdx _ _).
    change (wp (for_up 0 i (factor_row (rws A) (cls A));; factor_row_upto i upb)
               (fun _ s' => lwb_ok (rws A) (cls A) (s_lwbIdx s')) s0).
    apply wp_bind.
    eapply wp_mono.
    + apply (factor_rows_spec s0 (rws A) (cls A) i); try reflexivity; try assumption;
        try lia. apply scratch_length.
    + intros [] s1 (H1 & H2 & H3 & H4). simpl in H1, H2.
      destruct (spec_rows_ok A i Hwf ltac:(lia) ltac:(lia)) as (O1 & O2 & O3 & O4 & O5).
      rewrite <- H1, <- H2 in *.
      eapply wp_mono.
      * apply factor_row_upto_spec; try assumption; try lia.
        rewrite O2, O3. exact O5.
      * intros [] s2 (G1 & G2 & _). simpl. rewrite G2, <- O2, <- O3.
        apply spec_row_upto_lwb_ok; try lia. rewrite O2, O3. exact O5.
  - intros rhs la ra Hrhs Hsz.
    rewrite Matrix_solveLDLT_Vector_ok by assumption. reflexivity.
  - intros R la ra HR Hrows.
    destruct (Matrix_solveLDLT_Matrix_ok A R la ra Hwf Hc HR Hrows) as (R' & -> & _).
    reflexivity.
Qed.

Lemma solveLDLT_band_safe_witness :
  fst (Matrix_solveLDLT_Vector alloc_int alloc7 (tri3, rhs3)) = Ok tt /\
  fst (Matrix_solveLDLT_Matrix alloc_int alloc7 (tri3, rhs32)) = Ok tt.
Proof.
  destruct (solveLDLT_band_safe tri3) as (_ & Hvec & Hmat).
  - unfold Matrix_wf. simpl. lia.
  - simpl. lia.
  - split.
    + apply Hvec; [unfold Vector_wf; simpl; lia|reflexivity].
    + apply Hmat; [unfold Matrix_wf; simpl; lia|reflexivity].
Defined.

(** *** The argument checks *)

Section NoThrow.
Context {St : Type} (e : exn).

Lemma no_throw_ret {A} (a : A) : no_throw e (@ret St A a).
Proof. intros s Heq. cbv in Heq. discriminate Heq. Qed.

Lemma no_throw_fault {A} : no_throw e (@fault St A).
Proof. intros s Heq. cbv in Heq. discriminate Heq. Qed.

Lemma no_throw_bind {A B} (c : comp St A) (k : A -> comp St B) :
  no_throw e c -> (forall a, no_throw e (k a)) -> no_throw e (bind c k).
Proof.
  intros Hc Hk s. unfold bind. specialize (Hc s).
  destruct (c s) as [[a|e'|] s'].
  - apply Hk.
  - simpl in *. intros [= ->]. apply Hc. reflexivity.
  - intros Heq. discriminate Heq.
Qed.

Lemma no_throw_get_state {B} (k : St -> comp St B) :
  (forall s, no_throw e (k s)) -> no_throw e (bind get_state k).
Proof. intros Hk. apply no_throw_bind; [intros s Heq; cbv in Heq; discriminate Heq|exact Hk]. Qed.

Lemma no_throw_for_each {A} l (body : Z -> A -> comp St A) a :
  (forall i a, no_throw e (body i a)) -> no_throw e (for_each l body a).
Proof.
  intros Hb. revert a. induction l as [|i l IH]; intros a; simpl.
  - apply no_throw_ret.
  - apply no_throw_bind; auto.
Qed.

Lemma no_throw_zoom {T A} (get : St -> T) set (c : comp T A) :
  no_throw e c -> no_throw e (zoom get set c).
Proof.
  intros Hc s. unfold zoom. specialize (Hc (get s)).
  destruct (c (get s)) as [o t]. exact Hc.
Qed.

Lemma no_throw_arr_read {A} `{Inhabited A} (l : list A) i :
  no_throw e (@arr_read St A _ l i).
Proof. intros s Heq. unfold arr_read in Heq. destruct (in_array l i); cbv in Heq; discriminate Heq. Qed.
End NoThrow.

Lemma no_throw_arr_write {A} e i (x : A) : no_throw e (arr_write i x).
Proof. intros l Heq. unfold arr_write in Heq. destruct (in_array l i); cbv in Heq; discriminate Heq. Qed.

Lemma no_throw_Matrix_read e r c : no_throw e (Matrix_read r c).
Proof.
  unfold Matrix_read. apply no_throw_get_state. intros m.
  destruct (in_band m r c); [apply no_throw_arr_read|apply no_throw_fault].
Qed.

Lemma no_throw_Matrix_write e r c x : no_throw e (Matrix_write r c x).
Proof.
  unfold Matrix_write. apply no_throw_get_state. intros m.
  destruct (in_band m r c); [|apply no_throw_fault].
  apply no_throw_zoom, no_throw_arr_write.
Qed.

Lemma no_throw_on_va {A} e (c : comp (list float) A) :
  no_throw e c -> no_throw e (on_va c).
Proof.
  intros Hc v. unfold on_va. destruct (va v) as [b|]; [|intros Heq; cbv in Heq; discriminate Heq].
  specialize (Hc (cells b)). destruct (c (cells b)) as [o l]. exact Hc.
Qed.

(** [Vector::operator[]] throws index-out-of-range only. *)
Lemma no_throw_Vector_index i : no_throw IllegalArgumentException (Vector_index i).
Proof.
  unfold Vector_index. apply no_throw_get_state. intros v.
  destruct ((i <? 0) || (i >=? sz v)); [intros s Heq; cbv in Heq; discriminate Heq|].
  apply no_throw_on_va. apply no_throw_get_state. intros l. apply no_throw_arr_read.
Qed.

Lemma no_throw_Vector_index_store i x :
  no_throw IllegalArgumentException (Vector_index_store i x).
Proof.
  unfold Vector_index_store. apply no_throw_get_state. intros v.
  destruct ((i <? 0) || (i >=? sz v)); [intros s Heq; cbv in Heq; discriminate Heq|].
  apply no_throw_on_va. apply no_throw_arr_write.
Qed.

Ltac no_throw_step :=
  lazymatch goal with
  | |- no_throw _ (bind get_state _) => apply no_throw_get_state; intros ?
  | |- no_throw _ (bind _ _) => apply no_throw_bind; [|intros ?]
  | |- no_throw _ (for_up _ _ _) => apply no_throw_for_each; intros ? ?
  | |- no_throw _ (for_up_acc _ _ _ _) => apply no_throw_for_each; intros ? ?
  | |- no_throw _ (for_down _ _ _) => apply no_throw_for_each; intros ? ?
  | |- no_throw _ (mat_get _ _) => apply no_throw_zoom, no_throw_Matrix_read
  | |- no_throw _ (mat_put _ _ _) => apply no_throw_zoom, no_throw_Matrix_write
  | |- no_throw _ (rhs_get2 _ _) => apply no_throw_zoom, no_throw_Matrix_read
  | |- no_throw _ (rhs_put2 _ _ _) => apply no_throw_zoom, no_throw_Matrix_write
  | |- no_throw _ (rhs_get _) => apply no_throw_zoom, no_throw_Vector_index
  | |- no_throw _ (rhs_put _ _) => apply no_throw_zoom, no_throw_Vector_index_store
  | |- no_throw _ (lwb_get _) =>
      apply no_throw_get_state; intros ?; apply no_throw_arr_read
  | |- no_throw _ (r_get _) =>
      apply no_throw_get_state; intros ?; apply no_throw_arr_read
  | |- no_throw _ (lwb_put _ _) => apply no_throw_zoom, no_throw_arr_write
  | |- no_throw _ (r_put _ _) => apply no_throw_zoom, no_throw_arr_write
  | |- no_throw _ (ret _) => apply no_throw_ret
  | |- no_throw _ (if ?b then _ else _) => destruct b
  end.

Lemma no_throw_Vector_loops rows cols :
  no_throw IllegalArgumentException (solveLDLT_Vector_loops rows cols).
Proof. unfold solveLDLT_Vector_loops. repeat no_throw_step. Qed.

Lemma no_throw_Matrix_loops rows cols n :
  no_throw IllegalArgumentException (solveLDLT_Matrix_loops rows cols n).
Proof. unfold solveLDLT_Matrix_loops. repeat no_throw_step. Qed.

(** C4.  When [rws < cls], or when the right-hand side has not [rws]
    entries (rows), [solveLDLT] raises invalid-argument and both
    arguments are what they were; when both checks pass, it does not
    raise invalid-argument. *)
Theorem solveLDLT_preconditions (A : Matrix) :
  (forall (rhs : Vector) la ra,
     rws A < cls A \/ sz rhs <> rws A ->
     Matrix_solveLDLT_Vector la ra (A, rhs) = (Throw IllegalArgumentException, (A, rhs))) /\
  (forall (rhs : Matrix) la ra,
     rws A < cls A \/ rws rhs <> rws A ->
     Matrix_solveLDLT_Matrix la ra (A, rhs) = (Throw IllegalArgumentException, (A, rhs))) /\
  (forall (rhs : Vector) la ra,
     cls A <= rws A -> sz rhs = rws A ->
     fst (Matrix_solveLDLT_Vector la ra (A, rhs)) <> Throw IllegalArgumentException) /\
  (forall (rhs : Matrix) la ra,
     cls A <= rws A -> rws rhs = rws A ->
     fst (Matrix_solveLDLT_Matrix la ra (A, rhs)) <> Throw IllegalArgumentException).
Proof.
  split_all.
  - intros rhs la ra Hbad. unfold Matrix_solveLDLT_Vector.
    destruct (rws A <? cls A) eqn:E1; [reflexivity|]. apply Z.ltb_ge in E1.
    rewrite (proj2 (Z.eqb_neq _ _)) by lia. reflexivity.
  - intros rhs la ra Hbad. unfold Matrix_solveLDLT_Matrix.
    destruct (rws A <? cls A) eqn:E1; [reflexivity|]. apply Z.ltb_ge in E1.
    rewrite (proj2 (Z.eqb_neq _ _)) by lia. reflexivity.
  - intros rhs la ra Hc Hsz. unfold Matrix_solveLDLT_Vector.
    rewrite Zltb_false by lia. rewrite (proj2 (Z.eqb_eq _ _)) by lia. simpl negb.
    cbv iota zeta.
    match goal with |- context [solveLDLT_Vector_loops ?r ?c ?s] =>
      pose proof (no_throw_Vector_loops r c s) as Hno;
      destruct (solveLDLT_Vector_loops r c s) as [o s'] end.
    exact Hno.
  - intros rhs la ra Hc Hsz. unfold Matrix_solveLDLT_Matrix.
    rewrite Zltb_false by lia. rewrite (proj2 (Z.eqb_eq _ _)) by lia. simpl negb.
    cbv iota zeta.
    match goal with |- context [solveLDLT_Matrix_loops ?r ?c ?n ?s] =>
      pose proof (no_throw_Matrix_loops r c n s) as Hno;
      destruct (solveLDLT_Matrix_loops r c n s) as [o s'] end.
    exact Hno.
Qed.

Lemma solveLDLT_preconditions_witness :
  Matrix_solveLDLT_Vector alloc_int alloc7 (wide12, rhs3)
  = (Throw IllegalArgumentException, (wide12, rhs3)) /\
  Matrix_solveLDLT_Matrix alloc_int alloc7 (tri3, mat23)
  = (Throw IllegalArgumentException, (tri3, mat23)) /\
  fst (Matrix_solveLDLT_Vector alloc_int alloc7 (tri3, rhs3))
  <> Throw IllegalArgumentException.
Proof.
  split; [|split].
  - apply (proj1 (solveLDLT_preconditions wide12)). left. simpl. lia.
  - apply (proj1 (proj2 (solveLDLT_preconditions tri3))). right. simpl. lia.
  - apply (proj1 (proj2 (proj2 (solveLDLT_preconditions tri3)))).
    + simpl. lia.
    + reflexivity.
Defined.

(* ===================================================================== *)
(** ** The operations of [Vector], entry by entry *)
(* ===================================================================== *)

Lemma Vector_wf_some v :
  Vector_wf v ->
  exists b, va v = Some b /\ 0 <= sz v <= cap v /\ Z.of_nat (length (cells b)) = cap v.
Proof.
  unfold Vector_wf. destruct (va v) as [b|]; [|tauto]. intros [H1 H2]. eauto.
Qed.

Lemma Vector_wf_length v : Vector_wf v -> Z.of_nat (length (Vector_cells v)) = cap v.
Proof.
  intros (b & Hva & _ & Hlen)%Vector_wf_some. unfold Vector_cells. rewrite Hva. exact Hlen.
Qed.

Lemma Vector_wf_bounds v : Vector_wf v -> 0 <= sz v <= cap v.
Proof. intros (b & _ & H & _)%Vector_wf_some. exact H. Qed.

Lemma Vector_with_cells_wf v l :
  Vector_wf v -> length l = length (Vector_cells v) -> Vector_wf (Vector_with_cells v l).
Proof.
  intros Hwf Hlen. pose proof (Vector_wf_length v Hwf). pose proof (Vector_wf_bounds v Hwf).
  unfold Vector_wf. simpl. lia.
Qed.

Lemma Vector_with_cells_addr v l :
  Vector_wf v -> Vector_addr (Vector_with_cells v l) = Vector_addr v.
Proof.
  intros (b & Hva & _)%Vector_wf_some. unfold Vector_with_cells, Vector_addr. simpl.
  rewrite Hva. reflexivity.
Qed.

Lemma Vector_with_cells_elt v l i : Vector_elt (Vector_with_cells v l) i = cell l i.
Proof. reflexivity. Qed.

Lemma va_write_run v i x :
  Vector_wf v -> 0 <= i < cap v ->
  va_write i x v = (Ok tt, Vector_with_cells v (<[Z.to_nat i := x]> (Vector_cells v))).
Proof.
  intros (b & Hva & _ & Hlen)%Vector_wf_some Hi.
  unfold va_write, on_va, Vector_with_cells, Vector_cells, Vector_addr.
  rewrite Hva. rewrite arr_write_run by lia. reflexivity.
Qed.

Lemma wp_va_write v i x Q :
  Vector_wf v -> 0 <= i < cap v ->
  Q tt (Vector_with_cells v (<[Z.to_nat i := x]> (Vector_cells v))) ->
  wp (va_write i x) Q v.
Proof. intros Hwf Hi HQ. unfold wp. rewrite va_write_run by assumption. exact HQ. Qed.

(** A loop [for (i = 0; i < n; i++) va[i] = g i], whose body may read
    the cells it has not written yet. *)
Lemma wp_fill (n : Z) (g : Z -> float) (body : Z -> comp Vector unit) (r0 : Vector)
    (Q : unit -> Vector -> Prop) :
  Vector_wf r0 -> 0 <= n <= cap r0 ->
  (forall i r (Q' : unit -> Vector -> Prop),
      0 <= i < n -> Vector_wf r -> cap r = cap r0 ->
      (forall j, i <= j < cap r0 -> Vector_elt r j = Vector_elt r0 j) ->
      Q' tt (Vector_with_cells r (<[Z.to_nat i := g i]> (Vector_cells r))) ->
      wp (body i) Q' r) ->
  (forall r, Vector_wf r -> sz r = sz r0 -> cap r = cap r0 ->
             Vector_addr r = Vector_addr r0 ->
             (forall i, 0 <= i < n -> Vector_elt r i = g i) ->
             (forall i, n <= i < cap r0 -> Vector_elt r i = Vector_elt r0 i) ->
             Q tt r) ->
  wp (for_up 0 n body) Q r0.
Proof.
  intros Hwf Hn Hbody HQ.
  apply (wp_for_up (fun k r =>
           Vector_wf r /\ sz r = sz r0 /\ cap r = cap r0 /\
           Vector_addr r = Vector_addr r0 /\
           (forall i, 0 <= i < k -> Vector_elt r i = g i) /\
           (forall i, k <= i < cap r0 -> Vector_elt r i = Vector_elt r0 i))).
  - lia.
  - split_all; try reflexivity; [exact Hwf|intros; lia].
  - intros i r Hi (Hr & Hs & Hc & Ha & Hlo & Hhi).
    apply Hbody; try assumption.
    pose proof (Vector_wf_length r Hr) as Hlen.
    split_all.
    + apply Vector_with_cells_wf; [exact Hr|apply length_insert].
    + exact Hs.
    + exact Hc.
    + rewrite Vector_with_cells_addr by exact Hr. exact Ha.
    + intros j Hj. rewrite Vector_with_cells_elt.
      destruct (decide (j = i)) as [->|Hne].
      * apply cell_insert_eq. lia.
      * rewrite cell_insert_ne by lia. apply Hlo. lia.
    + intros j Hj. rewrite Vector_with_cells_elt.
      rewrite cell_insert_ne by lia. apply Hhi. lia.
  - intros r (Hr & Hs & Hc & Ha & Hlo & Hhi). apply HQ; assumption.
Qed.

Lemma Vector_Vector_run n zeroInit a :
  0 <= n ->
  Vector_Vector n zeroInit a =
  Ok {| va := Some {| addr := new_addr a;
                      cells := if zeroInit then zero_fill 0 n (tab n (new_cells a))
                               else tab n (new_cells a) |};
        sz := n; cap := n |}.
Proof.
  intros Hn. unfold Vector_Vector, construct, bind, new_double.
  rewrite !Zltb_false by lia. simpl.
  destruct zeroInit; simpl; [|reflexivity].
  unfold on_va. simpl. rewrite memset0_run; [reflexivity|lia|lia|rewrite length_tab; lia].
Qed.

(** The local [Vector result(sz, false)] of the operators that return a
    new vector. *)
Lemma wp_result (n : Z) (a : allocation float) (loop : comp Vector unit) (this : Vector)
    (Q : Vector -> Vector -> Prop) :
  0 <= n ->
  wp loop (fun _ r => Q r this)
     {| va := Some {| addr := new_addr a; cells := tab n (new_cells a) |};
        sz := n; cap := n |} ->
  wp (let* result := declare (Vector_Vector n false a) in local result loop) Q this.
Proof.
  intros Hn Hloop. apply wp_bind, wp_declare. eexists. split.
  - apply Vector_Vector_run. exact Hn.
  - apply wp_local. exact Hloop.
Qed.

Lemma fresh_wf n (a : allocation float) :
  0 <= n ->
  Vector_wf {| va := Some {| addr := new_addr a; cells := tab n (new_cells a) |};
               sz := n; cap := n |}.
Proof. intros Hn. unfold Vector_wf. simpl. rewrite length_tab. lia. Qed.

(** X1.  [Vector(vSize, zeroInit)] throws invalid-argument for a negative
    size and no vector comes into existence.  For [vSize >= 0] it gives
    a vector with [sz = cap = vSize] in a new buffer; its entries are all
    [0.0] when [zeroInit] is set and are what the allocation held
    otherwise. *)
Theorem Vector_constructor (vSize : Z) (zeroInit : bool) (a : allocation float) :
  (vSize < 0 -> Vector_Vector vSize zeroInit a = Throw IllegalArgumentException) /\
  (0 <= vSize ->
   exists v,
     Vector_Vector vSize zeroInit a = Ok v /\
     Vector_wf v /\ sz v = vSize /\ cap v = vSize /\
     Vector_addr v = Some (new_addr a) /\
     forall i, 0 <= i < vSize ->
               Vector_elt v i = if zeroInit then 0%float else new_cells a i).
Proof.
  split.
  - intros Hneg. unfold Vector_Vector, construct.
    rewrite (proj2 (Z.ltb_lt _ _)) by lia. reflexivity.
  - intros Hn. rewrite Vector_Vector_run by exact Hn. eexists. split; [reflexivity|].
    pose proof (length_tab vSize (new_cells a)) as Hlen.
    unfold Vector_wf, Vector_elt, Vector_cells, Vector_addr. simpl.
    split_all; try reflexivity; try lia.
    + destruct zeroInit; [rewrite length_zero_fill|]; lia.
    + intros i Hi. destruct zeroInit.
      * apply cell_zero_fill_in; lia.
      * apply cell_tab. exact Hi.
Qed.

Lemma Vector_constructor_witness :
  Vector_Vector (-1) true alloc7 = Throw IllegalArgumentException /\
  exists v,
    Vector_Vector 3 true alloc7 = Ok v /\
    Vector_wf v /\ sz v = 3 /\ cap v = 3 /\
    Vector_addr v = Some (new_addr alloc7) /\
    forall i, 0 <= i < 3 -> Vector_elt v i = 0%float.
Proof.
  split.
  - apply (proj1 (Vector_constructor (-1) true alloc7)). lia.
  - apply (proj2 (Vector_constructor 3 true alloc7)). lia.
Defined.

(** X2.  The copy constructor allocates a new buffer of exactly [cp.sz]
    cells, so the capacity of the copy is the size of the original and
    not its capacity, and the copy has the entries [0 .. sz-1] of the
    original. *)
Theorem Vector_copy_deep (cp : Vector) (a : allocation float) :
  Vector_wf cp ->
  exists v,
    Vector_copy cp a = Ok v /\
    Vector_wf v /\ sz v = sz cp /\ cap v = sz cp /\
    Vector_addr v = Some (new_addr a) /\
    forall i, 0 <= i < sz cp -> Vector_elt v i = Vector_elt cp i.
Proof.
  intros Hwf. pose proof Hwf as (b & Hva & Hsz & Hlen)%Vector_wf_some.
  pose proof (length_tab (sz cp) (new_cells a)) as Hfresh.
  unfold Vector_copy, construct, bind, new_double.
  rewrite Zltb_false by lia. simpl. rewrite Hva. unfold on_va. simpl.
  rewrite memmove_run by lia. simpl.
  eexists. split; [reflexivity|].
  unfold Vector_wf, Vector_elt, Vector_cells, Vector_addr. simpl. rewrite Hva.
  split_all; try reflexivity; try lia.
  - rewrite length_copy_prefix; lia.
  - intros i Hi. apply cell_copy_prefix_lt; lia.
Qed.

Lemma Vector_copy_deep_witness :
  exists v,
    Vector_copy vec35 alloc7 = Ok v /\
    Vector_wf v /\ sz v = 3 /\ cap v = 3 /\
    Vector_addr v = Some 64 /\
    forall i, 0 <= i < 3 -> Vector_elt v i = Vector_elt vec35 i.
Proof.
  apply (Vector_copy_deep vec35 alloc7). unfold Vector_wf. simpl. lia.
Defined.

(** X3.  [this = src] gives [this] the size and the entries of [src].
    When [src.sz] lies in [[cap/2, cap]] the buffer of [this] is kept:
    same address, same capacity, and the cells from [src.sz] on keep
    their contents.  Otherwise [this] gets a new buffer of [src.sz]
    cells. *)
Theorem Vector_assign_copies (this src : Vector) (a : allocation float) :
  Vector_wf this -> Vector_wf src ->
  exists v',
    Vector_assign src a this = (Ok tt, v') /\
    Vector_wf v' /\ sz v' = sz src /\
    (forall i, 0 <= i < sz src -> Vector_elt v' i = Vector_elt src i) /\
    (cap this ÷ 2 <= sz src <= cap this ->
       cap v' = cap this /\ Vector_addr v' = Vector_addr this /\
       forall i, sz src <= i < cap this -> Vector_elt v' i = Vector_elt this i) /\
    (~ (cap this ÷ 2 <= sz src <= cap this) ->
       cap v' = sz src /\ Vector_addr v' = Some (new_addr a)).
Proof.
  intros Hthis Hsrc.
  pose proof Hsrc as (bs & Hvas & Hszs & Hlens)%Vector_wf_some.
  destruct this as [[b|] s c]; [|contradiction].
  destruct Hthis as [Hsz Hlen]. simpl in Hsz, Hlen.
  unfold Vector_assign. unfold bind at 1.
  destruct (decide (c ÷ 2 <= sz src <= c)) as [Hwin|Hout].
  - rewrite Vector_setSize_window by assumption. simpl.
    unfold bind, get_state. rewrite Hvas. unfold on_va. simpl.
    rewrite memmove_run by lia. simpl.
    eexists. split; [reflexivity|].
    unfold Vector_wf, Vector_elt, Vector_cells, Vector_addr. simpl. rewrite Hvas.
    split_all; try reflexivity; try lia.
    + rewrite length_copy_prefix; lia.
    + intros i Hi. apply cell_copy_prefix_lt; lia.
    + intros _. split_all; try reflexivity.
      intros i Hi. apply cell_copy_prefix_ge; lia.
  - rewrite Vector_setSize_realloc by (assumption || lia). simpl.
    unfold bind, get_state. rewrite Hvas. unfold on_va. simpl.
    pose proof (length_tab (sz src) (new_cells a)) as Hfresh.
    rewrite memmove_run by lia. simpl.
    eexists. split; [reflexivity|].
    unfold Vector_wf, Vector_elt, Vector_cells, Vector_addr. simpl. rewrite Hvas.
    split_all; try reflexivity; try lia.
    + rewrite length_copy_prefix; lia.
    + intros i Hi. apply cell_copy_prefix_lt; lia.
    + intros _. split; reflexivity.
Qed.

Lemma Vector_assign_copies_witness :
  exists v',
    Vector_assign vec35 alloc7 vec4 = (Ok tt, v') /\
    Vector_wf v' /\ sz v' = 3 /\
    (forall i, 0 <= i < 3 -> Vector_elt v' i = Vector_elt vec35 i) /\
    cap v' = 4 /\ Vector_addr v' = Some 16 /\
    Vector_elt v' 3 = 4%float.
Proof.
  destruct (Vector_assign_copies vec4 vec35 alloc7) as (v' & Hrun & Hwf & Hsz & Helt & Hin & _).
  - unfold Vector_wf. simpl. lia.
  - unfold Vector_wf. simpl. lia.
  - exists v'. destruct Hin as (Hcap & Haddr & Hrest).
    + simpl. change (4 ÷ 2) with 2. lia.
    + split_all; try assumption. apply (Hrest 3). simpl. lia.
Defined.

(** X4.  [operator[]] checks the index against the size, not the
    capacity: for [idx < 0] or [idx >= sz] both the read and the store
    throw index-out-of-bounds and the vector is left as it was, also when
    [idx < cap]; for [0 <= idx < sz] the read returns [va[idx]] and
    changes nothing. *)
Theorem Vector_index_bounds (v : Vector) (idx : Z) (x : float) :
  Vector_wf v ->
  (idx < 0 \/ sz v <= idx ->
     Vector_index idx v = (Throw IndexOutOfBoundsException, v) /\
     Vector_index_store idx x v = (Throw IndexOutOfBoundsException, v)) /\
  (0 <= idx < sz v -> Vector_index idx v = (Ok (Vector_elt v idx), v)).
Proof.
  intros Hwf. pose proof (Vector_wf_bounds v Hwf) as Hb. split.
  - intros Hout. unfold Vector_index, Vector_index_store, bind, get_state.
    replace ((idx <? 0) || (idx >=? sz v)) with true; [split; reflexivity|].
    symmetry. apply orb_true_iff. destruct Hout as [Hneg|Hge].
    + left. apply Z.ltb_lt. exact Hneg.
    + right. apply Zgeb_true. exact Hge.
  - intros Hin. unfold Vector_index, bind, get_state.
    rewrite Zltb_false by lia. rewrite Z.geb_leb, (proj2 (Z.leb_gt _ _)) by lia. simpl.
    pose proof Hwf as (b & Hva & _ & Hlen)%Vector_wf_some.
    rewrite (va_read_run v b) by (auto; lia).
    unfold Vector_elt, Vector_cells. rewrite Hva. reflexivity.
Qed.

Lemma Vector_index_bounds_witness :
  Vector_index 3 vec35 = (Throw IndexOutOfBoundsException, vec35) /\
  Vector_index_store (-1) 0%float vec35 = (Throw IndexOutOfBoundsException, vec35) /\
  Vector_index 2 vec35 = (Ok 3%float, vec35).
Proof.
  assert (Hwf : Vector_wf vec35) by (unfold Vector_wf; simpl; lia).
  split; [|split].
  - apply (proj1 (Vector_index_bounds vec35 3 0%float Hwf)). right. simpl. lia.
  - apply (proj1 (Vector_index_bounds vec35 (-1) 0%float Hwf)). left. lia.
  - apply (proj2 (Vector_index_bounds vec35 2 0%float Hwf)). simpl. lia.
Defined.

(** X5.  After [v[idx] = x] with [0 <= idx < sz], reading [v[idx]]
    returns [x], every other index reads as before, the cells beyond the
    size are untouched, and size, capacity and buffer address are the
    same. *)
Theorem Vector_index_store_then_read (v : Vector) (idx : Z) (x : float) :
  Vector_wf v -> 0 <= idx < sz v ->
  exists v',
    Vector_index_store idx x v = (Ok tt, v') /\
    Vector_wf v' /\ sz v' = sz v /\ cap v' = cap v /\ Vector_addr v' = Vector_addr v /\
    Vector_index idx v' = (Ok x, v') /\
    (forall j, 0 <= j < sz v -> j <> idx -> Vector_index j v' = (Ok (Vector_elt v j), v')) /\
    (forall j, 0 <= j < cap v -> j <> idx -> Vector_elt v' j = Vector_elt v j).
Proof.
  intros Hwf Hidx. pose proof (Vector_wf_bounds v Hwf) as Hb.
  pose proof (Vector_wf_length v Hwf) as Hlen.
  set (v' := Vector_with_cells v (<[Z.to_nat idx := x]> (Vector_cells v))).
  assert (Hwf' : Vector_wf v').
  { apply Vector_with_cells_wf; [exact Hwf|apply length_insert]. }
  assert (Hget : forall j, 0 <= j < sz v -> Vector_index j v' = (Ok (Vector_elt v' j), v')).
  { intros j Hj. unfold Vector_index, bind, get_state.
    change (sz v') with (sz v).
    rewrite Zltb_false by lia. rewrite Z.geb_leb, (proj2 (Z.leb_gt _ _)) by lia. simpl.
    pose proof Hwf' as (b & Hva & _ & Hlen')%Vector_wf_some.
    rewrite (va_read_run v' b) by (auto; change (cap v') with (cap v) in Hlen'; lia).
    unfold Vector_elt, Vector_cells. rewrite Hva. reflexivity. }
  exists v'. split_all.
  - unfold Vector_index_store, bind, get_state.
    rewrite Zltb_false by lia. rewrite Z.geb_leb, (proj2 (Z.leb_gt _ _)) by lia. simpl.
    apply va_write_run; [exact Hwf|lia].
  - exact Hwf'.
  - reflexivity.
  - reflexivity.
  - apply Vector_with_cells_addr. exact Hwf.
  - rewrite Hget by lia. unfold v'. rewrite Vector_with_cells_elt.
    rewrite cell_insert_eq by lia. reflexivity.
  - intros j Hj Hne. rewrite Hget by lia. unfold v'. rewrite Vector_with_cells_elt.
    rewrite cell_insert_ne by lia. reflexivity.
  - intros j Hj Hne. unfold v'. rewrite Vector_with_cells_elt.
    rewrite cell_insert_ne by lia. reflexivity.
Qed.

Lemma Vector_index_store_then_read_witness :
  exists v',
    Vector_index_store 1 7%float vec35 = (Ok tt, v') /\
    Vector_index 1 v' = (Ok 7%float, v') /\
    Vector_index 2 v' = (Ok 3%float, v').
Proof.
  destruct (Vector_index_store_then_read vec35 1 7%float)
    as (v' & Hrun & _ & _ & _ & _ & Hsame & Hother & _).
  - unfold Vector_wf. simpl. lia.
  - simpl. lia.
  - exists v'. split; [exact Hrun|]. split; [exact Hsame|].
    apply (Hother 2); simpl; lia.
Defined.

(** X6.  [clear()] sets the entries [0 .. sz-1] to [0.0] and keeps the
    size, the capacity, the buffer and the cells from [sz] on. *)
Theorem Vector_clear_zeroes (v : Vector) :
  Vector_wf v ->
  exists v',
    Vector_clear v = (Ok tt, v') /\
    Vector_wf v' /\ sz v' = sz v /\ cap v' = cap v /\ Vector_addr v' = Vector_addr v /\
    (forall i, 0 <= i < sz v -> Vector_elt v' i = 0%float) /\
    (forall i, sz v <= i < cap v -> Vector_elt v' i = Vector_elt v i).
Proof.
  intros Hwf. pose proof Hwf as (b & Hva & Hsz & Hlen)%Vector_wf_some.
  unfold Vector_clear, bind, get_state, on_va. rewrite Hva.
  rewrite memset0_run by lia.
  eexists. split; [reflexivity|].
  unfold Vector_wf, Vector_elt, Vector_cells, Vector_addr. simpl. rewrite Hva.
  split_all; try reflexivity; try lia.
  - rewrite length_zero_fill; lia.
  - intros i Hi. apply cell_zero_fill_in; lia.
  - intros i Hi. apply cell_zero_fill_out; lia.
Qed.

Lemma Vector_clear_zeroes_witness :
  exists v',
    Vector_clear vec35 = (Ok tt, v') /\
    Vector_wf v' /\ sz v' = 3 /\ cap v' = 5 /\ Vector_addr v' = Some 192 /\
    (forall i, 0 <= i < 3 -> Vector_elt v' i = 0%float) /\
    (forall i, 3 <= i < 5 -> Vector_elt v' i = Vector_elt vec35 i).
Proof.
  apply (Vector_clear_zeroes vec35). unfold Vector_wf. simpl. lia.
Defined.

(** The shape the three operators that return a new vector share, and
    the shape of the three compound assignments. *)
Lemma wp_elementwise (this : Vector) (n : Z) (a : allocation float)
    (body : Z -> comp Vector unit) (g : Z -> float) :
  0 <= n ->
  (forall i r (Q' : unit -> Vector -> Prop),
      0 <= i < n -> Vector_wf r -> cap r = n ->
      Q' tt (Vector_with_cells r (<[Z.to_nat i := g i]> (Vector_cells r))) ->
      wp (body i) Q' r) ->
  wp (let* result := declare (Vector_Vector n false a) in
      local result (for_up 0 n body))
     (fun r s => s = this /\ Vector_wf r /\ sz r = n /\ cap r = n /\
                 Vector_addr r = Some (new_addr a) /\
                 forall i, 0 <= i < n -> Vector_elt r i = g i)
     this.
Proof.
  intros Hn Hbody. apply wp_result; [exact Hn|].
  apply (wp_fill n g); [apply fresh_wf; exact Hn|simpl; lia| |].
  - intros i r Q' Hi Hr Hc _ HQ. apply Hbody; assumption.
  - intros r Hr Hs Hc Ha Hlo _. split_all; auto.
Qed.

Lemma wp_elementwise_assign (v : Vector) (body : Z -> comp Vector unit) (g : Z -> float) :
  Vector_wf v ->
  (forall i r (Q' : unit -> Vector -> Prop),
      0 <= i < sz v -> Vector_wf r -> cap r = cap v ->
      Vector_elt r i = Vector_elt v i ->
      Q' tt (Vector_with_cells r (<[Z.to_nat i := g i]> (Vector_cells r))) ->
      wp (body i) Q' r) ->
  wp (for_up 0 (sz v) body)
     (fun _ r => Vector_wf r /\ sz r = sz v /\ cap r = cap v /\
                 Vector_addr r = Vector_addr v /\
                 (forall i, 0 <= i < sz v -> Vector_elt r i = g i) /\
                 (forall i, sz v <= i < cap v -> Vector_elt r i = Vector_elt v i))
     v.
Proof.
  intros Hwf Hbody. pose proof (Vector_wf_bounds v Hwf) as Hb.
  apply (wp_fill (sz v) g); [exact Hwf|lia| |].
  - intros i r Q' Hi Hr Hc Hrest HQ. apply Hbody; try assumption. apply Hrest. lia.
  - intros r Hr Hs Hc Ha Hlo Hhi. split_all; auto.
Qed.

Lemma wp_binary_body (op : float -> float -> float) (v w r : Vector) i
    (Q' : unit -> Vector -> Prop) :
  Vector_wf v -> Vector_wf w -> sz v = sz w -> 0 <= i < sz v ->
  Vector_wf r -> cap r = sz v ->
  Q' tt (Vector_with_cells r
           (<[Z.to_nat i := op (Vector_elt v i) (Vector_elt w i)]> (Vector_cells r))) ->
  wp (let* x := peek v (va_read i) in
      let* y := peek w (va_read i) in
      va_write i (op x y)) Q' r.
Proof.
  intros Hv Hw Hsz Hi Hr Hc HQ.
  pose proof (Vector_wf_bounds v Hv). pose proof (Vector_wf_bounds w Hw).
  apply wp_bind, wp_peek. apply wp_va_read; [exact Hv|lia|].
  apply wp_bind, wp_peek. apply wp_va_read; [exact Hw|lia|].
  apply wp_va_write; [exact Hr|lia|exact HQ].
Qed.

Lemma wp_binary_assign_body (op : float -> float -> float) (v w r : Vector) i
    (Q' : unit -> Vector -> Prop) :
  Vector_wf v -> Vector_wf w -> sz v = sz w -> 0 <= i < sz v ->
  Vector_wf r -> cap r = cap v -> Vector_elt r i = Vector_elt v i ->
  Q' tt (Vector_with_cells r
           (<[Z.to_nat i := op (Vector_elt v i) (Vector_elt w i)]> (Vector_cells r))) ->
  wp (let* x := va_read i in
      let* y := peek w (va_read i) in
      va_write i (op x y)) Q' r.
Proof.
  intros Hv Hw Hsz Hi Hr Hc Helt HQ.
  pose proof (Vector_wf_bounds v Hv). pose proof (Vector_wf_bounds w Hw).
  apply wp_bind. apply wp_va_read; [exact Hr|lia|]. rewrite Helt.
  apply wp_bind, wp_peek. apply wp_va_read; [exact Hw|lia|].
  apply wp_va_write; [exact Hr|lia|exact HQ].
Qed.

Lemma size_test_true (v w : Vector) : sz v <> sz w -> negb (sz v =? sz w) = true.
Proof. intros Hne. apply negb_true_iff, Z.eqb_neq. exact Hne. Qed.

Lemma size_test_false (v w : Vector) : sz v = sz w -> negb (sz v =? sz w) = false.
Proof. intros Heq. apply negb_false_iff, Z.eqb_eq. exact Heq. Qed.

(** X7.  [v + w] and [v - w] throw invalid-argument when the sizes
    differ.  For equal sizes they return a new vector with
    [sz = cap = v.sz] whose entry [i] is [v[i] + w[i]], respectively
    [v[i] - w[i]]; in both cases [v] is left as it was. *)
Theorem Vector_add_sub_elementwise (v w : Vector) (a : allocation float) :
  Vector_wf v -> Vector_wf w ->
  (sz v <> sz w ->
     Vector_add w a v = (Throw IllegalArgumentException, v) /\
     Vector_sub w a v = (Throw IllegalArgumentException, v)) /\
  (sz v = sz w ->
     exists p d,
       Vector_add w a v = (Ok p, v) /\ Vector_sub w a v = (Ok d, v) /\
       Vector_wf p /\ sz p = sz v /\ cap p = sz v /\
       Vector_wf d /\ sz d = sz v /\ cap d = sz v /\
       forall i, 0 <= i < sz v ->
         Vector_elt p i = (Vector_elt v i + Vector_elt w i)%float /\
         Vector_elt d i = (Vector_elt v i - Vector_elt w i)%float).
Proof.
  intros Hv Hw. pose proof (Vector_wf_bounds v Hv) as Hb. split.
  - intros Hne. unfold Vector_add, Vector_sub, bind, get_state.
    rewrite size_test_true by exact Hne. split; reflexivity.
  - intros Heq.
    assert (Hbin : forall op : float -> float -> float,
      wp (let* this := get_state in
          if negb (sz this =? sz w) then throw IllegalArgumentException
          else
            let* result := declare (Vector_Vector (sz this) false a) in
            local result
              (for_up 0 (sz this) (fun i =>
                 let* x := peek this (va_read i) in
                 let* y := peek w (va_read i) in
                 va_write i (op x y))))
         (fun r s => s = v /\ Vector_wf r /\ sz r = sz v /\ cap r = sz v /\
                     Vector_addr r = Some (new_addr a) /\
                     forall i, 0 <= i < sz v ->
                               Vector_elt r i = op (Vector_elt v i) (Vector_elt w i))
         v).
    { intros op. apply wp_bind, wp_get_state. rewrite size_test_false by exact Heq.
      apply wp_elementwise; [lia|].
      intros i r Q' Hi Hr Hc HQ. apply wp_binary_body; assumption. }
    destruct (proj1 (wp_run _ _ _) (Hbin PrimFloat.add))
      as (p & s1 & Hadd & -> & Hp & Hps & Hpc & _ & Hpe).
    destruct (proj1 (wp_run _ _ _) (Hbin PrimFloat.sub))
      as (d & s2 & Hsub & -> & Hd & Hds & Hdc & _ & Hde).
    exists p, d. split; [exact Hadd|]. split; [exact Hsub|].
    split_all; try assumption.
    intros i Hi. split; [apply Hpe|apply Hde]; exact Hi.
Qed.

Lemma Vector_add_sub_elementwise_witness :
  fst (Vector_add vec35 alloc7 vec4) = Throw IllegalArgumentException /\
  exists p d,
    Vector_add vec4b alloc7 vec4 = (Ok p, vec4) /\
    Vector_sub vec4b alloc7 vec4 = (Ok d, vec4) /\
    Vector_elt p 2 = (3 + 30)%float /\ Vector_elt d 2 = (3 - 30)%float.
Proof.
  assert (H4 : Vector_wf vec4) by (unfold Vector_wf; simpl; lia).
  assert (H4b : Vector_wf vec4b) by (unfold Vector_wf; simpl; lia).
  assert (H35 : Vector_wf vec35) by (unfold Vector_wf; simpl; lia).
  split.
  - destruct (proj1 (Vector_add_sub_elementwise vec4 vec35 alloc7 H4 H35)) as [Hadd _].
    + simpl. lia.
    + rewrite Hadd. reflexivity.
  - destruct (proj2 (Vector_add_sub_elementwise vec4 vec4b alloc7 H4 H4b))
      as (p & d & Hadd & Hsub & _ & _ & _ & _ & _ & _ & Helt).
    + reflexivity.
    + exists p, d. split; [exact Hadd|]. split; [exact Hsub|].
      apply (Helt 2). simpl. lia.
Defined.

(** X8.  [v += w] and [v -= w] throw invalid-argument when the sizes
    differ and then leave [v] as it was.  For equal sizes the entries
    [0 .. sz-1] of [v] become [v[i] + w[i]], respectively [v[i] - w[i]]
    (what [operator+] and [operator-] compute); size, capacity, buffer
    address and the cells from [sz] on stay the same. *)
Theorem Vector_add_sub_assign_elementwise (v w : Vector) :
  Vector_wf v -> Vector_wf w ->
  (sz v <> sz w ->
     Vector_add_assign w v = (Throw IllegalArgumentException, v) /\
     Vector_sub_assign w v = (Throw IllegalArgumentException, v)) /\
  (sz v = sz w ->
     exists p d,
       Vector_add_assign w v = (Ok tt, p) /\ Vector_sub_assign w v = (Ok tt, d) /\
       Vector_wf p /\ sz p = sz v /\ cap p = cap v /\ Vector_addr p = Vector_addr v /\
       Vector_wf d /\ sz d = sz v /\ cap d = cap v /\ Vector_addr d = Vector_addr v /\
       (forall i, 0 <= i < sz v ->
          Vector_elt p i = (Vector_elt v i + Vector_elt w i)%float /\
          Vector_elt d i = (Vector_elt v i - Vector_elt w i)%float) /\
       (forall i, sz v <= i < cap v ->
          Vector_elt p i = Vector_elt v i /\ Vector_elt d i = Vector_elt v i)).
Proof.
  intros Hv Hw. split.
  - intros Hne. unfold Vector_add_assign, Vector_sub_assign, bind, get_state.
    rewrite size_test_true by exact Hne. split; reflexivity.
  - intros Heq.
    assert (Hbin : forall op : float -> float -> float,
      wp (let* this := get_state in
          if negb (sz this =? sz w) then throw IllegalArgumentException
          else
            for_up 0 (sz this) (fun i =>
              let* x := va_read i in
              let* y := peek w (va_read i) in
              va_write i (op x y)))
         (fun _ r => Vector_wf r /\ sz r = sz v /\ cap r = cap v /\
                     Vector_addr r = Vector_addr v /\
                     (forall i, 0 <= i < sz v ->
                                Vector_elt r i = op (Vector_elt v i) (Vector_elt w i)) /\
                     (forall i, sz v <= i < cap v -> Vector_elt r i = Vector_elt v i))
         v).
    { intros op. apply wp_bind, wp_get_state. rewrite size_test_false by exact Heq.
      apply wp_elementwise_assign; [exact Hv|].
      intros i r Q' Hi Hr Hc Helt HQ. apply (wp_binary_assign_body op v w); assumption. }
    destruct (proj1 (wp_run _ _ _) (Hbin PrimFloat.add))
      as ([] & p & Hadd & Hp & Hps & Hpc & Hpa & Hpe & Hpr).
    destruct (proj1 (wp_run _ _ _) (Hbin PrimFloat.sub))
      as ([] & d & Hsub & Hd & Hds & Hdc & Hda & Hde & Hdr).
    exists p, d. split; [exact Hadd|]. split; [exact Hsub|].
    split_all; try assumption.
    + intros i Hi. split; [apply Hpe|apply Hde]; exact Hi.
    + intros i Hi. split; [apply Hpr|apply Hdr]; exact Hi.
Qed.

Lemma Vector_add_sub_assign_elementwise_witness :
  Vector_add_assign vec35 vec4 = (Throw IllegalArgumentException, vec4) /\
  exists p d,
    Vector_add_assign vec4b vec4 = (Ok tt, p) /\
    Vector_sub_assign vec4b vec4 = (Ok tt, d) /\
    Vector_elt p 0 = (1 + 10)%float /\ Vector_elt d 0 = (1 - 10)%float.
Proof.
  assert (H4 : Vector_wf vec4) by (unfold Vector_wf; simpl; lia).
  assert (H4b : Vector_wf vec4b) by (unfold Vector_wf; simpl; lia).
  assert (H35 : Vector_wf vec35) by (unfold Vector_wf; simpl; lia).
  split.
  - apply (proj1 (Vector_add_sub_assign_elementwise vec4 vec35 H4 H35)). simpl. lia.
  - destruct (proj2 (Vector_add_sub_assign_elementwise vec4 vec4b H4 H4b))
      as (p & d & Hadd & Hsub & _ & _ & _ & _ & _ & _ & _ & _ & Helt & _).
    + reflexivity.
    + exists p, d. split; [exact Hadd|]. split; [exact Hsub|].
      apply (Helt 0). simpl. lia.
Defined.

(** X9.  [v * fact] returns a new vector with [sz = cap = v.sz] and the
    entries [v[i] * fact], leaving [v] as it was; [v *= fact] puts the
    same values into the entries [0 .. sz-1] of [v] and keeps its size,
    capacity, buffer address and the cells from [sz] on.  Neither throws. *)
Theorem Vector_scale_elementwise (v : Vector) (fact : float) (a : allocation float) :
  Vector_wf v ->
  exists p q,
    Vector_scale fact a v = (Ok p, v) /\ Vector_scale_assign fact v = (Ok tt, q) /\
    Vector_wf p /\ sz p = sz v /\ cap p = sz v /\
    Vector_wf q /\ sz q = sz v /\ cap q = cap v /\ Vector_addr q = Vector_addr v /\
    (forall i, 0 <= i < sz v ->
       Vector_elt p i = (Vector_elt v i * fact)%float /\
       Vector_elt q i = (Vector_elt v i * fact)%float) /\
    (forall i, sz v <= i < cap v -> Vector_elt q i = Vector_elt v i).
Proof.
  intros Hv. pose proof (Vector_wf_bounds v Hv) as Hb.
  assert (Hnew : wp (Vector_scale fact a)
       (fun r s => s = v /\ Vector_wf r /\ sz r = sz v /\ cap r = sz v /\
                   Vector_addr r = Some (new_addr a) /\
                   forall i, 0 <= i < sz v ->
                             Vector_elt r i = (Vector_elt v i * fact)%float)
       v).
  { unfold Vector_scale. apply wp_bind, wp_get_state.
    apply wp_elementwise; [lia|].
    intros i r Q' Hi Hr Hc HQ.
    apply wp_bind, wp_peek. apply wp_va_read; [exact Hv|lia|].
    apply wp_va_write; [exact Hr|lia|exact HQ]. }
  assert (Hin : wp (Vector_scale_assign fact)
       (fun _ r => Vector_wf r /\ sz r = sz v /\ cap r = cap v /\
                   Vector_addr r = Vector_addr v /\
                   (forall i, 0 <= i < sz v ->
                              Vector_elt r i = (Vector_elt v i * fact)%float) /\
                   (forall i, sz v <= i < cap v -> Vector_elt r i = Vector_elt v i))
       v).
  { unfold Vector_scale_assign. apply wp_bind, wp_get_state.
    apply wp_elementwise_assign; [exact Hv|].
    intros i r Q' Hi Hr Hc Helt HQ.
    apply wp_bind. apply wp_va_read; [exact Hr|lia|]. rewrite Helt.
    apply wp_va_write; [exact Hr|lia|exact HQ]. }
  apply wp_run in Hnew as (p & s1 & Hrun1 & -> & Hp & Hps & Hpc & _ & Hpe).
  apply wp_run in Hin as ([] & q & Hrun2 & Hq & Hqs & Hqc & Hqa & Hqe & Hqr).
  exists p, q. split_all; try assumption.
  intros i Hi. split; [apply Hpe|apply Hqe]; exact Hi.
Qed.

Lemma Vector_scale_elementwise_witness :
  exists p q,
    Vector_scale 2%float alloc7 vec35 = (Ok p, vec35) /\
    Vector_scale_assign 2%float vec35 = (Ok tt, q) /\
    sz p = 3 /\ cap p = 3 /\ cap q = 5 /\
    Vector_elt p 1 = (2 * 2)%float /\ Vector_elt q 1 = (2 * 2)%float /\
    Vector_elt q 4 = 9%float.
Proof.
  destruct (Vector_scale_elementwise vec35 2%float alloc7)
    as (p & q & H1 & H2 & _ & Hps & Hpc & _ & _ & Hqc & _ & Helt & Hrest).
  - unfold Vector_wf. simpl. lia.
  - exists p, q. split_all; try assumption.
    + apply (Helt 1). simpl. lia.
    + apply (Helt 1). simpl. lia.
    + apply (Hrest 4). simpl. lia.
Defined.

(* ===================================================================== *)
(** ** Inner product and length *)
(* ===================================================================== *)

Lemma dot_cells_nil x y n : n <= 0 -> dot_cells x y n = 0%float.
Proof. intros Hn. unfold dot_cells. rewrite seqZ_nil by lia. reflexivity. Qed.

Lemma dot_cells_snoc x y k :
  0 <= k -> dot_cells x y (k + 1) = (dot_cells x y k + cell x k * cell y k)%float.
Proof.
  intros Hk. unfold dot_cells. rewrite seqZ_app by lia. rewrite fold_left_app.
  reflexivity.
Qed.

Lemma dot_cells_max x y n : dot_cells x y (Z.max 0 n) = dot_cells x y n.
Proof.
  destruct (decide (0 <= n)).
  - rewrite Z.max_r by lia. reflexivity.
  - rewrite Z.max_l by lia. rewrite !dot_cells_nil by lia. reflexivity.
Qed.

Lemma dot_cells_comm x y n : dot_cells x y n = dot_cells y x n.
Proof.
  unfold dot_cells. generalize 0%float. generalize (seqZ 0 n).
  intros l. induction l as [|i l IH]; intros acc; simpl; [reflexivity|].
  rewrite (mul_comm (cell x i)). apply IH.
Qed.

(** [acc = 0.0; for (i = 0; i < n; i++) acc += x[i] * y[i]] on a state
    the body leaves alone. *)
Lemma wp_sum_loop {St} (s0 : St) (x y : list float) (n : Z)
    (body : Z -> float -> comp St float) :
  (forall i acc (Q' : float -> St -> Prop),
      0 <= i < n -> Q' (acc + cell x i * cell y i)%float s0 -> wp (body i acc) Q' s0) ->
  wp (for_up_acc 0 n body 0%float) (fun d s => s = s0 /\ d = dot_cells x y n) s0.
Proof.
  intros Hbody.
  apply (wp_for_up_acc_max (fun k acc s => s = s0 /\ acc = dot_cells x y k)).
  - split; reflexivity.
  - intros i acc s Hi [-> ->]. apply Hbody; [exact Hi|].
    split; [reflexivity|]. rewrite dot_cells_snoc by lia. reflexivity.
  - intros acc s [-> ->]. split; [reflexivity|apply dot_cells_max].
Qed.

Lemma Vector_dot_run (v w : Vector) :
  Vector_wf v -> Vector_wf w -> sz v = sz w ->
  Vector_dot w v = (Ok (dot_cells (Vector_cells v) (Vector_cells w) (sz v)), v).
Proof.
  intros Hv Hw Heq.
  pose proof (Vector_wf_bounds v Hv). pose proof (Vector_wf_bounds w Hw).
  cut (wp (Vector_dot w)
          (fun d s => s = v /\ d = dot_cells (Vector_cells v) (Vector_cells w) (sz v)) v).
  { intros Hwp. apply wp_run in Hwp as (d & s & Hrun & -> & ->). exact Hrun. }
  unfold Vector_dot. apply wp_bind, wp_get_state.
  rewrite size_test_false by exact Heq.
  apply wp_sum_loop. intros i acc Q' Hi HQ.
  apply wp_bind. apply wp_va_read; [exact Hv|lia|].
  apply wp_bind, wp_peek. apply wp_va_read; [exact Hw|lia|].
  apply wp_ret. exact HQ.
Qed.

Lemma Vector_len_dims_run (v : Vector) dims :
  Vector_wf v -> dims <= sz v ->
  Vector_len_dims dims v =
  (Ok (sqrt (dot_cells (Vector_cells v) (Vector_cells v) dims)), v).
Proof.
  intros Hv Hle. pose proof (Vector_wf_bounds v Hv).
  cut (wp (Vector_len_dims dims)
          (fun d s => s = v /\
                      d = sqrt (dot_cells (Vector_cells v) (Vector_cells v) dims)) v).
  { intros Hwp. apply wp_run in Hwp as (d & s & Hrun & -> & ->). exact Hrun. }
  unfold Vector_len_dims. apply wp_bind, wp_get_state.
  rewrite Zgtb_false by lia. apply wp_bind.
  eapply wp_mono.
  - apply (wp_sum_loop v (Vector_cells v) (Vector_cells v)).
    intros i acc Q' Hi HQ.
    apply wp_bind. apply wp_va_read; [exact Hv|lia|]. apply wp_ret. exact HQ.
  - intros d s [-> ->]. apply wp_ret. split; reflexivity.
Qed.

(** X10.  The inner product [v * w] throws invalid-argument when the
    sizes differ.  For equal sizes it returns the products [v[i] * w[i]]
    added to [0.0] one after the other by increasing [i], changes neither
    operand, and [w * v] returns the same double. *)
Theorem Vector_dot_value (v w : Vector) :
  Vector_wf v -> Vector_wf w ->
  (sz v <> sz w -> Vector_dot w v = (Throw IllegalArgumentException, v)) /\
  (sz v = sz w ->
     Vector_dot w v = (Ok (dot_cells (Vector_cells v) (Vector_cells w) (sz v)), v) /\
     fst (Vector_dot v w) = fst (Vector_dot w v)).
Proof.
  intros Hv Hw. split.
  - intros Hne. unfold Vector_dot, bind, get_state.
    rewrite size_test_true by exact Hne. reflexivity.
  - intros Heq. rewrite (Vector_dot_run v w) by assumption.
    rewrite (Vector_dot_run w v) by (auto; lia).
    split; [reflexivity|]. simpl. rewrite Heq, dot_cells_comm. reflexivity.
Qed.

Lemma Vector_dot_value_witness :
  Vector_dot vec35 vec4 = (Throw IllegalArgumentException, vec4) /\
  Vector_dot vec4b vec4 = (Ok 300%float, vec4) /\
  fst (Vector_dot vec4 vec4b) = fst (Vector_dot vec4b vec4).
Proof.
  assert (H4 : Vector_wf vec4) by (unfold Vector_wf; simpl; lia).
  assert (H4b : Vector_wf vec4b) by (unfold Vector_wf; simpl; lia).
  assert (H35 : Vector_wf vec35) by (unfold Vector_wf; simpl; lia).
  split.
  - apply (proj1 (Vector_dot_value vec4 vec35 H4 H35)). simpl. lia.
  - apply (proj2 (Vector_dot_value vec4 vec4b H4 H4b)). reflexivity.
Defined.

(** X11.  [len(dims)] with [dims <= sz] is the square root of the sum of
    the squares of the first [dims] entries, added in index order (for
    [dims <= 0] the sum is empty); [len()] is [len(sz)], and it is the
    square root of the inner product of the vector with itself. *)
Theorem Vector_len_value (v : Vector) :
  Vector_wf v ->
  (forall dims, dims <= sz v ->
     Vector_len_dims dims v =
     (Ok (sqrt (dot_cells (Vector_cells v) (Vector_cells v) dims)), v)) /\
  Vector_len v = Vector_len_dims (sz v) v /\
  exists d, Vector_dot v v = (Ok d, v) /\ Vector_len v = (Ok (sqrt d), v).
Proof.
  intros Hv.
  assert (Hlen : Vector_len v = Vector_len_dims (sz v) v).
  { unfold Vector_len, Vector_len_dims, bind, get_state.
    rewrite Zgtb_false by lia. reflexivity. }
  split; [|split].
  - intros dims Hle. apply Vector_len_dims_run; assumption.
  - exact Hlen.
  - eexists. split; [apply Vector_dot_run; auto|].
    rewrite Hlen. apply Vector_len_dims_run; [exact Hv|lia].
Qed.

Lemma Vector_len_value_witness :
  Vector_len_dims 2 vec35 = (Ok (sqrt 5), vec35) /\
  Vector_len vec35 = Vector_len_dims 3 vec35.
Proof.
  destruct (Vector_len_value vec35) as (Hdims & Hlen & _).
  - unfold Vector_wf. simpl. lia.
  - split; [|exact Hlen]. apply (Hdims 2). simpl. lia.
Defined.

(* ===================================================================== *)
(** ** [setSize] called again *)
(* ===================================================================== *)

Lemma half_le n : 0 <= n -> 0 <= n ÷ 2 <= n.
Proof.
  intros Hn. pose proof (Z.quot_rem' n 2). pose proof (Z.rem_bound_pos n 2). lia.
Qed.

Lemma length_setSize_new_cells old s newSz preserve zeroInit a :
  0 <= s <= Z.of_nat (length old) -> 0 <= newSz ->
  Z.of_nat (length (setSize_new_cells old s newSz preserve zeroInit a)) = newSz.
Proof.
  intros Hs Hn. pose proof (length_tab newSz (new_cells a)) as Hfresh.
  unfold setSize_new_cells.
  destruct preserve; [destruct (newSz <=? s) eqn:Hle|].
  - apply Z.leb_le in Hle. rewrite length_copy_prefix; lia.
  - apply Z.leb_gt in Hle.
    destruct zeroInit; [rewrite length_zero_fill|]; rewrite ?length_copy_prefix; lia.
  - destruct zeroInit; [rewrite length_zero_fill|]; lia.
Qed.

(** X12.  A second [setSize] with the same size is a no-op, whatever the
    flags of the two calls: after [setSize(n, ...)] with [n >= 0] the
    size [n] lies in the window of the capacity, so the second call
    neither reallocates nor zeroes anything. *)
Theorem Vector_setSize_idempotent (v : Vector) (n : Z) (p z p' z' : bool)
    (a a' : allocation float) :
  Vector_wf v -> 0 <= n ->
  exists v',
    Vector_setSize n p z a v = (Ok tt, v') /\ Vector_wf v' /\
    Vector_setSize n p' z' a' v' = (Ok tt, v').
Proof.
  intros Hwf Hn. destruct v as [[b|] s c]; [|contradiction].
  destruct Hwf as [Hsz Hlen]. simpl in Hsz, Hlen.
  pose proof (half_le n Hn) as Hhalf.
  destruct (decide (c ÷ 2 <= n <= c)) as [Hwin|Hout].
  - rewrite Vector_setSize_window by assumption.
    set (l := if z && (n >? s) then zero_fill s (n - s) (cells b) else cells b).
    assert (Hl : Z.of_nat (length l) = c).
    { subst l. destruct (z && (n >? s)) eqn:Hz; [|exact Hlen].
      apply andb_true_iff in Hz as [_ Hgt]. rewrite Z.gtb_ltb in Hgt.
      apply Z.ltb_lt in Hgt. rewrite length_zero_fill; lia. }
    eexists. split; [reflexivity|]. split.
    + unfold Vector_wf. simpl. lia.
    + rewrite Vector_setSize_window by (simpl; lia). simpl.
      rewrite Zgtb_false by lia. rewrite andb_false_r. reflexivity.
  - rewrite Vector_setSize_realloc by assumption.
    pose proof (length_setSize_new_cells (cells b) s n p z a ltac:(lia) Hn) as Hl.
    eexists. split; [reflexivity|]. split.
    + unfold Vector_wf. simpl. lia.
    + rewrite Vector_setSize_window by (simpl; lia). simpl.
      rewrite Zgtb_false by lia. rewrite andb_false_r. reflexivity.
Qed.

Lemma Vector_setSize_idempotent_witness :
  exists v',
    Vector_setSize 9 true true alloc7 vec4 = (Ok tt, v') /\ Vector_wf v' /\
    Vector_setSize 9 false true alloc8 v' = (Ok tt, v').
Proof.
  apply (Vector_setSize_idempotent vec4 9 true true false true alloc7 alloc8).
  - unfold Vector_wf. simpl. lia.
  - lia.
Defined.

(** X13.  Shrinking inside the window leaves the data in the buffer.
    After [setSize(n, ...)] with [cap/2 <= n <= sz], growing back to the
    old size with [zeroInit = false] gives the original vector again,
    while growing back with [zeroInit = true] keeps the entries below [n]
    and zeroes the entries [n .. sz-1]. *)
Theorem Vector_setSize_shrink_grow (v : Vector) (n : Z) (p z p' : bool)
    (a a' : allocation float) :
  Vector_wf v -> cap v ÷ 2 <= n <= sz v ->
  exists v1 v2,
    Vector_setSize n p z a v = (Ok tt, v1) /\
    Vector_setSize (sz v) p' false a' v1 = (Ok tt, v) /\
    Vector_setSize (sz v) p' true a' v1 = (Ok tt, v2) /\
    (forall i, 0 <= i < n -> Vector_elt v2 i = Vector_elt v i) /\
    (forall i, n <= i < sz v -> Vector_elt v2 i = 0%float).
Proof.
  intros Hwf Hn. destruct v as [[[ad l]|] s c]; [|contradiction].
  destruct Hwf as [Hsz Hlen]. simpl in Hsz, Hlen, Hn. simpl sz.
  assert (0 <= c ÷ 2) by (apply Z.quot_pos; lia).
  rewrite Vector_setSize_window by (assumption || lia).
  rewrite Zgtb_false by lia. rewrite andb_false_r. simpl.
  eexists. eexists. split; [reflexivity|].
  rewrite !Vector_setSize_window by (simpl; lia). simpl.
  split; [reflexivity|]. split; [reflexivity|].
  unfold Vector_elt, Vector_cells. simpl.
  destruct (s >? n) eqn:Hgt.
  - rewrite Z.gtb_ltb in Hgt. apply Z.ltb_lt in Hgt. split.
    + intros i Hi. apply cell_zero_fill_out; lia.
    + intros i Hi. apply cell_zero_fill_in; lia.
  - rewrite Z.gtb_ltb in Hgt. apply Z.ltb_ge in Hgt. split; [reflexivity|].
    intros i Hi. lia.
Qed.

Lemma Vector_setSize_shrink_grow_witness :
  exists v1 v2,
    Vector_setSize 2 true true alloc7 vec4 = (Ok tt, v1) /\
    Vector_setSize 4 true false alloc8 v1 = (Ok tt, vec4) /\
    Vector_setSize 4 true true alloc8 v1 = (Ok tt, v2) /\
    (forall i, 0 <= i < 2 -> Vector_elt v2 i = Vector_elt vec4 i) /\
    (forall i, 2 <= i < 4 -> Vector_elt v2 i = 0%float).
Proof.
  apply (Vector_setSize_shrink_grow vec4 2 true true true alloc7 alloc8).
  - unfold Vector_wf. simpl. lia.
  - simpl. change (4 ÷ 2) with 2. lia.
Defined.

(** X14.  Outside the window [setSize(n, preserve, zeroInit)] with
    [n >= 0] allocates anew.  Entry [i < n] of the result is the old
    [v[i]] when [preserve] is set and [i] is below the old size;
    otherwise it is [0.0] when [zeroInit] is set and the indeterminate
    content of the new buffer when it is not.  Without [preserve] the old
    entries are lost. *)
Theorem Vector_setSize_realloc_contents (v : Vector) (n : Z) (preserve zeroInit : bool)
    (a : allocation float) :
  Vector_wf v -> 0 <= n -> ~ (cap v ÷ 2 <= n <= cap v) ->
  exists v',
    Vector_setSize n preserve zeroInit a v = (Ok tt, v') /\ Vector_wf v' /\
    forall i, 0 <= i < n ->
      Vector_elt v' i =
      if preserve && (i <? sz v) then Vector_elt v i
      else if zeroInit then 0%float else new_cells a i.
Proof.
  intros Hwf Hn Hout. destruct v as [[b|] s c]; [|contradiction].
  destruct Hwf as [Hsz Hlen]. simpl in Hsz, Hlen, Hout.
  rewrite Vector_setSize_realloc by assumption.
  pose proof (length_setSize_new_cells (cells b) s n preserve zeroInit a ltac:(lia) Hn) as Hl.
  pose proof (length_tab n (new_cells a)) as Hfresh.
  eexists. split; [reflexivity|]. split; [unfold Vector_wf; simpl; lia|].
  intros i Hi. unfold Vector_elt, Vector_cells. simpl. unfold setSize_new_cells.
  destruct preserve; simpl.
  - destruct (n <=? s) eqn:Hle; [apply Z.leb_le in Hle|apply Z.leb_gt in Hle].
    + rewrite (proj2 (Z.ltb_lt _ _)) by lia. apply cell_copy_prefix_lt; lia.
    + destruct (i <? s) eqn:Hlt; [apply Z.ltb_lt in Hlt|apply Z.ltb_ge in Hlt].
      * destruct zeroInit.
        -- rewrite cell_zero_fill_out; try lia.
           ++ apply cell_copy_prefix_lt; lia.
           ++ rewrite length_copy_prefix; lia.
        -- apply cell_copy_prefix_lt; lia.
      * destruct zeroInit.
        -- apply cell_zero_fill_in; try lia. rewrite length_copy_prefix; lia.
        -- rewrite cell_copy_prefix_ge by lia. apply cell_tab. lia.
  - destruct zeroInit.
    + apply cell_zero_fill_in; lia.
    + apply cell_tab. lia.
Qed.

Lemma Vector_setSize_realloc_contents_witness :
  exists v',
    Vector_setSize 9 true false alloc7 vec4 = (Ok tt, v') /\ Vector_wf v' /\
    Vector_elt v' 3 = 4%float /\ Vector_elt v' 4 = 7%float.
Proof.
  destruct (Vector_setSize_realloc_contents vec4 9 true false alloc7)
    as (v' & Hrun & Hwf & Helt).
  - unfold Vector_wf. simpl. lia.
  - lia.
  - simpl. change (4 ÷ 2) with 2. lia.
  - exists v'. split; [exact Hrun|]. split; [exact Hwf|].
    split; [apply (Helt 3)|apply (Helt 4)]; lia.
Defined.

(* ===================================================================== *)
(** ** The size never falls below half the capacity *)
(* ===================================================================== *)

Lemma tight_set_va u b : Vector_tight u -> Vector_tight (set_va b u).
Proof. intros Hu. exact Hu. Qed.

Ltac tight_step :=
  lazymatch goal with
  | |- keeps _ (bind get_state _) => apply keeps_get_state; intros ?
  | |- keeps _ (bind _ _) => apply keeps_bind; [|intros ?]
  | |- keeps _ (for_up _ _ _) => apply keeps_for_up; intros ?
  | |- keeps _ (for_up_acc _ _ _ _) => apply keeps_for_up_acc; intros ? ?
  | |- keeps _ (on_va _) => apply keeps_on_va_frame; exact tight_set_va
  | |- keeps _ (va_read _) => apply keeps_on_va_frame; exact tight_set_va
  | |- keeps _ (va_write _ _) => apply keeps_on_va_frame; exact tight_set_va
  | |- keeps _ (peek _ _) => apply keeps_peek
  | |- keeps _ (local _ _) => apply keeps_local
  | |- keeps _ (declare _) => apply keeps_declare
  | |- keeps _ (ret _) => apply keeps_ret
  | |- keeps _ (throw _) => apply keeps_throw
  | |- keeps _ fault => apply keeps_fault
  | |- keeps _ (if ?b then _ else _) => destruct b
  | |- keeps _ (match ?o with Some _ => _ | None => _ end) => destruct o
  end.

Lemma keeps_tight_setSize newSz preserve zeroInit a :
  keeps Vector_tight (Vector_setSize newSz preserve zeroInit a).
Proof.
  intros v Hv.
  pose (frame := fun u : Vector => sz u = sz v /\ cap u = cap v).
  assert (Hva : forall u b, frame u -> frame (set_va b u)) by (intros u b Hu; exact Hu).
  unfold Vector_setSize. unfold bind at 1, get_state.
  destruct (newSz <? 0) eqn:Hneg; [exact Hv|]. apply Z.ltb_ge in Hneg.
  pose proof (half_le newSz Hneg) as Hhalf.
  destruct ((newSz >=? cap v ÷ 2) && (newSz <=? cap v)) eqn:Hwin.
  - apply andb_true_iff in Hwin as [Hge Hle%Z.leb_le].
    rewrite Z.geb_leb in Hge. apply Z.leb_le in Hge.
    apply (keeps_then frame Vector_tight).
    + destruct (zeroInit && (newSz >? sz v));
        [apply keeps_on_va_frame; exact Hva | apply keeps_ret].
    + intros s [Hs Hc]. unfold Vector_tight in *. rewrite Hs, Hc. exact Hv.
    + intros _ s [Hs Hc]. unfold Vector_tight. simpl. rewrite Hc. lia.
    + split; reflexivity.
  - apply (keeps_then frame Vector_tight).
    + unfold new_double. rewrite Zltb_false by lia.
      destruct preserve, (va v) as [old|];
        repeat first
          [ apply keeps_bind; [|intros ?]
          | apply keeps_ret | apply keeps_local
          | apply keeps_on_va_frame; exact Hva
          | apply keeps_modify; intros ? ?; apply Hva; assumption
          | match goal with |- keeps _ (if ?b then _ else _) => destruct b end ].
    + intros s [Hs Hc]. unfold Vector_tight in *. rewrite Hs, Hc. exact Hv.
    + intros _ s [Hs Hc]. unfold Vector_tight. simpl. lia.
    + split; reflexivity.
Qed.

Lemma Vector_Vector_tight n zeroInit a r :
  Vector_Vector n zeroInit a = Ok r -> Vector_tight r.
Proof.
  unfold Vector_Vector, construct.
  destruct (n <? 0) eqn:Hneg; [discriminate|]. apply Z.ltb_ge in Hneg.
  set (init := {| va := None; sz := n; cap := n |}).
  set (body := bind _ _).
  assert (Hk : keeps Vector_tight body).
  { subst body. unfold new_double. repeat tight_step.
    apply keeps_modify. exact (fun u => tight_set_va u _). }
  specialize (Hk init). destruct (body init) as [[[]|e|] s]; try discriminate.
  intros [= <-]. apply Hk. pose proof (half_le n Hneg).
  unfold Vector_tight, init. simpl. lia.
Qed.

Lemma Vector_copy_tight cp a r :
  Vector_tight cp -> Vector_copy cp a = Ok r -> Vector_tight r.
Proof.
  intros Hcp. unfold Vector_copy, construct.
  set (init := {| va := None; sz := sz cp; cap := sz cp |}).
  set (body := bind _ _).
  assert (Hk : keeps Vector_tight body).
  { subst body. unfold new_double. repeat tight_step.
    apply keeps_modify. exact (fun u => tight_set_va u _). }
  specialize (Hk init). destruct (body init) as [[[]|e|] s]; try discriminate.
  intros [= <-]. apply Hk. destruct Hcp as [Hpos _].
  pose proof (half_le (sz cp) Hpos).
  unfold Vector_tight. simpl. lia.
Qed.

Lemma result_tight (this : Vector) a (loop : comp Vector unit) (s : Vector) r :
  keeps Vector_tight loop ->
  fst (bind (declare (Vector_Vector (sz this) false a))
            (fun result => local result loop) s) = Ok r ->
  Vector_tight r.
Proof.
  intros Hk. unfold bind, declare, local.
  destruct (Vector_Vector (sz this) false a) as [res|e|] eqn:Hres;
    simpl; try discriminate.
  apply Vector_Vector_tight in Hres. specialize (Hk res Hres).
  destruct (loop res) as [[[]|e|] t]; simpl in *; try discriminate.
  intros [= <-]. exact Hk.
Qed.

(** X15.  The size of a vector never falls below half its capacity:
    [0 <= sz] and [cap/2 <= sz <= cap] (integer division) hold for every
    vector a constructor or an operator returns, and each operation that
    modifies its receiver keeps them, whatever its outcome. *)
Theorem Vector_operations_keep_tight (v w : Vector) :
  Vector_tight v -> Vector_tight w ->
  (forall n z a r, Vector_Vector n z a = Ok r -> Vector_tight r) /\
  (forall a r, Vector_copy w a = Ok r -> Vector_tight r) /\
  (forall a, Vector_tight (snd (Vector_assign w a v))) /\
  (forall n p z a, Vector_tight (snd (Vector_setSize n p z a v))) /\
  Vector_tight (snd (Vector_clear v)) /\
  (forall i x, Vector_tight (snd (Vector_index_store i x v))) /\
  (forall a r, fst (Vector_add w a v) = Ok r -> Vector_tight r) /\
  Vector_tight (snd (Vector_add_assign w v)) /\
  (forall a r, fst (Vector_sub w a v) = Ok r -> Vector_tight r) /\
  Vector_tight (snd (Vector_sub_assign w v)) /\
  (forall f a r, fst (Vector_scale f a v) = Ok r -> Vector_tight r) /\
  (forall f, Vector_tight (snd (Vector_scale_assign f v))).
Proof.
  intros Hv Hw.
  assert (Hbin : forall (op : float -> float -> float) a r,
    fst ((let* this := get_state in
          if negb (sz this =? sz w) then throw IllegalArgumentException
          else
            let* result := declare (Vector_Vector (sz this) false a) in
            local result
              (for_up 0 (sz this) (fun i =>
                 let* x := peek this (va_read i) in
                 let* y := peek w (va_read i) in
                 va_write i (op x y)))) v) = Ok r -> Vector_tight r).
  { intros op a r. unfold bind at 1, get_state.
    destruct (negb (sz v =? sz w)); [discriminate|].
    apply result_tight. repeat tight_step. }
  split_all.
  - apply Vector_Vector_tight.
  - intros a r. apply Vector_copy_tight. exact Hw.
  - intros a. cut (keeps Vector_tight (Vector_assign w a)); [intros Hk; apply Hk; exact Hv|].
    unfold Vector_assign. apply keeps_bind; [apply keeps_tight_setSize|intros _].
    repeat tight_step.
  - intros n p z a. apply keeps_tight_setSize. exact Hv.
  - cut (keeps Vector_tight Vector_clear); [intros Hk; apply Hk; exact Hv|].
    unfold Vector_clear. repeat tight_step.
  - intros i x.
    cut (keeps Vector_tight (Vector_index_store i x)); [intros Hk; apply Hk; exact Hv|].
    unfold Vector_index_store. repeat tight_step.
  - intros a. apply (Hbin PrimFloat.add a).
  - cut (keeps Vector_tight (Vector_add_assign w)); [intros Hk; apply Hk; exact Hv|].
    unfold Vector_add_assign. repeat tight_step.
  - intros a. apply (Hbin PrimFloat.sub a).
  - cut (keeps Vector_tight (Vector_sub_assign w)); [intros Hk; apply Hk; exact Hv|].
    unfold Vector_sub_assign. repeat tight_step.
  - intros f a r. unfold Vector_scale. unfold bind at 1, get_state.
    apply result_tight. repeat tight_step.
  - intros f.
    cut (keeps Vector_tight (Vector_scale_assign f)); [intros Hk; apply Hk; exact Hv|].
    unfold Vector_scale_assign. repeat tight_step.
Qed.

Lemma Vector_operations_keep_tight_witness :
  Vector_tight (snd (Vector_setSize 2 true true alloc7 vec4)) /\
  Vector_tight (snd (Vector_setSize 1 true true alloc7 vec4)) /\
  Vector_tight (snd (Vector_assign vec35 alloc7 vec4)).
Proof.
  assert (H4 : Vector_tight vec4).
  { unfold Vector_tight. simpl. change (4 ÷ 2) with 2. lia. }
  assert (H35 : Vector_tight vec35).
  { unfold Vector_tight. simpl. change (5 ÷ 2) with 2. lia. }
  destruct (Vector_operations_keep_tight vec4 vec35 H4 H35)
    as (_ & _ & Hassign & Hset & _).
  split; [apply Hset|split; [apply Hset|apply Hassign]].
Defined.

(* ===================================================================== *)
(** ** Allocation, copy and clearing of a [Matrix] *)
(* ===================================================================== *)

Lemma zero_fill_tab n (f : Z -> float) :
  0 <= n -> zero_fill 0 n (tab n f) = tab n (fun _ => 0%float).
Proof.
  intros Hn. pose proof (length_tab n f) as Hlen. apply tab_ext.
  - rewrite length_zero_fill; lia.
  - intros i Hi. apply cell_zero_fill_in; lia.
Qed.

Lemma Matrix_alloc_new rows cols setZero a m :
  0 <= rows -> 0 <= cols ->
  Matrix_alloc rows cols setZero a m = (Ok tt, Matrix_new rows cols setZero a).
Proof.
  intros Hr Hc. unfold Matrix_alloc, bind, modify, new_double.
  rewrite !Zltb_false by nia. destruct setZero; [|reflexivity].
  unfold on_matRows, zoom. simpl.
  rewrite memset0_run; [|lia|nia|rewrite length_tab; lia].
  unfold Matrix_new, set_matRows. simpl. rewrite zero_fill_tab by nia. reflexivity.
Qed.

Lemma Matrix_new_wf rows cols setZero a :
  0 <= rows -> 0 <= cols -> Matrix_wf (Matrix_new rows cols setZero a).
Proof. intros Hr Hc. unfold Matrix_wf. simpl. rewrite length_tab. nia. Qed.

Lemma Matrix_new_elt rows cols setZero a r c :
  0 <= r < rows -> 0 <= c < cols ->
  Matrix_elt (Matrix_new rows cols setZero a) r c =
  if setZero then 0%float else new_cells a (r * cols + c).
Proof.
  intros Hr Hc. unfold Matrix_elt. simpl. rewrite cell_tab; [reflexivity|].
  apply flat_index_range; assumption.
Qed.

(** X16.  [setRows], [setColumns] and [resize] throw invalid-argument for
    a dimension below 1 and then leave the matrix as it was.  Otherwise
    the matrix gets the new shape in a new buffer ([setRows] keeps [cls],
    [setColumns] keeps [rws]) and the old entries are discarded, also
    when the shape does not change: every entry is [0.0] when [zeroInit]
    is set and indeterminate otherwise. *)
Theorem Matrix_resize_checked (m : Matrix) (rows cols : Z) (zeroInit : bool)
    (a : allocation float) :
  Matrix_wf m ->
  (rows < 1 -> Matrix_setRows rows zeroInit a m = (Throw IllegalArgumentException, m)) /\
  (cols < 1 -> Matrix_setColumns cols zeroInit a m = (Throw IllegalArgumentException, m)) /\
  (rows < 1 \/ cols < 1 ->
     Matrix_resize rows cols zeroInit a m = (Throw IllegalArgumentException, m)) /\
  (1 <= rows -> rows * cls m <= INT_MAX ->
     Matrix_setRows rows zeroInit a m = (Ok tt, Matrix_new rows (cls m) zeroInit a)) /\
  (1 <= cols -> rws m * cols <= INT_MAX ->
     Matrix_setColumns cols zeroInit a m = (Ok tt, Matrix_new (rws m) cols zeroInit a)) /\
  (1 <= rows -> 1 <= cols -> rows * cols <= INT_MAX ->
     Matrix_resize rows cols zeroInit a m = (Ok tt, Matrix_new rows cols zeroInit a) /\
     Matrix_wf (Matrix_new rows cols zeroInit a) /\
     forall r c, 0 <= r < rows -> 0 <= c < cols ->
       Matrix_elt (Matrix_new rows cols zeroInit a) r c =
       if zeroInit then 0%float else new_cells a (r * cols + c)).
Proof.
  intros (Hr & Hc & _). split_all.
  - intros Hlt. unfold Matrix_setRows, bind, get_state.
    rewrite (proj2 (Z.ltb_lt _ _)) by lia. reflexivity.
  - intros Hlt. unfold Matrix_setColumns, bind, get_state.
    rewrite (proj2 (Z.ltb_lt _ _)) by lia. reflexivity.
  - intros Hlt. unfold Matrix_resize.
    replace ((rows <? 1) || (cols <? 1)) with true; [reflexivity|].
    symmetry. apply orb_true_iff. destruct Hlt; [left|right]; apply Z.ltb_lt; lia.
  - intros Hge _. unfold Matrix_setRows, bind, get_state.
    rewrite Zltb_false by lia. apply Matrix_alloc_new; lia.
  - intros Hge _. unfold Matrix_setColumns, bind, get_state.
    rewrite Zltb_false by lia. apply Matrix_alloc_new; lia.
  - intros Hrows Hcols _. split; [|split].
    + unfold Matrix_resize. rewrite !Zltb_false by lia. apply Matrix_alloc_new; lia.
    + apply Matrix_new_wf; lia.
    + intros r c Hr' Hc'. apply Matrix_new_elt; assumption.
Qed.

Lemma Matrix_resize_checked_witness :
  Matrix_setRows 0 true alloc7 mat23 = (Throw IllegalArgumentException, mat23) /\
  Matrix_resize 2 0 true alloc7 mat23 = (Throw IllegalArgumentException, mat23) /\
  Matrix_setColumns 2 true alloc7 mat23 = (Ok tt, Matrix_new 2 2 true alloc7) /\
  Matrix_resize 2 3 false alloc7 mat23 = (Ok tt, Matrix_new 2 3 false alloc7).
Proof.
  assert (Hwf : Matrix_wf mat23) by (unfold Matrix_wf; simpl; lia).
  split; [|split; [|split]].
  - apply (proj1 (Matrix_resize_checked mat23 0 1 true alloc7 Hwf)). lia.
  - apply (proj1 (proj2 (proj2 (Matrix_resize_checked mat23 2 0 true alloc7 Hwf)))).
    right. lia.
  - apply (proj1 (proj2 (proj2 (proj2 (proj2
             (Matrix_resize_checked mat23 1 2 true alloc7 Hwf)))))).
    + lia.
    + unfold INT_MAX. simpl. lia.
  - apply (proj2 (proj2 (proj2 (proj2 (proj2
             (Matrix_resize_checked mat23 2 3 false alloc7 Hwf)))))).
    + lia.
    + lia.
    + unfold INT_MAX. simpl. lia.
Defined.

(** X17.  [Matrix(rows, cols, zeroInit)] does not check its dimensions:
    for any [rows >= 0] and [cols >= 0], zero included, it builds a
    matrix of that shape (all [0.0] when [zeroInit] is set) and does
    not throw, although [resize] with the same dimensions throws when one
    of them is 0. *)
Theorem Matrix_constructor_unchecked (rows cols : Z) (zeroInit : bool)
    (a : allocation float) :
  0 <= rows -> 0 <= cols -> rows * cols <= INT_MAX ->
  Matrix_Matrix rows cols zeroInit a = Ok (Matrix_new rows cols zeroInit a) /\
  Matrix_wf (Matrix_new rows cols zeroInit a) /\
  (forall r c, 0 <= r < rows -> 0 <= c < cols ->
     Matrix_elt (Matrix_new rows cols zeroInit a) r c =
     if zeroInit then 0%float else new_cells a (r * cols + c)) /\
  (rows < 1 \/ cols < 1 ->
     forall z' a',
       Matrix_resize rows cols z' a' (Matrix_new rows cols zeroInit a) =
       (Throw IllegalArgumentException, Matrix_new rows cols zeroInit a)).
Proof.
  intros Hr Hc _. split_all.
  - unfold Matrix_Matrix, construct. rewrite Matrix_alloc_new by assumption. reflexivity.
  - apply Matrix_new_wf; assumption.
  - intros r c Hr' Hc'. apply Matrix_new_elt; assumption.
  - intros Hlt z' a'. unfold Matrix_resize.
    replace ((rows <? 1) || (cols <? 1)) with true; [reflexivity|].
    symmetry. apply orb_true_iff. destruct Hlt; [left|right]; apply Z.ltb_lt; lia.
Qed.

Lemma Matrix_constructor_unchecked_witness :
  Matrix_Matrix 0 3 true alloc7 = Ok (Matrix_new 0 3 true alloc7) /\
  Matrix_wf (Matrix_new 0 3 true alloc7) /\
  Matrix_resize 0 3 true alloc8 (Matrix_new 0 3 true alloc7) =
  (Throw IllegalArgumentException, Matrix_new 0 3 true alloc7).
Proof.
  destruct (Matrix_constructor_unchecked 0 3 true alloc7) as (Hrun & Hwf & _ & Hres);
    [lia|lia|unfold INT_MAX; simpl; lia|].
  split; [exact Hrun|]. split; [exact Hwf|]. apply Hres. left. lia.
Defined.

(** X18.  The copy constructor builds a matrix of the same shape with the
    same entries in a new buffer. *)
Theorem Matrix_copy_deep (A : Matrix) (a : allocation float) :
  Matrix_wf A ->
  exists C,
    Matrix_copy A a = Ok C /\ Matrix_wf C /\
    rws C = rws A /\ cls C = cls A /\
    addr (matRows C) = new_addr a /\
    cells (matRows C) = cells (matRows A) /\
    forall r c, Matrix_elt C r c = Matrix_elt A r c.
Proof.
  intros Hwf. exists (Matrix_at (new_addr a) A).
  split; [apply Matrix_copy_run; exact Hwf|].
  split; [exact Hwf|]. split_all; reflexivity.
Qed.

Lemma Matrix_copy_deep_witness :
  exists C,
    Matrix_copy mat23 alloc7 = Ok C /\ rws C = 2 /\ cls C = 3 /\
    addr (matRows C) = 64 /\ cells (matRows C) = [1; 2; 3; 4; 5; 6]%float.
Proof.
  destruct (Matrix_copy_deep mat23 alloc7) as (C & Hrun & _ & Hr & Hc & Ha & Hcells & _).
  - unfold Matrix_wf. simpl. lia.
  - exists C. auto.
Defined.

(** X19.  [this = src] gives [this] the shape and the entries of [src];
    the buffer of [this] is kept when the two shapes agree and is
    replaced by a new one when [rws] or [cls] differ (also when
    [rws * cls] agrees). *)
Theorem Matrix_assign_copies (this src : Matrix) (a : allocation float) :
  Matrix_wf this -> Matrix_wf src ->
  exists m',
    Matrix_assign src a this = (Ok tt, m') /\ Matrix_wf m' /\
    rws m' = rws src /\ cls m' = cls src /\
    cells (matRows m') = cells (matRows src) /\
    addr (matRows m') =
      (if negb (rws this =? rws src) || negb (cls this =? cls src)
       then new_addr a else addr (matRows this)).
Proof.
  intros (Hr & Hc & Hlen) Hsrc. pose proof Hsrc as (Hrs & Hcs & Hlens).
  unfold Matrix_assign. unfold bind at 1, get_state.
  destruct (negb (rws this =? rws src) || negb (cls this =? cls src)) eqn:Hd.
  - unfold bind at 1. rewrite Matrix_alloc_new by assumption.
    unfold bind, get_state, on_matRows, zoom. simpl.
    rewrite memmove_run; [|nia|lia|rewrite length_tab; lia]. simpl.
    rewrite <- Hlens. rewrite copy_prefix_all by (rewrite length_tab; lia).
    eexists. split; [reflexivity|]. split; [exact Hsrc|]. split_all; reflexivity.
  - apply orb_false_iff in Hd as [H1 H2].
    apply negb_false_iff, Z.eqb_eq in H1, H2.
    unfold bind, ret, get_state, on_matRows, zoom. simpl.
    rewrite memmove_run; [|nia|lia|lia]. simpl.
    rewrite H1, H2, <- Hlens. rewrite copy_prefix_all by lia.
    eexists. split; [reflexivity|].
    split; [unfold Matrix_wf; simpl; lia|]. split_all; simpl; auto.
Qed.

Lemma Matrix_assign_copies_witness :
  exists m',
    Matrix_assign mat23 alloc7 mat32 = (Ok tt, m') /\
    rws m' = 2 /\ cls m' = 3 /\
    cells (matRows m') = [1; 2; 3; 4; 5; 6]%float /\
    addr (matRows m') = 64.
Proof.
  destruct (Matrix_assign_copies mat32 mat23 alloc7) as (m' & Hrun & _ & Hr & Hc & Hcells & Ha).
  - unfold Matrix_wf. simpl. lia.
  - unfold Matrix_wf. simpl. lia.
  - exists m'. auto.
Defined.

(** X20.  [Matrix::clear()] sets every entry to [0.0] and keeps the shape
    and the buffer. *)
Theorem Matrix_clear_zeroes (m : Matrix) :
  Matrix_wf m ->
  exists m',
    Matrix_clear m = (Ok tt, m') /\ Matrix_wf m' /\
    rws m' = rws m /\ cls m' = cls m /\ addr (matRows m') = addr (matRows m) /\
    forall r c, 0 <= r < rws m -> 0 <= c < cls m -> Matrix_elt m' r c = 0%float.
Proof.
  intros (Hr & Hc & Hlen).
  unfold Matrix_clear, bind, get_state, on_matRows, zoom.
  rewrite memset0_run by lia.
  eexists. split; [reflexivity|]. unfold Matrix_wf, Matrix_elt. simpl.
  split_all; try reflexivity; try lia.
  - rewrite length_zero_fill; lia.
  - intros r c Hr' Hc'. pose proof (flat_index_range (rws m) (cls m) r c Hr' Hc').
    apply cell_zero_fill_in; lia.
Qed.

Lemma Matrix_clear_zeroes_witness :
  exists m',
    Matrix_clear mat23 = (Ok tt, m') /\ Matrix_wf m' /\
    rws m' = 2 /\ cls m' = 3 /\ addr (matRows m') = 32 /\
    forall r c, 0 <= r < 2 -> 0 <= c < 3 -> Matrix_elt m' r c = 0%float.
Proof.
  apply (Matrix_clear_zeroes mat23). unfold Matrix_wf. simpl. lia.
Defined.

(** X21.  After [m(r,c) = x] inside the shape, [m(r,c)] reads [x] and
    every other entry of the shape reads as before: the rows of the flat
    buffer do not overlap.  Shape and buffer are the same. *)
Theorem Matrix_store_then_read (m : Matrix) (r c : Z) (x : float) :
  Matrix_wf m -> 0 <= r < rws m -> 0 <= c < cls m ->
  exists m',
    Matrix_write r c x m = (Ok tt, m') /\ Matrix_wf m' /\
    rws m' = rws m /\ cls m' = cls m /\ addr (matRows m') = addr (matRows m) /\
    Matrix_read r c m' = (Ok x, m') /\
    forall r' c', 0 <= r' < rws m -> 0 <= c' < cls m -> (r', c') <> (r, c) ->
                  Matrix_read r' c' m' = (Ok (Matrix_elt m r' c'), m').
Proof.
  intros Hwf Hr Hc. exists (Matrix_upd m r c x).
  pose proof (Matrix_upd_wf m r c x Hwf) as Hwf'.
  split; [apply Matrix_write_run; assumption|]. split; [exact Hwf'|].
  split; [reflexivity|]. split; [reflexivity|]. split; [reflexivity|]. split.
  - rewrite Matrix_read_run by assumption. rewrite Matrix_upd_elt by assumption.
    destruct (decide (r = r /\ c = c)) as [_|Hne]; [reflexivity|].
    exfalso. apply Hne. split; reflexivity.
  - intros r' c' Hr' Hc' Hne. rewrite Matrix_read_run by assumption.
    rewrite Matrix_upd_elt by assumption.
    destruct (decide (r' = r /\ c' = c)) as [[-> ->]|_]; [|reflexivity].
    exfalso. apply Hne. reflexivity.
Qed.

Lemma Matrix_store_then_read_witness :
  exists m',
    Matrix_write 0 2 9%float mat23 = (Ok tt, m') /\
    Matrix_read 0 2 m' = (Ok 9%float, m') /\
    Matrix_read 1 0 m' = (Ok 4%float, m').
Proof.
  destruct (Matrix_store_then_read mat23 0 2 9%float)
    as (m' & Hrun & _ & _ & _ & _ & Hsame & Hother).
  - unfold Matrix_wf. simpl. lia.
  - simpl. lia.
  - simpl. lia.
  - exists m'. split; [exact Hrun|]. split; [exact Hsame|].
    apply (Hother 1 0); simpl; try lia. intros Heq. discriminate Heq.
Defined.

(* ===================================================================== *)
(** ** Matrix::multiply *)
(* ===================================================================== *)

Lemma row_times_column_snoc_fold A B i j k :
  0 <= k ->
  fold_left (fun s k => (s + Matrix_elt A i k * Matrix_elt B k j)%float)
            (seqZ 0 (k + 1)) 0%float =
  (fold_left (fun s k => (s + Matrix_elt A i k * Matrix_elt B k j)%float)
             (seqZ 0 k) 0%float
   + Matrix_elt A i k * Matrix_elt B k j)%float.
Proof.
  intros Hk. rewrite seqZ_app by lia. rewrite fold_left_app. reflexivity.
Qed.

(** One call of [multiply]. *)
Lemma Matrix_multiply_wp (A B R : Matrix) (a : allocation float) :
  Matrix_wf A -> Matrix_wf B -> Matrix_wf R -> rws B = cls A ->
  wp (Matrix_multiply A B a)
     (fun _ R' =>
        Matrix_wf R' /\ rws R' = rws A /\ cls R' = cls B /\
        addr (matRows R') =
          (if negb (rws R =? rws A) || negb (cls R =? cls B)
           then new_addr a else addr (matRows R)) /\
        forall i j, 0 <= i < rws A -> 0 <= j < cls B ->
                    Matrix_elt R' i j = row_times_column A B i j)
     R.
Proof.
  intros HA HB HR Hinner.
  pose proof HA as (HrA & HcA & _). pose proof HB as (HrB & HcB & _).
  unfold Matrix_multiply.
  rewrite (proj2 (Z.eqb_eq _ _)) by exact Hinner. simpl negb. cbv iota.
  apply wp_bind, wp_get_state. apply wp_bind.
  set (differs := negb (rws R =? rws A) || negb (cls R =? cls B)).
  set (ad := if differs then new_addr a else addr (matRows R)).
  cut (forall R1, Matrix_wf R1 -> rws R1 = rws A -> cls R1 = cls B ->
         addr (matRows R1) = ad ->
         wp (for_up 0 (rws A) (fun i =>
               for_up 0 (cls B) (fun j =>
                 let* s :=
                   for_up_acc 0 (cls A) (fun k s =>
                     let* x := peek A (Matrix_read i k) in
                     let* y := peek B (Matrix_read k j) in
                     ret (s + x * y)%float) 0%float in
                 Matrix_write i j s)))
            (fun _ R' =>
               Matrix_wf R' /\ rws R' = rws A /\ cls R' = cls B /\
               addr (matRows R') = ad /\
               forall i j, 0 <= i < rws A -> 0 <= j < cls B ->
                           Matrix_elt R' i j = row_times_column A B i j) R1).
  { intros Hloops. destruct differs eqn:Hd.
    - unfold wp at 1. rewrite Matrix_alloc_run by assumption.
      apply Hloops; try reflexivity.
      unfold Matrix_wf. simpl. rewrite length_tab. nia.
    - apply wp_ret. subst differs.
      apply orb_false_iff in Hd as [H1 H2].
      apply negb_false_iff, Z.eqb_eq in H1, H2.
      apply Hloops; auto. }
  intros R1 Hwf1 Hrws1 Hcls1 Had1.
  apply (wp_for_up (fun i s =>
           Matrix_wf s /\ rws s = rws A /\ cls s = cls B /\
           addr (matRows s) = ad /\
           forall i' j, 0 <= i' < i -> 0 <= j < cls B ->
                        Matrix_elt s i' j = row_times_column A B i' j)); [lia| | |].
  - split_all; auto. intros; lia.
  - intros i s Hi (Hwf & Hrws & Hcls & Had & Hdone).
    apply (wp_for_up (fun j s =>
             Matrix_wf s /\ rws s = rws A /\ cls s = cls B /\
             addr (matRows s) = ad /\
             (forall i' j', 0 <= i' < i -> 0 <= j' < cls B ->
                            Matrix_elt s i' j' = row_times_column A B i' j') /\
             (forall j', 0 <= j' < j ->
                         Matrix_elt s i j' = row_times_column A B i j'))); [lia| | |].
    + split_all; auto. intros; lia.
    + intros j s' Hj (Hwf' & Hrws' & Hcls' & Had' & Hrows & Hcols).
      apply wp_bind.
      apply (wp_for_up_acc (fun k acc t =>
               t = s' /\
               acc = fold_left (fun s k => (s + Matrix_elt A i k * Matrix_elt B k j)%float)
                               (seqZ 0 k) 0%float)); [lia| | |].
      * split; reflexivity.
      * intros k acc t Hk [-> ->].
        apply wp_bind, wp_peek. apply wp_Matrix_read; [assumption|lia|lia|].
        apply wp_bind, wp_peek. apply wp_Matrix_read; [assumption|lia|lia|].
        apply wp_ret. split; [reflexivity|].
        rewrite row_times_column_snoc_fold by lia. reflexivity.
      * intros acc t [-> ->].
        apply wp_Matrix_write; [assumption|lia|lia|].
        split; [apply Matrix_upd_wf; assumption|].
        split; [assumption|]. split; [assumption|]. split; [assumption|]. split.
        -- intros i' j' Hi' Hj'. rewrite Matrix_upd_elt by (auto; lia).
           destruct (decide (i' = i /\ j' = j)); [lia|]. apply Hrows; lia.
        -- intros j' Hj'. rewrite Matrix_upd_elt by (auto; lia).
           destruct (decide (i = i /\ j' = j)) as [[_ ->]|Hne]; [reflexivity|].
           apply Hcols. lia.
    + intros s' (Hwf' & Hrws' & Hcls' & Had' & Hrows & Hcols).
      split_all; auto.
      intros i' j Hi' Hj. destruct (decide (i' = i)) as [->|Hne].
      * apply Hcols. lia.
      * apply Hrows; lia.
  - intros s (Hwf & Hrws & Hcls & Had & Hdone). split_all; auto.
Qed.

(** X22.  [A.multiply(B, R)] throws invalid-argument when
    [B.rws != A.cls], leaving [R] as it was.  Otherwise [R] ends with
    shape [A.rws x B.cls], reallocated exactly when its shape differed,
    and entry [(i,j)] is [row_times_column A B i j]: the products
    [A[i][k] * B[k][j]] added to [0.0] by increasing [k].  ([R] is an
    object distinct from [A] and [B].) *)
Theorem Matrix_multiply_entries (A B R : Matrix) (a : allocation float) :
  Matrix_wf A -> Matrix_wf B -> Matrix_wf R ->
  (rws B <> cls A -> Matrix_multiply A B a R = (Throw IllegalArgumentException, R)) /\
  (rws B = cls A -> rws A * cls B <= INT_MAX ->
   exists R',
     Matrix_multiply A B a R = (Ok tt, R') /\
     Matrix_wf R' /\ rws R' = rws A /\ cls R' = cls B /\
     addr (matRows R') =
       (if negb (rws R =? rws A) || negb (cls R =? cls B)
        then new_addr a else addr (matRows R)) /\
     forall i j, 0 <= i < rws A -> 0 <= j < cls B ->
                 Matrix_elt R' i j = row_times_column A B i j).
Proof.
  intros HA HB HR. split.
  - intros Hne. unfold Matrix_multiply.
    rewrite (proj2 (Z.eqb_neq _ _)) by exact Hne. reflexivity.
  - intros Heq _. pose proof (Matrix_multiply_wp A B R a HA HB HR Heq) as Hwp.
    apply wp_run in Hwp as ([] & R' & Hrun & Hrest). exists R'. split; assumption.
Qed.

Lemma Matrix_multiply_entries_witness :
  Matrix_multiply mat23 mat23 alloc7 mat11 = (Throw IllegalArgumentException, mat11) /\
  exists R',
    Matrix_multiply mat23 mat32 alloc7 mat11 = (Ok tt, R') /\
    rws R' = 2 /\ cls R' = 2 /\ addr (matRows R') = 64 /\
    Matrix_elt R' 1 0 = row_times_column mat23 mat32 1 0.
Proof.
  assert (H23 : Matrix_wf mat23) by (unfold Matrix_wf; simpl; lia).
  assert (H32 : Matrix_wf mat32) by (unfold Matrix_wf; simpl; lia).
  assert (H11 : Matrix_wf mat11) by (unfold Matrix_wf; simpl; lia).
  split.
  - apply (proj1 (Matrix_multiply_entries mat23 mat23 mat11 alloc7 H23 H23 H11)).
    simpl. lia.
  - destruct (proj2 (Matrix_multiply_entries mat23 mat32 mat11 alloc7 H23 H32 H11))
      as (R' & Hrun & _ & Hr & Hc & Ha & Helt).
    + reflexivity.
    + unfold INT_MAX. simpl. lia.
    + exists R'. split_all; try assumption. apply Helt; simpl; lia.
Defined.

Lemma fold_left_ext_in {A B} (f g : A -> B -> A) (l : list B) (a : A) :
  (forall x b, b ∈ l -> f x b = g x b) -> fold_left f l a = fold_left g l a.
Proof.
  revert a. induction l as [|b l IH]; intros a Hfg; simpl; [reflexivity|].
  rewrite Hfg by (apply elem_of_cons; left; reflexivity).
  apply IH. intros x b' Hin. apply Hfg. apply elem_of_cons. right. exact Hin.
Qed.

(** X23.  Transposition reverses products exactly, not only up to
    rounding: the transpose of [A * B] and the product of the transposes
    [Bt * At], both computed by [multiply] and [transpose], have the same
    shape and the same doubles. *)
Theorem Matrix_multiply_transpose (A B P Pt At Bt Q : Matrix)
    (a1 a2 a3 a4 a5 : allocation float) :
  Matrix_wf A -> Matrix_wf B -> rws B = cls A -> rws A * cls B <= INT_MAX ->
  Matrix_wf P -> Matrix_wf Pt -> Matrix_wf At -> Matrix_wf Bt -> Matrix_wf Q ->
  exists P' Pt' At' Bt' Q',
    Matrix_multiply A B a1 P = (Ok tt, P') /\
    Matrix_transpose P' a2 Pt = (Ok tt, Pt') /\
    Matrix_transpose A a3 At = (Ok tt, At') /\
    Matrix_transpose B a4 Bt = (Ok tt, Bt') /\
    Matrix_multiply Bt' At' a5 Q = (Ok tt, Q') /\
    rws Q' = rws Pt' /\ cls Q' = cls Pt' /\
    cells (matRows Q') = cells (matRows Pt').
Proof.
  intros HA HB Hinner _ HP HPt HAt HBt HQ.
  pose proof (Matrix_multiply_wp A B P a1 HA HB HP Hinner) as H1.
  apply wp_run in H1 as ([] & P' & Hrun1 & HwfP & HrP & HcP & _ & HeltP).
  pose proof (Matrix_transpose_spec P' Pt a2 HwfP HPt) as H2.
  apply wp_run in H2 as ([] & Pt' & Hrun2 & HwfPt & HrPt & HcPt & HeltPt & _).
  pose proof (Matrix_transpose_spec A At a3 HA HAt) as H3.
  apply wp_run in H3 as ([] & At' & Hrun3 & HwfAt & HrAt & HcAt & HeltAt & _).
  pose proof (Matrix_transpose_spec B Bt a4 HB HBt) as H4.
  apply wp_run in H4 as ([] & Bt' & Hrun4 & HwfBt & HrBt & HcBt & HeltBt & _).
  assert (Hinner' : rws At' = cls Bt') by lia.
  pose proof (Matrix_multiply_wp Bt' At' Q a5 HwfBt HwfAt HQ Hinner') as H5.
  apply wp_run in H5 as ([] & Q' & Hrun5 & HwfQ & HrQ & HcQ & _ & HeltQ).
  exists P', Pt', At', Bt', Q'. split_all; try assumption; try lia.
  apply Matrix_cells_ext; try assumption; try lia.
  intros j i Hj Hi. rewrite HeltQ by lia. rewrite HeltPt by lia. rewrite HeltP by lia.
  unfold row_times_column. rewrite HcBt, Hinner.
  apply fold_left_ext_in. intros s k Hk. apply elem_of_seqZ in Hk.
  rewrite HeltBt by lia. rewrite HeltAt by lia. rewrite mul_comm. reflexivity.
Qed.

Lemma Matrix_multiply_transpose_witness :
  exists P' Pt' At' Bt' Q',
    Matrix_multiply mat23 mat32 alloc7 mat11 = (Ok tt, P') /\
    Matrix_transpose P' alloc8 mat11 = (Ok tt, Pt') /\
    Matrix_transpose mat23 alloc8 mat11 = (Ok tt, At') /\
    Matrix_transpose mat32 alloc9 mat11 = (Ok tt, Bt') /\
    Matrix_multiply Bt' At' alloc9 mat11 = (Ok tt, Q') /\
    rws Q' = rws Pt' /\ cls Q' = cls Pt' /\
    cells (matRows Q') = cells (matRows Pt').
Proof.
  assert (H11 : Matrix_wf mat11) by (unfold Matrix_wf; simpl; lia).
  apply (Matrix_multiply_transpose mat23 mat32 mat11 mat11 mat11 mat11 mat11);
    try exact H11.
  - unfold Matrix_wf. simpl. lia.
  - unfold Matrix_wf. simpl. lia.
  - reflexivity.
  - unfold INT_MAX. simpl. lia.
Defined.

(* ===================================================================== *)
(** ** Matrix::solveLDLT works in place *)
(* ===================================================================== *)

Lemma fold_left_preserves {A B} (P : A -> Prop) (f : A -> B -> A) (l : list B) (a : A) :
  P a -> (forall x b, b ∈ l -> P x -> P (f x b)) -> P (fold_left f l a).
Proof.
  revert a. induction l as [|b l IH]; intros a Ha Hf; simpl; [exact Ha|].
  apply IH.
  - apply Hf; [apply elem_of_cons; left; reflexivity|exact Ha].
  - intros x b' Hin. apply Hf. apply elem_of_cons. right. exact Hin.
Qed.

(** The substitution loops write [x[i]] for [i < rows] only. *)
Lemma substitute_tail M lw x k :
  0 <= rws M <= k -> cell (substitute M lw x) k = cell x k.
Proof.
  intros Hk. unfold substitute, backward, scale, forward.
  apply (fold_left_preserves (fun y => cell y k = cell x k)).
  - apply (fold_left_preserves (fun y => cell y k = cell x k)).
    + apply (fold_left_preserves (fun y => cell y k = cell x k)); [reflexivity|].
      intros y i Hi Hy. apply elem_of_seqZ in Hi. unfold forward_row.
      apply (fold_left_preserves (fun y => cell y k = cell x k)); [exact Hy|].
      intros y' j _ Hy'. unfold forward_step. rewrite cell_insert_ne by lia. exact Hy'.
    + intros y i Hi Hy. apply elem_of_seqZ in Hi. unfold scale_step.
      rewrite cell_insert_ne by lia. exact Hy.
  - intros y i Hi Hy. apply elem_of_reverse, elem_of_seqZ in Hi. unfold backward_row.
    apply (fold_left_preserves (fun y => cell y k = cell x k)); [exact Hy|].
    intros y' j _ Hy'. unfold backward_step. rewrite cell_insert_ne by lia. exact Hy'.
Qed.

(** Processing row [i] changes row [i] only. *)
Lemma spec_row_other M lw i r c :
  0 <= r < rws M -> 0 <= c < cls M -> r <> i ->
  Matrix_elt (fst (spec_row (M, lw) i)) r c = Matrix_elt M r c.
Proof.
  intros Hr Hc Hne. unfold spec_row, spec_row_upto. simpl.
  rewrite Matrix_tab_elt by lia. rewrite (proj2 (Z.eqb_neq _ _)) by exact Hne.
  reflexivity.
Qed.

(** The slots of the band that lie outside the matrix, [i + c >= rows],
    are not written. *)
Lemma spec_row_padding M lw i r c :
  0 <= r < rws M -> 0 <= c < cls M -> rws M <= r + c ->
  Matrix_elt (fst (spec_row (M, lw) i)) r c = Matrix_elt M r c.
Proof.
  intros Hr Hc Hpad. unfold spec_row, spec_row_upto. simpl.
  rewrite Matrix_tab_elt by lia.
  destruct (r =? i) eqn:E1; [|reflexivity]. apply Z.eqb_eq in E1. subst r.
  rewrite (proj2 (Z.eqb_neq _ _)) by lia.
  rewrite Zltb_false by lia. reflexivity.
Qed.

Lemma spec_rows_padding A n r c :
  Matrix_wf A -> 1 <= cls A -> 0 <= n ->
  0 <= r < rws A -> 0 <= c < cls A -> rws A <= r + c ->
  Matrix_elt (fst (spec_rows A n)) r c = Matrix_elt A r c.
Proof.
  intros Hwf Hcls Hn Hr Hc Hpad.
  rewrite <- (Z2Nat.id n Hn). clear Hn.
  induction (Z.to_nat n) as [|k IH]; [reflexivity|].
  rewrite Nat2Z.inj_succ. unfold Z.succ. rewrite spec_rows_succ by lia.
  destruct (spec_rows_ok A (Z.of_nat k) Hwf Hcls ltac:(lia)) as (_ & O2 & O3 & _).
  destruct (spec_rows A (Z.of_nat k)) as [M lw]. simpl in O2, O3, IH.
  rewrite spec_row_padding by lia. exact IH.
Qed.

(** Once row [r] has been processed it is final. *)
Lemma spec_rows_row_final A n (k : nat) r c :
  Matrix_wf A -> 1 <= cls A -> 0 <= r < n -> r < rws A -> 0 <= c < cls A ->
  Matrix_elt (fst (spec_rows A (n + Z.of_nat k))) r c =
  Matrix_elt (fst (spec_rows A n)) r c.
Proof.
  intros Hwf Hcls Hr Hr' Hc.
  induction k as [|k IH]; [rewrite Z.add_0_r; reflexivity|].
  rewrite Nat2Z.inj_succ. unfold Z.succ. rewrite Z.add_assoc.
  rewrite spec_rows_succ by lia.
  destruct (spec_rows_ok A (n + Z.of_nat k) Hwf Hcls ltac:(lia)) as (_ & O2 & O3 & _).
  destruct (spec_rows A (n + Z.of_nat k)) as [M lw]. simpl in O2, O3, IH.
  rewrite spec_row_other by lia. exact IH.
Qed.

Lemma Matrix_is_wf R' R f : Matrix_is R' R f -> Matrix_wf R'.
Proof. intros (_ & _ & _ & Hwf & _). exact Hwf. Qed.

(** X24.  [solveLDLT] works in place.  On conforming arguments both
    overloads return with the coefficient matrix and the right-hand side
    in the buffers and with the shapes (size and capacity, for a vector)
    they had.  The slots of the band that lie outside the matrix, row
    [r] and physical column [c] with [r + c >= rows], keep their
    contents, and so do the cells of a vector right-hand side beyond its
    size. *)
Theorem solveLDLT_in_place (A : Matrix) (la : allocation Z) (ra : allocation float) :
  Matrix_wf A -> 1 <= cls A <= rws A ->
  (forall rhs : Vector, Vector_wf rhs -> sz rhs = rws A ->
     exists A' rhs',
       Matrix_solveLDLT_Vector la ra (A, rhs) = (Ok tt, (A', rhs')) /\
       Matrix_wf A' /\ rws A' = rws A /\ cls A' = cls A /\
       addr (matRows A') = addr (matRows A) /\
       (forall r c, 0 <= r < rws A -> 0 <= c < cls A -> rws A <= r + c ->
                    Matrix_elt A' r c = Matrix_elt A r c) /\
       Vector_wf rhs' /\ sz rhs' = sz rhs /\ cap rhs' = cap rhs /\
       Vector_addr rhs' = Vector_addr rhs /\
       (forall i, sz rhs <= i < cap rhs -> Vector_elt rhs' i = Vector_elt rhs i)) /\
  (forall R : Matrix, Matrix_wf R -> rws R = rws A ->
     exists A' R',
       Matrix_solveLDLT_Matrix la ra (A, R) = (Ok tt, (A', R')) /\
       Matrix_wf A' /\ rws A' = rws A /\ cls A' = cls A /\
       addr (matRows A') = addr (matRows A) /\
       (forall r c, 0 <= r < rws A -> 0 <= c < cls A -> rws A <= r + c ->
                    Matrix_elt A' r c = Matrix_elt A r c) /\
       Matrix_wf R' /\ rws R' = rws R /\ cls R' = cls R /\
       addr (matRows R') = addr (matRows R)).
Proof.
  intros Hwf Hc.
  destruct (spec_factor_ok A Hwf Hc) as (O1 & O2 & O3 & O4 & _).
  assert (Hpad : forall r c, 0 <= r < rws A -> 0 <= c < cls A -> rws A <= r + c ->
                   Matrix_elt (fst (spec_factor A)) r c = Matrix_elt A r c).
  { intros r c Hr Hcc Hp. apply spec_rows_padding; (assumption || lia). }
  split.
  - intros rhs Hrhs Hsz.
    rewrite Matrix_solveLDLT_Vector_ok by assumption.
    eexists. eexists. split; [reflexivity|].
    split_all; try assumption; try reflexivity.
    + apply Vector_with_cells_wf; [exact Hrhs|apply length_substitute].
    + apply Vector_with_cells_addr. exact Hrhs.
    + intros i Hi. rewrite Vector_with_cells_elt. apply substitute_tail. lia.
  - intros R HR Hrows.
    destruct (Matrix_solveLDLT_Matrix_ok A R la ra Hwf Hc HR Hrows)
      as (R' & Hrun & (Hr' & Hc' & Ha' & Hwf' & _)).
    exists (fst (spec_factor A)), R'. split_all; assumption.
Qed.

Lemma solveLDLT_in_place_witness :
  exists A' rhs',
    Matrix_solveLDLT_Vector alloc_int alloc7 (tri3, rhs3) = (Ok tt, (A', rhs')) /\
    rws A' = 3 /\ cls A' = 2 /\ addr (matRows A') = 80 /\
    Matrix_elt A' 2 1 = Matrix_elt tri3 2 1 /\
    sz rhs' = 3 /\ cap rhs' = 3 /\ Vector_addr rhs' = Some 96.
Proof.
  destruct (solveLDLT_in_place tri3 alloc_int alloc7) as [Hvec _].
  - unfold Matrix_wf. simpl. lia.
  - simpl. lia.
  - destruct (Hvec rhs3) as (A' & rhs' & Hrun & _ & Hr & Hc & Ha & Hpad & _ & Hs & Hcap & Had & _).
    + unfold Vector_wf. simpl. lia.
    + reflexivity.
    + exists A', rhs'. split_all; try assumption. apply Hpad; simpl; lia.
Defined.

(** X25.  For bandwidth 1 the matrix overload leaves the coefficient
    matrix as it is and divides every [R[i][k]] by [A[i][0]]. *)
Theorem solveLDLT_Matrix_diagonal (A R : Matrix) (la : allocation Z)
    (ra : allocation float) :
  Matrix_wf A -> cls A = 1 -> 1 <= rws A -> Matrix_wf R -> rws R = rws A ->
  exists R',
    Matrix_solveLDLT_Matrix la ra (A, R) = (Ok tt, (A, R')) /\
    rws R' = rws R /\ cls R' = cls R /\
    forall i k, 0 <= i < rws R -> 0 <= k < cls R ->
                Matrix_elt R' i k = (Matrix_elt R i k / Matrix_elt A i 0)%float.
Proof.
  intros Hwf Hcls Hrows HR Hrw.
  destruct (Matrix_solveLDLT_Matrix_ok A R la ra Hwf ltac:(lia) HR Hrw)
    as (R' & Hrun & (Hr' & Hc' & _ & _ & Helt)).
  unfold spec_factor in *. rewrite spec_rows_diagonal in * by (auto; lia).
  simpl in *. exists R'. split; [exact Hrun|]. split; [exact Hr'|]. split; [exact Hc'|].
  intros i k Hi Hk. rewrite Helt by assumption.
  rewrite substitute_diagonal; [|assumption| |lia].
  - unfold Matrix_column. rewrite cell_tab by lia. reflexivity.
  - unfold Matrix_column. rewrite length_tab. lia.
Qed.

Lemma solveLDLT_Matrix_diagonal_witness :
  exists R',
    Matrix_solveLDLT_Matrix alloc_int alloc7 (diag3, rhs32) = (Ok tt, (diag3, R')) /\
    rws R' = 3 /\ cls R' = 2 /\
    forall i k, 0 <= i < 3 -> 0 <= k < 2 ->
                Matrix_elt R' i k = (Matrix_elt rhs32 i k / Matrix_elt diag3 i 0)%float.
Proof.
  apply (solveLDLT_Matrix_diagonal diag3 rhs32 alloc_int alloc7).
  - unfold Matrix_wf. simpl. lia.
  - reflexivity.
  - simpl. lia.
  - unfold Matrix_wf. simpl. lia.
  - reflexivity.
Defined.

(** X26.  The first row of the factors: [solveLDLT] leaves [A[0][0]] as
    the first pivot and replaces [A[0][c]], for [0 < c < cols], by
    [A[0][c] / A[0][0]]. *)
Theorem solveLDLT_first_row (A : Matrix) (rhs : Vector) (la : allocation Z)
    (ra : allocation float) :
  Matrix_wf A -> 1 <= cls A <= rws A -> Vector_wf rhs -> sz rhs = rws A ->
  exists A' rhs',
    Matrix_solveLDLT_Vector la ra (A, rhs) = (Ok tt, (A', rhs')) /\
    Matrix_elt A' 0 0 = Matrix_elt A 0 0 /\
    forall c, 0 < c < cls A ->
              Matrix_elt A' 0 c = (Matrix_elt A 0 c / Matrix_elt A 0 0)%float.
Proof.
  intros Hwf Hc Hrhs Hsz. pose proof Hwf as (Hr & _ & _).
  rewrite Matrix_solveLDLT_Vector_ok by assumption.
  eexists. eexists. split; [reflexivity|].
  assert (Hrow : forall c, 0 <= c < cls A ->
            Matrix_elt (fst (spec_factor A)) 0 c =
            Matrix_elt (fst (spec_row (A, lwb_init (rws A) (cls A)) 0)) 0 c).
  { intros c Hcc. unfold spec_factor.
    replace (rws A) with (1 + Z.of_nat (Z.to_nat (rws A - 1))) at 1 by lia.
    rewrite spec_rows_row_final by (assumption || lia).
    change 1 with (0 + 1). rewrite spec_rows_succ by lia. reflexivity. }
  assert (Hd : spec_d A (lwb_init (rws A) (cls A)) 0 = Matrix_elt A 0 0).
  { unfold spec_d. apply minus_sum_nil. rewrite cell_lwb_init by lia.
    rewrite (proj2 (Z.ltb_lt _ _)) by lia. lia. }
  split.
  - rewrite Hrow by lia. unfold spec_row, spec_row_upto. simpl.
    rewrite Matrix_tab_elt by lia. simpl. exact Hd.
  - intros c Hcc. rewrite Hrow by lia. unfold spec_row, spec_row_upto. simpl.
    rewrite Matrix_tab_elt by lia. simpl.
    rewrite (proj2 (Z.eqb_neq _ _)) by lia.
    rewrite (proj2 (Z.ltb_lt _ _)) by lia.
    unfold spec_m. rewrite Hd. rewrite minus_sum_nil.
    + replace (0 + c - 0) with c by lia. reflexivity.
    + rewrite (cell_lwb_init _ _ 0) by lia.
      rewrite (proj2 (Z.ltb_lt 0 _)) by lia.
      pose proof (lwb_init_ok (rws A) (cls A) Hr ltac:(lia)) as [_ Hlw].
      specialize (Hlw c ltac:(lia)). lia.
Qed.

Lemma solveLDLT_first_row_witness :
  exists A' rhs',
    Matrix_solveLDLT_Vector alloc_int alloc7 (tri3, rhs3) = (Ok tt, (A', rhs')) /\
    Matrix_elt A' 0 0 = 4%float /\
    Matrix_elt A' 0 1 = (1 / 4)%float.
Proof.
  destruct (solveLDLT_first_row tri3 rhs3 alloc_int alloc7) as (A' & rhs' & Hrun & H0 & Hc).
  - unfold Matrix_wf. simpl. lia.
  - simpl. lia.
  - unfold Vector_wf. simpl. lia.
  - reflexivity.
  - exists A', rhs'. split; [exact Hrun|]. split; [exact H0|]. apply (Hc 1). simpl. lia.
Defined.

(** X27.  With a right-hand side of zero columns the matrix overload
    still factorizes the coefficient matrix in place and returns
    normally; the right-hand side is unchanged. *)
Theorem solveLDLT_Matrix_no_columns (A R : Matrix) (la : allocation Z)
    (ra : allocation float) :
  Matrix_wf A -> 1 <= cls A <= rws A -> Matrix_wf R -> rws R = rws A -> cls R = 0 ->
  Matrix_solveLDLT_Matrix la ra (A, R) = (Ok tt, (fst (spec_factor A), R)).
Proof.
  intros Hwf Hc HR Hrows Hcols.
  destruct (Matrix_solveLDLT_Matrix_ok A R la ra Hwf Hc HR Hrows)
    as (R' & Hrun & (Hr' & Hc' & Ha' & (_ & _ & Hlen') & _)).
  rewrite Hrun. do 3 f_equal.
  destruct HR as (_ & _ & Hlen).
  destruct R' as [r' c' [ad' l']], R as [r c [ad l]]. simpl in *. subst.
  rewrite Z.mul_0_r in Hlen, Hlen'.
  destruct l' as [|x' l']; [|simpl in Hlen'; lia].
  destruct l as [|x l]; [|simpl in Hlen; lia].
  reflexivity.
Qed.

Lemma solveLDLT_Matrix_no_columns_witness :
  Matrix_solveLDLT_Matrix alloc_int alloc7 (tri3, Matrix_new 3 0 true alloc8) =
  (Ok tt, (fst (spec_factor tri3), Matrix_new 3 0 true alloc8)).
Proof.
  apply (solveLDLT_Matrix_no_columns tri3 (Matrix_new 3 0 true alloc8) alloc_int alloc7).
  - unfold Matrix_wf. simpl. lia.
  - simpl. lia.
  - unfold Matrix_wf. simpl. lia.
  - reflexivity.
  - reflexivity.
Defined.

(* ===================================================================== *)
(** ** The model at work *)
(* ===================================================================== *)

(** The tridiagonal system [[4 1 0; 1 4 1; 0 1 4] x = [1 2 3]]: the
    factors left in the banded storage and the solution, the doubles
    next to [(5/28, 2/7, 19/28)]. *)
#[warnings="-inexact-float"]
Example solveLDLT_tri3 :
  Matrix_solveLDLT_Vector alloc_int alloc7 (tri3, rhs3) =
  (Ok tt,
   ({| rws := 3; cls := 2;
       matRows := {| addr := 80;
                     cells := [4; 0.25; 3.75; 0.26666666666666666;
                               3.7333333333333334; 0]%float |} |},
    {| va := Some {| addr := 96;
                     cells := [0.17857142857142855; 0.28571428571428575;
                               0.67857142857142849]%float |};
       sz := 3; cap := 3 |})).
Proof. vm_compute. reflexivity. Qed.

(** The same system with the two right-hand sides [[1 2 3]] and
    [[4 5 6]] as the columns of a matrix. *)
#[warnings="-inexact-float"]
Example solveLDLT_tri3_two_columns :
  Matrix_solveLDLT_Matrix alloc_int alloc7 (tri3, rhs32) =
  (Ok tt,
   ({| rws := 3; cls := 2;
       matRows := {| addr := 80;
                     cells := [4; 0.25; 3.75; 0.26666666666666666;
                               3.7333333333333334; 0]%float |} |},
    {| rws := 3; cls := 2;
       matRows := {| addr := 112;
                     cells := [0.17857142857142855; 0.8214285714285714;
                               0.28571428571428575; 0.7142857142857143;
                               0.67857142857142849; 1.3214285714285714]%float |} |})).
Proof. vm_compute. reflexivity. Qed.

(** [setSize] inside the window, outside it, and with a negative size. *)
Example setSize_vec4_shrink :
  Vector_setSize 2 false true alloc7 vec4 =
  (Ok tt, {| va := Some {| addr := 16; cells := [1; 2; 3; 4]%float |}; sz := 2; cap := 4 |}).
Proof. reflexivity. Qed.

Example setSize_vec4_grow :
  Vector_setSize 6 true true alloc7 vec4 =
  (Ok tt, {| va := Some {| addr := 64; cells := [1; 2; 3; 4; 0; 0]%float |};
             sz := 6; cap := 6 |}).
Proof. reflexivity. Qed.

Example setSize_vec4_negative :
  Vector_setSize (-1) true true alloc7 vec4 = (Throw IllegalArgumentException, vec4).
Proof. reflexivity. Qed.

(** [transpose] of a 2 x 3 matrix into a 1 x 1 matrix reallocates it. *)
Example transpose_mat23 :
  Matrix_transpose mat23 alloc7 mat11 =
  (Ok tt, {| rws := 3; cls := 2;
             matRows := {| addr := 64; cells := [1; 4; 2; 5; 3; 6]%float |} |}).
Proof. reflexivity. Qed.

(** [multiply] of a 2 x 3 by a 3 x 2 matrix into a 1 x 1 matrix, which
    it reallocates; with a 2 x 3 right operand it throws. *)
Example multiply_mat23_mat32 :
  Matrix_multiply mat23 mat32 alloc7 mat11 =
  (Ok tt, {| rws := 2; cls := 2;
             matRows := {| addr := 64; cells := [5; 11; 14; 23]%float |} |}).
Proof. vm_compute. reflexivity. Qed.

Example multiply_mat23_mat23 :
  Matrix_multiply mat23 mat23 alloc7 mat11 = (Throw IllegalArgumentException, mat11).
Proof. reflexivity. Qed.

(** Assignment from a vector of size 3 and capacity 5 to one of capacity
    4 keeps the buffer of the receiver. *)
Example assign_vec35_to_vec4 :
  Vector_assign vec35 alloc7 vec4 =
  (Ok tt, {| va := Some {| addr := 16; cells := [1; 2; 3; 4]%float |}; sz := 3; cap := 4 |}).
Proof. reflexivity. Qed.
